(** * Grid search of the warehouse navigation code

    A shallow embedding of [src/ucs_pathfinder.py] and
    [src/astar_pathfinder.py]: the two best-first searches over the grid
    environment, their node and frontier structures, and the properties
    the specification states about them. *)

From stdpp Require Import gmap list sorting.
From Stdlib Require Import ZArith QArith Lia.

Set Warnings "-register-all".

Local Open Scope Z_scope.

(** ** Positions, actions and the environment *)

(** [Position = Tuple[int, int]]: a (row, column) pair of Python integers. *)
Definition Position : Type := Z * Z.

(** The four move labels, in the order of the list the searches iterate
    over: [["N", "E", "S", "W"]]. *)
Inductive Action := N | E | S | W.

Definition ACTIONS : list Action := [N; E; S; W].

(** The environment object is used through two attributes only:
    [env.MOVE_DELTAS[act]] and [env._is_wall(r, c)].  The class itself
    ([warehouse_env.WarehouseEnv]) is not part of the sources, so both
    are fields of a record the searches are parameterised by. *)
Record Env := {
  MOVE_DELTAS : Action -> Z * Z;
  _is_wall : Z -> Z -> bool
}.

(** The cell reached from [p] by [act]: [(r + dr, c + dc)]. *)
Definition move (env : Env) (p : Position) (act : Action) : Position :=
  let '(r, c) := p in
  let '(dr, dc) := MOVE_DELTAS env act in
  (r + dr, c + dc).

Definition wall_at (env : Env) (p : Position) : bool :=
  _is_wall env (fst p) (snd p).

(** The statistics dictionary returned next to the path.  The entry
    ["time_ms"] is a wall-clock measurement and is left out. *)
Record Stats := {
  nodes_expanded : Z;
  path_length : option Z;
  frontier_peak : Z
}.

(** ** The frontier: [heapq] over [(priority, id(node), node)] tuples *)

(** [heapq] is Python's library heap.  The searches observe a heap only
    through [heappush], [heappop] and [len], so the frontier is kept as
    the list of its entries and [heappop] takes out the least entry under
    Python's tuple comparison.  The second component of an entry is
    [id(node)], which CPython keeps distinct for objects alive at the
    same time; only if two entries agree on priority and identity does
    the comparison reach [Node.__lt__]. *)
Module heapq.
Section Heap.
Context {Node : Type} (node_lt : Node -> Node -> bool).

Definition Entry : Type := Z * Z * Node.

Definition priority (x : Entry) : Z := fst (fst x).
Definition ident_of (x : Entry) : Z := snd (fst x).
Definition node_of (x : Entry) : Node := snd x.

(** Tuple comparison [x < y]: the first differing component decides. *)
Definition entry_lt (x y : Entry) : bool :=
  if priority x <? priority y then true
  else if priority y <? priority x then false
  else if ident_of x <? ident_of y then true
  else if ident_of y <? ident_of x then false
  else node_lt (node_of x) (node_of y).

Definition heappush (heap : list Entry) (item : Entry) : list Entry :=
  heap ++ [item].

(** [extract_min x l]: the least entry of [x :: l] and the others. *)
Fixpoint extract_min (x : Entry) (l : list Entry) : Entry * list Entry :=
  match l with
  | [] => (x, [])
  | y :: l' =>
      let '(m, rest) := extract_min y l' in
      if entry_lt m x then (m, x :: rest) else (x, y :: l')
  end.

Definition heappop (heap : list Entry) : option (Entry * list Entry) :=
  match heap with
  | [] => None
  | x :: l => Some (extract_min x l)
  end.
End Heap.
End heapq.

(** ** Dictionaries in insertion order *)

(** [explored: Dict[Position, float]] of the uniform-cost search.  A
    Python dictionary keeps its keys in insertion order, and assigning to
    a key already present replaces the value in place. *)
Definition Dict : Type := list (Position * Z).

(** [d.get(k)]: [None] when [k not in d], else [Some d[k]]. *)
Fixpoint dict_get (d : Dict) (k : Position) : option Z :=
  match d with
  | [] => None
  | (k', v) :: d' => if decide (k' = k) then Some v else dict_get d' k
  end.

(** [d[k] = v]. *)
Fixpoint dict_set (d : Dict) (k : Position) (v : Z) : Dict :=
  match d with
  | [] => [(k, v)]
  | (k', v') :: d' =>
      if decide (k' = k) then (k, v) :: d' else (k', v') :: dict_set d' k v
  end.

(** ** The shape shared by the two [while] loops *)

(** What one pass of a loop body does: go round again ([continue] or the
    end of the body), [return] the popped node, or [break]. *)
Inductive Step (Node State : Type) :=
| Continue (st : State)
| Return (node : Node) (st : State)
| Break (st : State).
Arguments Continue {Node State} st.
Arguments Return {Node State} node st.
Arguments Break {Node State} st.

(** How the [while] loop of a search ends: the [return] on the goal
    node, the frontier running empty, or the [break] on the cap. *)
Inductive Outcome (Node : Type) :=
| Found (node : Node)
| Exhausted
| Aborted.
Arguments Found {Node} node.
Arguments Exhausted {Node}.
Arguments Aborted {Node}.

(** How a call ends once the interpreter's bound on nested calls is
    taken into account: it returns a value, or a call made with no frame
    left raises [RecursionError]. *)
Inductive Call (X : Type) :=
| Returns (x : X)
| RecursionError.
Arguments Returns {X} x.
Arguments RecursionError {X}.

Section Loop.
Context {Node State : Type}.

(** The loop body; [None] when the frontier is empty. *)
Variable iteration : State -> option (Step Node State).

(** [while frontier: ...]; [None] when the fuel runs out first. *)
Fixpoint while_loop (fuel : nat) (st : State) : option (Outcome Node * State) :=
  match fuel with
  | O => None
  | Datatypes.S fuel' =>
      match iteration st with
      | None => Some (Exhausted, st)
      | Some (Continue st') => while_loop fuel' st'
      | Some (Return node st') => Some (Found node, st')
      | Some (Break st') => Some (Aborted, st')
      end
  end.
End Loop.

(** ** Uniform cost search ([src/ucs_pathfinder.py]) *)

Module ucs_pathfinder.

(** [class Node]: position, parent link, action label and cost [g]. *)
Inductive Node := mkNode {
  position : Position;
  parent : option Node;
  action : option Action;
  g : Z
}.

(** [Node.__lt__]. *)
Definition node_lt (a b : Node) : bool := g a <? g b.

(** [Node.path]: the list the recursion builds, parent first.  The bound
    the interpreter puts on nested calls is in [path_within] below. *)
Fixpoint path (n : Node) : list Position :=
  match n with
  | mkNode p par _ _ =>
      match par with
      | None => [p]
      | Some q => path q ++ [p]
      end
  end.

(** [Node.path] as the interpreter runs it: each call of [path] takes a
    frame and calls [path] of the parent, so a chain of [k] nodes needs
    [k] frames.  [frames] is the number of frames the interpreter still
    allows when [path] is called; [path] above is the list the call
    returns when they suffice. *)
Fixpoint path_within (frames : nat) (n : Node) : Call (list Position) :=
  match frames with
  | O => RecursionError
  | Datatypes.S frames' =>
      match parent n with
      | None => Returns [position n]
      | Some q =>
          match path_within frames' q with
          | Returns l => Returns (l ++ [position n])
          | RecursionError => RecursionError
          end
      end
  end.

Abbreviation Entry := (@heapq.Entry Node).
Abbreviation heappush := (@heapq.heappush Node).
Abbreviation heappop := (heapq.heappop node_lt).

(** The local variables of [uniformcost_search] that live across
    iterations of the [while] loop.  [allocated] counts the [Node]
    objects created so far: the k-th one has identity [ident k]. *)
Record State := mkState {
  frontier : list Entry;
  explored : Dict;
  peak : Z;
  expanded : Z;
  allocated : nat
}.

Section Search.
Variable ident : nat -> Z.
Variable env : Env.
Variable goal : Position.
Variable max_expansions : Z.

(** One pass of the body of [for act in ["N", "E", "S", "W"]]. *)
Definition visit (explored : Dict) (node : Node)
    (acc : list Entry * nat) (act : Action) : list Entry * nat :=
  let '(r, c) := position node in
  let '(dr, dc) := MOVE_DELTAS env act in
  let nr := r + dr in
  let nc := c + dc in
  if _is_wall env nr nc then acc
  else
    let child_pos := (nr, nc) in
    let child_g := g node + 1 in
    let push :=
      match dict_get explored child_pos with
      | None => true
      | Some v => child_g <? v
      end in
    if push then
      let child_node := mkNode child_pos (Some node) (Some act) child_g in
      (heappush (fst acc) (child_g, ident (snd acc), child_node),
       Datatypes.S (snd acc))
    else acc.

(** The body of the [while frontier] loop; [None] when the frontier is
    empty and the loop is left. *)
Definition iteration (st : State) : option (Step Node State) :=
  match heappop (frontier st) with
  | None => None
  | Some ((cost, _, node), fr) =>
      if decide (position node = goal) then
        Some (Return node
                (mkState fr (explored st) (peak st) (expanded st) (allocated st)))
      else
        let stale :=
          match dict_get (explored st) (position node) with
          | Some v => v <=? g node
          | None => false
          end in
        if stale then
          Some (Continue
                  (mkState fr (explored st) (peak st) (expanded st) (allocated st)))
        else
          let explored' := dict_set (explored st) (position node) (g node) in
          let expanded' := expanded st + 1 in
          if expanded' >? max_expansions then
            Some (Break (mkState fr explored' (peak st) expanded' (allocated st)))
          else
            let '(fr', k) :=
              fold_left (visit explored' node) ACTIONS (fr, allocated st) in
            Some (Continue
                    (mkState fr' explored'
                       (Z.max (peak st) (Z.of_nat (length fr'))) expanded' k))
  end.

Definition initial (start : Position) : State :=
  let start_node := mkNode start None None 0 in
  mkState (heappush [] (0, ident O, start_node)) [] 1 0 1%nat.

(** The two [return] statements. *)
Definition result (r : Outcome Node * State) : option (list Position) * Stats :=
  match fst r with
  | Found node =>
      (Some (path node),
       {| nodes_expanded := expanded (snd r);
          path_length := Some (Z.of_nat (length (path node)));
          frontier_peak := peak (snd r) |})
  | _ =>
      (None,
       {| nodes_expanded := expanded (snd r);
          path_length := None;
          frontier_peak := peak (snd r) |})
  end.

(** Iterations the loop can still need: each one pops an entry, and only
    the expansions the cap still leaves room for push, four entries at most. *)
Definition budget (st : State) : nat :=
  (4 * Z.to_nat (max_expansions - expanded st) + length (frontier st))%nat.

(** A whole call: how the loop ended and the state it ended in. *)
Definition run (start : Position) : option (Outcome Node * State) :=
  while_loop iteration (Datatypes.S (budget (initial start))) (initial start).

(** What the call returns when [Node.path] has the frames it needs;
    [uniformcost_search_within] below has the bound on nested calls. *)
Definition uniformcost_search (start : Position)
  : option (option (list Position) * Stats) :=
  result <$> run start.

(** The two [return] statements with the bound on nested calls: the
    first evaluates [node.path()] twice, and either call raises when the
    chain of parents is longer than [frames]. *)
Definition result_within (frames : nat) (r : Outcome Node * State)
  : Call (option (list Position) * Stats) :=
  match fst r with
  | Found node =>
      match path_within frames node with
      | Returns p =>
          match path_within frames node with
          | Returns p' =>
              Returns (Some p,
                       {| nodes_expanded := expanded (snd r);
                          path_length := Some (Z.of_nat (length p'));
                          frontier_peak := peak (snd r) |})
          | RecursionError => RecursionError
          end
      | RecursionError => RecursionError
      end
  | _ =>
      Returns (None,
               {| nodes_expanded := expanded (snd r);
                  path_length := None;
                  frontier_peak := peak (snd r) |})
  end.

(** [uniformcost_search] as the interpreter runs it, with [frames]
    frames left for [Node.path]. *)
Definition uniformcost_search_within (frames : nat) (start : Position)
  : option (Call (option (list Position) * Stats)) :=
  result_within frames <$> run start.
End Search.
End ucs_pathfinder.

(** ** A* search ([src/astar_pathfinder.py]) *)

Module astar_pathfinder.

(** [class Node]: as above, with the heuristic [h] and [f = g + h]. *)
Inductive Node := mkNode {
  position : Position;
  parent : option Node;
  action : option Action;
  g : Z;
  h : Z;
  f : Z
}.

(** [Node.__init__]. *)
Definition Node_init (position : Position) (parent : option Node)
    (action : option Action) (g h : Z) : Node :=
  mkNode position parent action g h (g + h).

(** [Node.__lt__]. *)
Definition node_lt (a b : Node) : bool := f a <? f b.

(** [Node.path]: the list the recursion builds, parent first.  The bound
    the interpreter puts on nested calls is in [path_within] below. *)
Fixpoint path (n : Node) : list Position :=
  match n with
  | mkNode p par _ _ _ _ =>
      match par with
      | None => [p]
      | Some q => path q ++ [p]
      end
  end.

(** [Node.path] as the interpreter runs it, with [frames] frames left
    (see [ucs_pathfinder.path_within]). *)
Fixpoint path_within (frames : nat) (n : Node) : Call (list Position) :=
  match frames with
  | O => RecursionError
  | Datatypes.S frames' =>
      match parent n with
      | None => Returns [position n]
      | Some q =>
          match path_within frames' q with
          | Returns l => Returns (l ++ [position n])
          | RecursionError => RecursionError
          end
      end
  end.

(** [manhattan_distance]. *)
Definition manhattan_distance (pos goal : Position) : Z :=
  Z.abs (fst pos - fst goal) + Z.abs (snd pos - snd goal).

Abbreviation Entry := (@heapq.Entry Node).
Abbreviation heappush := (@heapq.heappush Node).
Abbreviation heappop := (heapq.heappop node_lt).

Record State := mkState {
  frontier : list Entry;
  explored : gset Position;
  peak : Z;
  expanded : Z;
  allocated : nat
}.

Section Search.
Variable ident : nat -> Z.
Variable env : Env.
Variable goal : Position.
Variable heuristic : Position -> Position -> Z.
Variable max_expansions : Z.

(** One pass of the body of [for act in ["N", "E", "S", "W"]]. *)
Definition visit (explored : gset Position) (node : Node)
    (acc : list Entry * nat) (act : Action) : list Entry * nat :=
  let '(r, c) := position node in
  let '(dr, dc) := MOVE_DELTAS env act in
  let nr := r + dr in
  let nc := c + dc in
  if _is_wall env nr nc then acc
  else
    let child_pos := (nr, nc) in
    if decide (child_pos ∈ explored) then acc
    else
      let child_g := g node + 1 in
      let child_h := heuristic child_pos goal in
      let child_node := Node_init child_pos (Some node) (Some act) child_g child_h in
      (heappush (fst acc) (f child_node, ident (snd acc), child_node),
       Datatypes.S (snd acc)).

(** The body of the [while frontier] loop; [None] when the frontier is
    empty and the loop is left. *)
Definition iteration (st : State) : option (Step Node State) :=
  match heappop (frontier st) with
  | None => None
  | Some ((_, _, node), fr) =>
      if decide (position node = goal) then
        Some (Return node
                (mkState fr (explored st) (peak st) (expanded st) (allocated st)))
      else if decide (position node ∈ explored st) then
        Some (Continue
                (mkState fr (explored st) (peak st) (expanded st) (allocated st)))
      else
        let explored' := explored st ∪ {[position node]} in
        let expanded' := expanded st + 1 in
        if expanded' >? max_expansions then
          Some (Break (mkState fr explored' (peak st) expanded' (allocated st)))
        else
          let '(fr', k) :=
            fold_left (visit explored' node) ACTIONS (fr, allocated st) in
          Some (Continue
                  (mkState fr' explored'
                     (Z.max (peak st) (Z.of_nat (length fr'))) expanded' k))
  end.

Definition initial (start : Position) : State :=
  let h_start := heuristic start goal in
  let start_node := Node_init start None None 0 h_start in
  mkState (heappush [] (f start_node, ident O, start_node)) ∅ 1 0 1%nat.

(** The two [return] statements. *)
Definition result (r : Outcome Node * State) : option (list Position) * Stats :=
  match fst r with
  | Found node =>
      (Some (path node),
       {| nodes_expanded := expanded (snd r);
          path_length := Some (Z.of_nat (length (path node)));
          frontier_peak := peak (snd r) |})
  | _ =>
      (None,
       {| nodes_expanded := expanded (snd r);
          path_length := None;
          frontier_peak := peak (snd r) |})
  end.

Definition budget (st : State) : nat :=
  (4 * Z.to_nat (max_expansions - expanded st) + length (frontier st))%nat.

(** A whole call: how the loop ended and the state it ended in. *)
Definition run (start : Position) : option (Outcome Node * State) :=
  while_loop iteration (Datatypes.S (budget (initial start))) (initial start).

(** What the call returns when [Node.path] has the frames it needs;
    [astar_search_within] below has the bound on nested calls. *)
Definition astar_search (start : Position)
  : option (option (list Position) * Stats) :=
  result <$> run start.

(** The two [return] statements with the bound on nested calls. *)
Definition result_within (frames : nat) (r : Outcome Node * State)
  : Call (option (list Position) * Stats) :=
  match fst r with
  | Found node =>
      match path_within frames node with
      | Returns p =>
          match path_within frames node with
          | Returns p' =>
              Returns (Some p,
                       {| nodes_expanded := expanded (snd r);
                          path_length := Some (Z.of_nat (length p'));
                          frontier_peak := peak (snd r) |})
          | RecursionError => RecursionError
          end
      | RecursionError => RecursionError
      end
  | _ =>
      Returns (None,
               {| nodes_expanded := expanded (snd r);
                  path_length := None;
                  frontier_peak := peak (snd r) |})
  end.

(** [astar_search] as the interpreter runs it, with [frames] frames left
    for [Node.path]. *)
Definition astar_search_within (frames : nat) (start : Position)
  : option (Call (option (list Position) * Stats)) :=
  result_within frames <$> run start.
End Search.
End astar_pathfinder.

(** ** A concrete environment *)

(** Modelled from the spec: the Grid Environment collaborator
    ([warehouse_env.py] is not among the sources): a fixed mapping from
    the four direction labels to (row-delta, column-delta) pairs, and a
    predicate that is true for out-of-bounds cells and for cells marked
    as obstacles. *)
Definition cardinal_deltas (act : Action) : Z * Z :=
  match act with
  | N => (-1, 0)
  | E => (0, 1)
  | S => (1, 0)
  | W => (0, -1)
  end.

Definition grid_env (rows cols : Z) (obstacles : list Position) : Env :=
  {| MOVE_DELTAS := cardinal_deltas;
     _is_wall := fun r c =>
       negb ((0 <=? r) && (r <? rows) && (0 <=? c) && (c <? cols))
       || bool_decide ((r, c) ∈ obstacles) |}.

(** ** Routes on the grid *)

Section Graph.
Variable env : Env.
Variable start : Position.

(** [reach k p]: [k] moves, each into a passable cell, lead from [start]
    to [p].  The start cell itself is not tested: neither search asks
    [_is_wall] about it. *)
Inductive reach : Z -> Position -> Prop :=
| reach_start : reach 0 start
| reach_move k p act :
    reach k p ->
    wall_at env (move env p act) = false ->
    reach (k + 1) (move env p act).

(** The same as a list of cells: [l] starts at [start], ends at [p], and
    each next cell is one move away and passable. *)
Definition route (l : list Position) (p : Position) : Prop :=
  l !! 0%nat = Some start /\
  last l = Some p /\
  forall (i : nat) a b,
    l !! i = Some a -> l !! Datatypes.S i = Some b ->
    exists act, b = move env a act /\ wall_at env b = false.

Definition reachable (p : Position) : Prop := exists k, reach k p.
End Graph.

(** ** The invariant of best-first search *)

Section Invariant.
Context {Node : Type}.
Variable env : Env.
Variable start goal : Position.

(** The heuristic towards the goal, the cell of a node and its cost. *)
Variable hf : Position -> Z.
Variable npos : Node -> Position.
Variable ng : Node -> Z.

(** A heuristic is consistent when one move lowers it by one at most. *)
Definition consistent : Prop :=
  forall p act,
    wall_at env (move env p act) = false -> hf p <= 1 + hf (move env p act).

Definition entry_ok (e : @heapq.Entry Node) : Prop :=
  reach env start (ng (heapq.node_of e)) (npos (heapq.node_of e)) /\
  heapq.priority e = ng (heapq.node_of e) + hf (npos (heapq.node_of e)).

(** The priority a finalized cell was popped at. *)
Definition fkey (kv : Position * Z) : Z := kv.2 + hf kv.1.

(** [fin] lists the finalized cells with their costs, oldest first. *)
Record Inv (F : list (@heapq.Entry Node)) (fin : Dict) : Prop := {
  inv_entries : forall e, e ∈ F -> entry_ok e;
  inv_optimal : forall p c, (p, c) ∈ fin ->
    reach env start c p /\ forall k, reach env start k p -> c <= k;
  inv_nodup : NoDup fin.*1;
  inv_goal : goal ∉ fin.*1;
  inv_below : forall kv e, kv ∈ fin -> e ∈ F -> fkey kv <= heapq.priority e;
  inv_sorted : StronglySorted (fun a b => fkey a <= fkey b) fin
}.

(** Every cell one move away from the finalized ones, and the start, is
    finalized or waits in the frontier at a cost that is low enough. *)
Record Closed (F : list (@heapq.Entry Node)) (fin : Dict) : Prop := {
  closed_start :
    start ∈ fin.*1 \/
    exists e, e ∈ F /\ npos (heapq.node_of e) = start /\ ng (heapq.node_of e) = 0;
  closed_move : forall p c act,
    (p, c) ∈ fin ->
    wall_at env (move env p act) = false ->
    move env p act ∈ fin.*1 \/
    exists e, e ∈ F /\ npos (heapq.node_of e) = move env p act /\
              ng (heapq.node_of e) <= c + 1
}.

(** The entries one expansion of [node] adds. *)
Definition child_entry (node : Node) (e : @heapq.Entry Node) : Prop :=
  exists act,
    npos (heapq.node_of e) = move env (npos node) act /\
    wall_at env (move env (npos node) act) = false /\
    ng (heapq.node_of e) = ng node + 1 /\
    heapq.priority e = ng node + 1 + hf (move env (npos node) act).

(** What an expansion of [node] must leave behind for each passable
    neighbour. *)
Definition covers (node : Node) (fin : Dict) (added : list (@heapq.Entry Node)) : Prop :=
  forall act,
    wall_at env (move env (npos node) act) = false ->
    move env (npos node) act ∈ fin.*1 \/
    exists e, e ∈ added /\ npos (heapq.node_of e) = move env (npos node) act /\
              ng (heapq.node_of e) = ng node + 1.
End Invariant.

(** The four deltas are cardinal moves when each is one cell long. *)
Definition cardinal (env : Env) : Prop :=
  forall act,
    Z.abs (fst (MOVE_DELTAS env act)) + Z.abs (snd (MOVE_DELTAS env act)) = 1.

(** Node identities in allocation order, and in the reverse order. *)
Definition ident_up (k : nat) : Z := Z.of_nat k.
Definition ident_down (k : nat) : Z := 1000 - Z.of_nat k.

(** ** What holds of the states of the two searches *)

Module U := ucs_pathfinder.
Module A := astar_pathfinder.

Section SearchInvariants.
Variable env : Env.
Variable start goal : Position.

(** A node as the uniform-cost search builds them: the root sits on
    [start] at cost 0, a child one passable move from its parent at one
    more. *)
Fixpoint ucs_wf (n : U.Node) : Prop :=
  match n with
  | U.mkNode p par a c =>
      match par with
      | None => p = start /\ a = None /\ c = 0
      | Some q =>
          ucs_wf q /\
          exists act, a = Some act /\ p = move env (U.position q) act /\
                      wall_at env p = false /\ c = U.g q + 1
      end
  end.

Definition ucs_inv (st : U.State) : Prop :=
  Inv env start goal (fun _ => 0) U.position U.g (U.frontier st) (U.explored st) /\
  Forall (fun e => ucs_wf (heapq.node_of e)) (U.frontier st) /\
  U.expanded st = Z.of_nat (length (U.explored st)).

Definition ucs_closed (st : U.State) : Prop :=
  Closed env start U.position U.g (U.frontier st) (U.explored st).

(** What is known when the loop has ended. *)
Definition ucs_post (out : Outcome U.Node) (st : U.State) : Prop :=
  match out with
  | Found node =>
      exists F e,
        heapq.heappop U.node_lt F = Some (e, U.frontier st) /\
        heapq.node_of e = node /\
        U.position node = goal /\
        ucs_wf node /\
        Inv env start goal (fun _ => 0) U.position U.g F (U.explored st) /\
        Closed env start U.position U.g F (U.explored st) /\
        U.expanded st = Z.of_nat (length (U.explored st))
  | Exhausted => ucs_inv st /\ ucs_closed st /\ U.frontier st = []
  | Aborted => ucs_inv st
  end.

(** The same for A*, whose nodes also store [h] and [f]. *)
Variable heuristic : Position -> Position -> Z.

Fixpoint astar_wf (n : A.Node) : Prop :=
  match n with
  | A.mkNode p par a c hh ff =>
      hh = heuristic p goal /\ ff = c + hh /\
      match par with
      | None => p = start /\ a = None /\ c = 0
      | Some q =>
          astar_wf q /\
          exists act, a = Some act /\ p = move env (A.position q) act /\
                      wall_at env p = false /\ c = A.g q + 1
      end
  end.

(** The explored set of A* holds no costs; [fin] supplies the cost each
    cell was finalized at, oldest first. *)
Definition astar_inv (fin : Dict) (st : A.State) : Prop :=
  Inv env start goal (fun p => heuristic p goal) A.position A.g (A.frontier st) fin /\
  Forall (fun e => astar_wf (heapq.node_of e)) (A.frontier st) /\
  A.explored st = list_to_set fin.*1 /\
  A.expanded st = Z.of_nat (length fin).

Definition astar_closed (fin : Dict) (st : A.State) : Prop :=
  Closed env start A.position A.g (A.frontier st) fin.

Definition astar_post (out : Outcome A.Node) (st : A.State) : Prop :=
  exists fin,
    A.explored st = list_to_set fin.*1 /\
    A.expanded st = Z.of_nat (length fin) /\
    match out with
    | Found node =>
        exists F e,
          heapq.heappop A.node_lt F = Some (e, A.frontier st) /\
          heapq.node_of e = node /\
          A.position node = goal /\
          astar_wf node /\
          Inv env start goal (fun p => heuristic p goal) A.position A.g F fin /\
          Closed env start A.position A.g F fin
    | Exhausted => astar_inv fin st /\ astar_closed fin st /\ A.frontier st = []
    | Aborted => astar_inv fin st
    end.
End SearchInvariants.

(** ** Two runs whose node identities are ordered alike *)

(** Addresses as an allocator that grows upwards hands them out. *)
Definition ident_addr (k : nat) : Z := 140000 + 64 * Z.of_nat k.

Definition same_order (id1 id2 : nat -> Z) : Prop :=
  forall i j, (id1 i <? id1 j) = (id2 i <? id2 j).

Section Simulation.
Context {Node State : Type}.
Variable id1 id2 : nat -> Z.

(** Entries of the two runs that hold the same node at the same priority
    and carry the identities of the same allocation. *)
Definition entry_sim (e1 e2 : @heapq.Entry Node) : Prop :=
  heapq.priority e1 = heapq.priority e2 /\
  heapq.node_of e1 = heapq.node_of e2 /\
  exists k, heapq.ident_of e1 = id1 k /\ heapq.ident_of e2 = id2 k.

Definition step_sim (R : State -> State -> Prop)
    (a b : option (Step Node State)) : Prop :=
  match a, b with
  | None, None => True
  | Some (Continue s1), Some (Continue s2) => R s1 s2
  | Some (Return n1 s1), Some (Return n2 s2) => n1 = n2 /\ R s1 s2
  | Some (Break s1), Some (Break s2) => R s1 s2
  | _, _ => False
  end.

Definition run_sim (R : State -> State -> Prop)
    (a b : option (Outcome Node * State)) : Prop :=
  match a, b with
  | None, None => True
  | Some (o1, s1), Some (o2, s2) => o1 = o2 /\ R s1 s2
  | _, _ => False
  end.
End Simulation.

Definition ucs_state_sim (id1 id2 : nat -> Z) (s1 s2 : U.State) : Prop :=
  Forall2 (entry_sim id1 id2) (U.frontier s1) (U.frontier s2) /\
  U.explored s1 = U.explored s2 /\
  U.peak s1 = U.peak s2 /\
  U.expanded s1 = U.expanded s2 /\
  U.allocated s1 = U.allocated s2.

Definition astar_state_sim (id1 id2 : nat -> Z) (s1 s2 : A.State) : Prop :=
  Forall2 (entry_sim id1 id2) (A.frontier s1) (A.frontier s2) /\
  A.explored s1 = A.explored s2 /\
  A.peak s1 = A.peak s2 /\
  A.expanded s1 = A.expanded s2 /\
  A.allocated s1 = A.allocated s2.

(** ** The uniform-cost search beside A* without a heuristic *)

(** The heuristic that is 0 everywhere. *)
Definition zero_heuristic (_ _ : Position) : Z := 0.

(** An A* node without its [h] and [f] attributes. *)
Fixpoint forget (n : A.Node) : U.Node :=
  match n with
  | A.mkNode p par a c _ _ =>
      U.mkNode p
        match par with
        | None => None
        | Some q => Some (forget q)
        end a c
  end.

Definition entry_match (eu : U.Entry) (ea : A.Entry) : Prop :=
  heapq.priority eu = heapq.priority ea /\
  heapq.ident_of eu = heapq.ident_of ea /\
  heapq.node_of eu = forget (heapq.node_of ea) /\
  A.f (heapq.node_of ea) = A.g (heapq.node_of ea).

Definition state_match (su : U.State) (sa : A.State) : Prop :=
  Forall2 entry_match (U.frontier su) (A.frontier sa) /\
  A.explored sa = list_to_set (U.explored su).*1 /\
  U.peak su = A.peak sa /\
  U.expanded su = A.expanded sa /\
  U.allocated su = A.allocated sa.

Section Matching.
Context {Node1 State1 Node2 State2 : Type}.
Variable same_node : Node1 -> Node2 -> Prop.

(** [R] relates the states the two loops go on with, [Q] the states
    they end in. *)
Definition step_match (R Q : State1 -> State2 -> Prop)
    (a : option (Step Node1 State1)) (b : option (Step Node2 State2)) : Prop :=
  match a, b with
  | None, None => True
  | Some (Continue s1), Some (Continue s2) => R s1 s2
  | Some (Return n1 s1), Some (Return n2 s2) => same_node n1 n2 /\ Q s1 s2
  | Some (Break s1), Some (Break s2) => Q s1 s2
  | _, _ => False
  end.

Definition run_match (Q : State1 -> State2 -> Prop)
    (a : option (Outcome Node1 * State1)) (b : option (Outcome Node2 * State2)) : Prop :=
  match a, b with
  | None, None => True
  | Some (Found n1, s1), Some (Found n2, s2) => same_node n1 n2 /\ Q s1 s2
  | Some (Exhausted, s1), Some (Exhausted, s2) => Q s1 s2
  | Some (Aborted, s1), Some (Aborted, s2) => Q s1 s2
  | _, _ => False
  end.
End Matching.

(** ** Comparing the two searches ([src/compare_search.py]) *)

Module compare_search.

(** The default of the [max_expansions] argument of both searches. *)
Definition DEFAULT_MAX_EXPANSIONS : Z := 10000.

(** The dictionary kept for one search of a trial has the keys of the
    statistics dictionary; its ["path_length"] is
    [len(path) if path else None]. *)
Definition phase (r : option (list Position) * Stats) : Stats :=
  {| nodes_expanded := nodes_expanded (snd r);
     path_length :=
       match fst r with
       | Some (c :: p) => Some (Z.of_nat (length (c :: p)))
       | _ => None
       end;
     frontier_peak := frontier_peak (snd r) |}.

(** [results["ucs"]] and [results["astar"]]. *)
Record Phases := {
  phase1 : Stats;
  phase2 : Stats
}.

Record Trial := {
  trial_id : Z;
  start : Position;
  pickup : Position;
  dropoff : Position;
  ucs : Phases;
  astar : Phases
}.

(** [run_comparison_trial].  [robot], [pickup] and [dropoff] are the
    positions in the observation [env.reset(randomize=True)] returns;
    [ident c] gives the node identities of the c-th of the four search
    calls.  [None] only if a search ran out of fuel. *)
Definition run_comparison_trial (ident : nat -> nat -> Z) (env : Env)
    (robot pickup dropoff : Position) (trial_id : Z) : option Trial :=
  ucs_1 ← U.uniformcost_search (ident 0%nat) env pickup DEFAULT_MAX_EXPANSIONS robot;
  astar_1 ← A.astar_search (ident 1%nat) env pickup A.manhattan_distance
              DEFAULT_MAX_EXPANSIONS robot;
  ucs_2 ← U.uniformcost_search (ident 2%nat) env dropoff DEFAULT_MAX_EXPANSIONS pickup;
  astar_2 ← A.astar_search (ident 3%nat) env dropoff A.manhattan_distance
              DEFAULT_MAX_EXPANSIONS pickup;
  Some {| trial_id := trial_id;
          start := robot;
          pickup := pickup;
          dropoff := dropoff;
          ucs := {| phase1 := phase ucs_1; phase2 := phase ucs_2 |};
          astar := {| phase1 := phase astar_1; phase2 := phase astar_2 |} |}.

(** A number as [statistics.mean] returns it for integer data: an
    [int], or the outcome of [float(q)] for the exact fraction [q], that
    is the double nearest to [q] (an [OverflowError] beyond the range of
    doubles).  The rounding is not carried out: a float is kept as the
    fraction in lowest terms that it is the rounding of. *)
Inductive Number :=
| Int (z : Z)
| Float_of (q : Q).

(** [statistics.mean] of integers: the exact mean [total / n] converted
    back, to [int] when its denominator is 1 and to [float] otherwise;
    [None] stands for the [StatisticsError] raised on empty data. *)
Definition mean (data : list Z) : option Number :=
  match data with
  | [] => None
  | _ =>
      let total := foldr Z.add 0 data in
      let n := Z.of_nat (length data) in
      if total mod n =? 0 then Some (Int (total / n))
      else Some (Float_of (Qred (Qmake total (Z.to_pos n))))
  end.

Record MethodSummary := {
  mean_nodes_expanded : Number;
  mean_path_length : option Number
}.

(** The summary dictionary, without the means of the elapsed times. *)
Record Summary := {
  ucs_summary : MethodSummary;
  astar_summary : MethodSummary;
  num_trials : Z;
  total_phases : Z
}.

(** The lists the double loop over trials and phases fills. *)
Definition nodes_of (method : Trial -> Phases) (trials : list Trial) : list Z :=
  flat_map (fun trial => [nodes_expanded (phase1 (method trial));
                          nodes_expanded (phase2 (method trial))]) trials.

Definition path_lens_of (method : Trial -> Phases) (trials : list Trial) : list Z :=
  flat_map (fun trial =>
              option_list (path_length (phase1 (method trial))) ++
              option_list (path_length (phase2 (method trial)))) trials.

(** [aggregate_results]; [None] when [statistics.mean] raises. *)
Definition aggregate_results (trials : list Trial) : option Summary :=
  let ucs_nodes := nodes_of ucs trials in
  let astar_nodes := nodes_of astar trials in
  let ucs_path_lens := path_lens_of ucs trials in
  let astar_path_lens := path_lens_of astar trials in
  ucs_mean ← mean ucs_nodes;
  ucs_len ← match ucs_path_lens with
            | [] => Some None
            | _ => Some <$> mean ucs_path_lens
            end;
  astar_mean ← mean astar_nodes;
  astar_len ← match astar_path_lens with
              | [] => Some None
              | _ => Some <$> mean astar_path_lens
              end;
  Some {| ucs_summary :=
            {| mean_nodes_expanded := ucs_mean; mean_path_length := ucs_len |};
          astar_summary :=
            {| mean_nodes_expanded := astar_mean; mean_path_length := astar_len |};
          num_trials := Z.of_nat (length trials);
          total_phases := Z.of_nat (length ucs_nodes) |}.
End compare_search.

(** ** The agents ([src/warehouse_agent_reflex.py], [src/warehouse_agent_greedy.py]) *)

(** The action strings an agent returns: one of the four moves, ["PICK"],
    ["DROP"] or ["WAIT"]. *)
Inductive Command :=
| Go (act : Action)
| PICK
| DROP
| WAIT.

(** The entries of the observation dictionary the agents read.
    [obs.get("pickup_pos")] and [obs.get("dropoff_pos")] may be [None]. *)
Record Observation := {
  robot_pos : Position;
  has_item : bool;
  pickup_pos : option Position;
  dropoff_pos : option Position
}.

(** [rng.choice(seq)] on a non-empty sequence is [seq[k]] for the index
    [k < len(seq)] the generator draws; [draw] stands for what the
    generator yields, taken modulo the length. *)
Definition choice {X : Type} (draw : nat) (first : X) (rest : list X) : X :=
  nth (draw mod Datatypes.S (length rest)) (first :: rest) first.

Module warehouse_agent_reflex.

(** [ReflexAgent._is_valid_move]. *)
Definition _is_valid_move (act : Action) (pos : Position) (env : Env) : bool :=
  let '(dr, dc) := MOVE_DELTAS env act in
  let nr := fst pos + dr in
  let nc := snd pos + dc in
  negb (_is_wall env nr nc).

(** [ReflexAgent._random_valid_move]. *)
Definition _random_valid_move (draw : nat) (pos : Position) (env : Env) : Command :=
  let valid := filter (fun act => _is_valid_move act pos env = true) ACTIONS in
  match valid with
  | [] => WAIT
  | first :: rest => Go (choice draw first rest)
  end.

(** [ReflexAgent.select_action]. *)
Definition select_action (draw : nat) (obs : Observation) (env : Env) : Command :=
  let pos := robot_pos obs in
  let pickup := pickup_pos obs in
  let dropoff := dropoff_pos obs in
  if negb (has_item obs) && bool_decide (pickup = Some pos) then PICK
  else if has_item obs && bool_decide (dropoff = Some pos) then DROP
  else
    let target := if has_item obs then dropoff else pickup in
    match target with
    | None => _random_valid_move draw pos env
    | Some (tr, tc) =>
        let '(r, c) := pos in
        let dr := tr - r in
        let dc := tc - c in
        let preferred :=
          if Z.abs dc <=? Z.abs dr
          then (if dr <? 0 then N else S)
          else (if 0 <? dc then E else W) in
        if _is_valid_move preferred pos env then Go preferred
        else
          let candidates :=
            filter (fun act =>
                      _is_valid_move act pos env = true /\
                      let '(dr2, dc2) := MOVE_DELTAS env act in
                      let nr := r + dr2 in
                      let nc := c + dc2 in
                      let d_after := Z.abs (nr - tr) + Z.abs (nc - tc) in
                      let d_before := Z.abs (r - tr) + Z.abs (c - tc) in
                      d_after < d_before) ACTIONS in
          match candidates with
          | first :: rest => Go (choice draw first rest)
          | [] => _random_valid_move draw pos env
          end
    end.
End warehouse_agent_reflex.

Module warehouse_agent_greedy.

(** The attributes of a [GreedyManhattanAgent] but its generator.
    [recent] is a [deque(maxlen=loop_history_size)], oldest first. *)
Record Agent := {
  loop_history_size : nat;
  recent : list Position;
  escape_steps : Z;
  escape_counter : Z
}.

(** [GreedyManhattanAgent.__init__]. *)
Definition init (loop_history_size : nat) (escape_steps : Z) : Agent :=
  {| loop_history_size := loop_history_size;
     recent := [];
     escape_steps := escape_steps;
     escape_counter := 0 |}.

(** [GreedyManhattanAgent.reset]. *)
Definition reset (agent : Agent) : Agent :=
  {| loop_history_size := loop_history_size agent;
     recent := [];
     escape_steps := escape_steps agent;
     escape_counter := 0 |}.

(** [deque.append] on a deque of bounded length: the oldest entries
    give way. *)
Definition deque_append (maxlen : nat) (d : list Position) (x : Position)
  : list Position :=
  drop (length (d ++ [x]) - maxlen) (d ++ [x]).

(** [GreedyManhattanAgent._random_valid_move]. *)
Definition _random_valid_move (draw : nat) (pos : Position) (env : Env) : Command :=
  let valid :=
    filter (fun act =>
              let '(dr, dc) := MOVE_DELTAS env act in
              let nr := fst pos + dr in
              let nc := snd pos + dc in
              _is_wall env nr nc = false) ACTIONS in
  match valid with
  | [] => WAIT
  | first :: rest => Go (choice draw first rest)
  end.

(** One pass of the loop that collects the moves bringing the robot
    closest to the target; [select_action] has this loop four times. *)
Definition scan_step (env : Env) (pos target : Position)
    (acc : list Action * Z) (act : Action) : list Action * Z :=
  let '(best, best_d) := acc in
  let '(dr, dc) := MOVE_DELTAS env act in
  let nr := fst pos + dr in
  let nc := snd pos + dc in
  if _is_wall env nr nc then acc
  else
    let d := Z.abs (nr - fst target) + Z.abs (nc - snd target) in
    if d <? best_d then ([act], d)
    else if (d =? best_d) && negb (bool_decide (best = [])) then (best ++ [act], best_d)
    else acc.

Definition scan (env : Env) (pos target : Position) : list Action :=
  let curr := Z.abs (fst pos - fst target) + Z.abs (snd pos - snd target) in
  fst (fold_left (scan_step env pos target) ACTIONS ([], curr)).

(** The loop followed by [if best: return self.rng.choice(best)] and the
    fall-back [return self._random_valid_move(pos, env)]. *)
Definition toward (draw : nat) (env : Env) (pos : Position)
    (target : option Position) : Command :=
  match target with
  | None => _random_valid_move draw pos env
  | Some t =>
      match scan env pos t with
      | first :: rest => Go (choice draw first rest)
      | [] => _random_valid_move draw pos env
      end
  end.

(** [GreedyManhattanAgent.select_action]: the action and the agent
    afterwards. *)
Definition select_action (draw : nat) (obs : Observation) (env : Env)
    (agent : Agent) : Command * Agent :=
  let pos := robot_pos obs in
  let pickup := pickup_pos obs in
  let dropoff := dropoff_pos obs in
  if negb (has_item obs) && bool_decide (pickup = Some pos) then (PICK, agent)
  else if has_item obs && bool_decide (dropoff = Some pos) then (DROP, agent)
  else if negb (has_item obs) && bool_decide (dropoff = Some pos) then
    (toward draw env pos pickup, agent)
  else if 0 <? escape_counter agent then
    let agent' :=
      {| loop_history_size := loop_history_size agent;
         recent := recent agent;
         escape_steps := escape_steps agent;
         escape_counter := escape_counter agent - 1 |} in
    let target := if negb (has_item obs) then pickup else dropoff in
    (toward draw env pos target, agent')
  else if bool_decide (pos ∈ recent agent) then
    let agent' :=
      {| loop_history_size := loop_history_size agent;
         recent := recent agent;
         escape_steps := escape_steps agent;
         escape_counter := escape_steps agent |} in
    let goal_escape := if negb (has_item obs) then pickup else dropoff in
    (toward draw env pos goal_escape, agent')
  else
    let agent' :=
      {| loop_history_size := loop_history_size agent;
         recent := deque_append (loop_history_size agent) (recent agent) pos;
         escape_steps := escape_steps agent;
         escape_counter := escape_counter agent |} in
    let goal := if has_item obs then dropoff else pickup in
    (toward draw env pos goal, agent').
End warehouse_agent_greedy.

(** ** Rack layouts: [rack_layout.py] and the crossover of
    [genetic_algorithm.py] *)

Module rack_layout.

(** [manhattan(a, b)]. *)
Definition manhattan (a b : Position) : Z :=
  Z.abs (fst a - fst b) + Z.abs (snd a - snd b).

(** The attributes of a [RackLayout]. *)
Record RackLayout := {
  positions : list Position;
  grid_size : Z;
  depot : Position
}.

(** [RackLayout.copy]. *)
Definition copy (self : RackLayout) : RackLayout :=
  {| positions := positions self;
     grid_size := grid_size self;
     depot := depot self |}.

(** The four steps [neighbors] tries for each rack, in its order. *)
Definition STEPS : list (Z * Z) := [(-1, 0); (1, 0); (0, -1); (0, 1)].

(** [RackLayout.neighbors]: the two nested loops, each candidate either
    skipped ([continue]) or appended. *)
Definition neighbors (self : RackLayout) : list RackLayout :=
  flat_map (fun '(i, (x, y)) =>
    flat_map (fun '(dx, dy) =>
      let nx := x + dx in
      let ny := y + dy in
      if negb ((0 <=? nx) && (nx <? grid_size self) &&
               (0 <=? ny) && (ny <? grid_size self)) then []
      else if bool_decide ((nx, ny) ∈ positions self) then []
      else [{| positions := <[i := (nx, ny)]> (positions self);
               grid_size := grid_size self;
               depot := depot self |}])
      STEPS)
    (imap pair (positions self)).

(** [[(x, y) for x in range(grid_size) for y in range(grid_size)]]. *)
Definition all_cells (self : RackLayout) : list Position :=
  flat_map (fun x => map (fun y => (x, y)) (seqZ 0 (grid_size self)))
    (seqZ 0 (grid_size self)).

(** [list.remove(x)]: the first occurrence of [x] goes. *)
Fixpoint remove_first (x : Position) (l : list Position) : list Position :=
  match l with
  | [] => []
  | y :: l' => if decide (y = x) then l' else y :: remove_first x l'
  end.

(** [random.sample(population, k)]: [k] elements from pairwise distinct
    places of the population, in the order they are picked; [None]
    stands for the [ValueError] raised when [k] exceeds the length of the
    population.  [draws] is what the generator yields: each draw, taken
    modulo the number of elements left, picks one of them. *)
Fixpoint sample {X : Type} (draws : list nat) (population : list X) (k : nat)
  : option (list X) :=
  match k with
  | O => Some []
  | Datatypes.S k' =>
      match population with
      | [] => None
      | x :: _ =>
          let i := (hd O draws mod length population)%nat in
          chosen ← sample (tl draws) (delete i population) k';
          Some (nth i population x :: chosen)
      end
  end.

(** [RackLayout.random_positions]: 20 cells of the grid other than the
    depot. *)
Definition random_positions (draws : list nat) (self : RackLayout)
  : option (list Position) :=
  let cells := all_cells self in
  let cells :=
    if bool_decide (depot self ∈ cells) then remove_first (depot self) cells
    else cells in
  sample draws cells 20.

(** [RackLayout.mutate].  [draw_i] is what [random.randrange] draws and
    [draw_c] what [random.choice] draws; [random.randrange(0)] raises
    [ValueError], which is [None] here. *)
Definition mutate (draw_i draw_c : nat) (self : RackLayout) : option RackLayout :=
  let occupied : gset Position := list_to_set (positions self) in
  let choices :=
    filter (fun c => (c ∉ occupied) /\ c <> depot self) (all_cells self) in
  match choices with
  | [] => Some (copy self)
  | c :: cs =>
      match positions self with
      | [] => None
      | _ :: _ =>
          let i := (draw_i mod length (positions self))%nat in
          Some {| positions := <[i := choice draw_c c cs]> (positions self);
                  grid_size := grid_size self;
                  depot := depot self |}
      end
  end.

End rack_layout.

Module genetic_algorithm.
Import rack_layout.

(** [crossover(parent1, parent2)].  [draws] is what the generator
    yields to [parent1.random_positions()] when the lengths differ;
    [None] when that call raises [ValueError]. *)
Definition crossover (draws : list nat) (parent1 parent2 : RackLayout)
  : option RackLayout :=
  let n := length (positions parent1) in
  let cut := (n / 2)%nat in
  let p1_prefix := take cut (positions parent1) in
  let p2_rest := filter (fun p => p ∉ p1_prefix) (positions parent2) in
  let child_positions := p1_prefix ++ p2_rest in
  child_positions ←
    (if bool_decide (length child_positions <> n) then random_positions draws parent1
     else Some child_positions);
  Some {| positions := child_positions;
          grid_size := grid_size parent1;
          depot := depot parent1 |}.

End genetic_algorithm.

(** * Proofs *)

(** ** The frontier *)

Section HeapFacts.
Context {Node : Type} (node_lt : Node -> Node -> bool).
Implicit Types (x y m e : @heapq.Entry Node) (l F : list (@heapq.Entry Node)).

Lemma entry_lt_true x y :
  heapq.entry_lt node_lt x y = true -> heapq.priority x <= heapq.priority y.
Proof.
  unfold heapq.entry_lt.
  destruct (Z.ltb_spec (heapq.priority x) (heapq.priority y)); [lia|].
  destruct (Z.ltb_spec (heapq.priority y) (heapq.priority x)); [discriminate|lia].
Qed.

Lemma entry_lt_false x y :
  heapq.entry_lt node_lt x y = false -> heapq.priority y <= heapq.priority x.
Proof.
  unfold heapq.entry_lt.
  destruct (Z.ltb_spec (heapq.priority x) (heapq.priority y)); [discriminate|lia].
Qed.

Lemma extract_min_perm x l m rest :
  heapq.extract_min node_lt x l = (m, rest) -> x :: l ≡ₚ m :: rest.
Proof.
  revert x m rest. induction l as [|y l IH]; intros x m rest; simpl.
  - intros [= <- <-]. reflexivity.
  - destruct (heapq.extract_min node_lt y l) as [m' r'] eqn:Hm.
    specialize (IH _ _ _ Hm).
    destruct (heapq.entry_lt node_lt m' x).
    + intros [= <- <-]. rewrite IH. apply Permutation_swap.
    + intros [= <- <-]. reflexivity.
Qed.

Lemma extract_min_least x l m rest :
  heapq.extract_min node_lt x l = (m, rest) ->
  forall e, e ∈ rest -> heapq.priority m <= heapq.priority e.
Proof.
  revert x m rest. induction l as [|y l IH]; intros x m rest; simpl.
  - intros [= <- <-] e He. inversion He.
  - destruct (heapq.extract_min node_lt y l) as [m' r'] eqn:Hm.
    pose proof (IH _ _ _ Hm) as Hleast.
    pose proof (extract_min_perm _ _ _ _ Hm) as Hperm.
    destruct (heapq.entry_lt node_lt m' x) eqn:Hlt.
    + intros [= <- <-] e He.
      apply elem_of_cons in He as [->|He]; [by apply entry_lt_true|by apply Hleast].
    + intros [= <- <-] e He. apply entry_lt_false in Hlt.
      rewrite Hperm in He.
      apply elem_of_cons in He as [->|He]; [done|].
      specialize (Hleast _ He). lia.
Qed.

Lemma heappop_None F : heapq.heappop node_lt F = None <-> F = [].
Proof. destruct F; simpl; split; congruence. Qed.

Lemma heappop_perm F e F' :
  heapq.heappop node_lt F = Some (e, F') -> F ≡ₚ e :: F'.
Proof.
  destruct F as [|x l]; simpl; [discriminate|].
  intros [= H]. by apply extract_min_perm.
Qed.

Lemma heappop_least F e F' :
  heapq.heappop node_lt F = Some (e, F') ->
  forall e', e' ∈ F' -> heapq.priority e <= heapq.priority e'.
Proof.
  destruct F as [|x l]; simpl; [discriminate|].
  intros [= H]. by eapply extract_min_least.
Qed.

Lemma heappop_elem_of F e F' :
  heapq.heappop node_lt F = Some (e, F') ->
  forall e', e' ∈ F <-> e' = e \/ e' ∈ F'.
Proof.
  intros H e'. rewrite (heappop_perm _ _ _ H). apply elem_of_cons.
Qed.

Lemma heappop_least_all F e F' :
  heapq.heappop node_lt F = Some (e, F') ->
  forall e', e' ∈ F -> heapq.priority e <= heapq.priority e'.
Proof.
  intros H e' He'. apply (heappop_elem_of _ _ _ H) in He' as [->|He']; [lia|].
  by eapply heappop_least.
Qed.

Lemma heappop_length F e F' :
  heapq.heappop node_lt F = Some (e, F') -> length F = Datatypes.S (length F').
Proof. intros H. by rewrite (heappop_perm _ _ _ H). Qed.

Lemma heappush_elem_of F x e :
  e ∈ heapq.heappush F x <-> e ∈ F \/ e = x.
Proof.
  unfold heapq.heappush. rewrite elem_of_app, list_elem_of_singleton. tauto.
Qed.
End HeapFacts.

(** ** The loop *)

Section LoopFacts.
Context {Node State : Type}.
Variable iteration : State -> option (Step Node State).

Lemma while_loop_fuel_mono fuel fuel' st r :
  while_loop iteration fuel st = Some r ->
  (fuel <= fuel')%nat ->
  while_loop iteration fuel' st = Some r.
Proof.
  revert fuel' st. induction fuel as [|fuel IH]; intros fuel' st; simpl; [discriminate|].
  intros H Hle. destruct fuel' as [|fuel']; [lia|]. simpl.
  destruct (iteration st) as [[st'|node st'|st']|]; try done.
  apply IH; [done|lia].
Qed.

(** A loop whose passes lower a measure ends within that many passes. *)
Lemma while_loop_terminates (mu : State -> nat) :
  (forall st st', iteration st = Some (Continue st') -> (mu st' < mu st)%nat) ->
  forall fuel st, (mu st < fuel)%nat -> is_Some (while_loop iteration fuel st).
Proof.
  intros Hdec. induction fuel as [|fuel IH]; intros st Hlt; [lia|]. simpl.
  destruct (iteration st) as [[st'|node st'|st']|] eqn:Hit; try by eexists.
  apply IH. specialize (Hdec _ _ Hit). lia.
Qed.

(** The rule for reasoning about a finished loop from an invariant. *)
Lemma while_loop_post (P : State -> Prop) (Q : Outcome Node -> State -> Prop) :
  (forall st, P st -> iteration st = None -> Q Exhausted st) ->
  (forall st st', P st -> iteration st = Some (Continue st') -> P st') ->
  (forall st node st', P st -> iteration st = Some (Return node st') -> Q (Found node) st') ->
  (forall st st', P st -> iteration st = Some (Break st') -> Q Aborted st') ->
  forall fuel st out st',
    P st -> while_loop iteration fuel st = Some (out, st') -> Q out st'.
Proof.
  intros Hnone Hcont Hret Hbrk.
  induction fuel as [|fuel IH]; intros st out st' HP; simpl; [discriminate|].
  destruct (iteration st) as [[st1|node st1|st1]|] eqn:Hit.
  - apply IH. by eapply Hcont.
  - intros [= <- <-]. by eapply Hret.
  - intros [= <- <-]. by eapply Hbrk.
  - intros [= <- <-]. by apply Hnone.
Qed.
End LoopFacts.

(** ** Dictionaries *)

Lemma dict_get_None (d : Dict) k : dict_get d k = None <-> k ∉ d.*1.
Proof.
  induction d as [|[k' v] d IH]; simpl.
  - split; [intros _ H; inversion H|done].
  - rewrite not_elem_of_cons. destruct (decide (k' = k)) as [->|Hne].
    + split; [discriminate|intros [? _]; congruence].
    + rewrite IH. split; [intros; split; [congruence|done]|tauto].
Qed.

Lemma dict_get_Some (d : Dict) k v : dict_get d k = Some v -> (k, v) ∈ d.
Proof.
  induction d as [|[k' v'] d IH]; simpl; [discriminate|].
  destruct (decide (k' = k)) as [->|Hne].
  - intros [= ->]. left.
  - intros H. right. by apply IH.
Qed.

Lemma dict_set_fresh (d : Dict) k v : k ∉ d.*1 -> dict_set d k v = d ++ [(k, v)].
Proof.
  induction d as [|[k' v'] d IH]; simpl; [done|].
  rewrite not_elem_of_cons. intros [Hne Hnin].
  destruct (decide (k' = k)); [congruence|]. by rewrite IH.
Qed.

(** ** The invariant is kept by every pass *)

Section InvariantFacts.
Context {Node : Type} (node_lt : Node -> Node -> bool).
Variable env : Env.
Variable start goal : Position.
Variable hf : Position -> Z.
Variable npos : Node -> Position.
Variable ng : Node -> Z.
Hypothesis hf_consistent : consistent env hf.

Local Abbreviation Inv := (Inv env start goal hf npos ng).
Local Abbreviation Closed := (Closed env start npos ng).
Local Abbreviation entry_ok := (entry_ok env start hf npos ng).
Local Abbreviation child_entry := (child_entry env hf npos ng).
Local Abbreviation covers := (covers env npos ng).
Local Abbreviation reach := (reach env start).
Local Notation "'pos_of' e" := (npos (heapq.node_of e)) (at level 10, e at level 9).
Local Notation "'g_of' e" := (ng (heapq.node_of e)) (at level 10, e at level 9).

Implicit Types (e : @heapq.Entry Node) (F added : list (@heapq.Entry Node)).
Implicit Types (fin : Dict) (p : Position).

Lemma reach_nonneg k p : reach k p -> 0 <= k.
Proof. induction 1; lia. Qed.

Lemma elem_of_keys fin p : p ∈ fin.*1 <-> exists c, (p, c) ∈ fin.
Proof.
  rewrite list_elem_of_fmap. split.
  - intros [[p' c] [-> H]]. by exists c.
  - intros [c H]. by exists (p, c).
Qed.

(** The heart of the optimality argument: a cell that [k] moves reach is
    finalized, or some frontier entry has priority [k + hf] at most. *)
Lemma frontier_covers F fin k p :
  Inv F fin -> Closed F fin -> reach k p ->
  p ∈ fin.*1 \/ exists e, e ∈ F /\ heapq.priority e <= k + hf p.
Proof using hf_consistent.
  intros HI HC Hr. induction Hr as [|k p act Hr IH Hwall].
  - destruct (closed_start _ _ _ _ _ _ HC) as [?|(e & He & Hp & Hg)]; [by left|].
    right. exists e. split; [done|].
    destruct (inv_entries _ _ _ _ _ _ _ _ HI e He) as [_ ->]. rewrite Hp, Hg. lia.
  - destruct IH as [Hin|(e & He & Hle)].
    + apply elem_of_keys in Hin as [c Hc].
      destruct (inv_optimal _ _ _ _ _ _ _ _ HI p c Hc) as [_ Hopt].
      specialize (Hopt _ Hr).
      destruct (closed_move _ _ _ _ _ _ HC p c act Hc Hwall)
        as [?|(e & He & Hp & Hg)]; [by left|].
      right. exists e. split; [done|].
      destruct (inv_entries _ _ _ _ _ _ _ _ HI e He) as [_ ->]. rewrite Hp. lia.
    + right. exists e. split; [done|].
      specialize (hf_consistent p act Hwall). lia.
Qed.

(** The entry popped for a cell not finalized yet carries the cell's
    least cost. *)
Lemma pop_optimal F fin e F' k :
  Inv F fin -> Closed F fin ->
  heapq.heappop node_lt F = Some (e, F') ->
  pos_of e ∉ fin.*1 ->
  reach k (pos_of e) -> g_of e <= k.
Proof using hf_consistent.
  intros HI HC Hpop Hfresh Hr.
  destruct (frontier_covers _ _ _ _ HI HC Hr) as [?|(e' & He' & Hle)]; [done|].
  pose proof (heappop_least_all _ _ _ _ Hpop e' He') as Hmin.
  assert (e ∈ F) as He by (apply (heappop_elem_of _ _ _ _ Hpop); by left).
  destruct (inv_entries _ _ _ _ _ _ _ _ HI e He) as [_ Hpri]. lia.
Qed.

(** Cells that fewer moves reach than the popped priority allows are
    finalized already. *)
Lemma pop_finalized_below F fin e F' k p :
  Inv F fin -> Closed F fin ->
  heapq.heappop node_lt F = Some (e, F') ->
  reach k p -> k + hf p < heapq.priority e ->
  p ∈ fin.*1.
Proof using hf_consistent.
  intros HI HC Hpop Hr Hlt.
  destruct (frontier_covers _ _ _ _ HI HC Hr) as [?|(e' & He' & Hle)]; [done|].
  pose proof (heappop_least_all _ _ _ _ Hpop e' He'). lia.
Qed.

Lemma Inv_subset F F' fin :
  Inv F fin -> (forall e, e ∈ F' -> e ∈ F) -> Inv F' fin.
Proof.
  intros [H1 H2 H3 H4 H5 H6] Hsub. split; auto.
Qed.

Lemma Inv_pop F fin e F' :
  Inv F fin -> heapq.heappop node_lt F = Some (e, F') -> Inv F' fin.
Proof.
  intros HI Hpop. apply (Inv_subset _ _ _ HI).
  intros e' He'. apply (heappop_elem_of _ _ _ _ Hpop). by right.
Qed.

Lemma Closed_discard F fin e F' :
  Closed F fin ->
  heapq.heappop node_lt F = Some (e, F') ->
  pos_of e ∈ fin.*1 ->
  Closed F' fin.
Proof.
  intros [Hs Hm] Hpop Hin. split.
  - destruct Hs as [?|(e0 & He0 & Hp & Hg)]; [by left|].
    apply (heappop_elem_of _ _ _ _ Hpop) in He0 as [->|He0].
    + left. by rewrite <- Hp.
    + right. by exists e0.
  - intros p c act Hc Hwall.
    destruct (Hm p c act Hc Hwall) as [?|(e0 & He0 & Hp & Hg)]; [by left|].
    apply (heappop_elem_of _ _ _ _ Hpop) in He0 as [->|He0].
    + left. by rewrite <- Hp.
    + right. by exists e0.
Qed.

Lemma StronglySorted_snoc {A} (R : A -> A -> Prop) (l : list A) x :
  StronglySorted R l -> (forall y, y ∈ l -> R y x) -> StronglySorted R (l ++ [x]).
Proof.
  induction 1 as [|a l Hl IH Ha]; intros Hx; simpl.
  - repeat constructor.
  - constructor.
    + apply IH. intros y Hy. apply Hx. by right.
    + rewrite Forall_app. split; [done|].
      constructor; [|constructor]. apply Hx. left.
Qed.

(** Finalizing the popped cell. *)
Lemma Inv_finalize F fin e F' :
  Inv F fin -> Closed F fin ->
  heapq.heappop node_lt F = Some (e, F') ->
  pos_of e ∉ fin.*1 ->
  pos_of e <> goal ->
  Inv F' (fin ++ [(pos_of e, g_of e)]).
Proof using hf_consistent.
  intros HI HC Hpop Hfresh Hgoal.
  assert (e ∈ F) as He by (apply (heappop_elem_of _ _ _ _ Hpop); by left).
  pose proof (inv_entries _ _ _ _ _ _ _ _ HI e He) as [Hreach Hpri].
  pose proof (Inv_pop _ _ _ _ HI Hpop) as [H1 H2 H3 H4 H5 H6].
  split.
  - done.
  - intros p c Hin. apply elem_of_app in Hin as [Hin|Hin]; [by apply H2|].
    apply list_elem_of_singleton in Hin as [= -> ->]. split; [done|].
    intros k Hk. by eapply pop_optimal.
  - rewrite fmap_app. simpl. apply NoDup_app. split; [done|].
    split; [|apply NoDup_singleton].
    intros p Hp Hp'. apply list_elem_of_singleton in Hp' as ->. done.
  - rewrite fmap_app. simpl. rewrite elem_of_app, list_elem_of_singleton.
    intros [?|?]; [done|congruence].
  - intros kv e' Hin He'. apply elem_of_app in Hin as [Hin|Hin]; [by apply H5|].
    apply list_elem_of_singleton in Hin as ->. unfold fkey. simpl.
    rewrite <- Hpri. by eapply heappop_least.
  - apply StronglySorted_snoc; [done|].
    intros kv Hkv. unfold fkey at 2. simpl. rewrite <- Hpri.
    by apply (inv_below _ _ _ _ _ _ _ _ HI).
Qed.

(** Pushing the children of the cell just finalized. *)
Lemma Inv_expand F fin e F' added :
  Inv F fin -> Closed F fin ->
  heapq.heappop node_lt F = Some (e, F') ->
  pos_of e ∉ fin.*1 ->
  pos_of e <> goal ->
  Forall (child_entry (heapq.node_of e)) added ->
  Inv (F' ++ added) (fin ++ [(pos_of e, g_of e)]).
Proof using hf_consistent.
  intros HI HC Hpop Hfresh Hgoal Hadd.
  assert (e ∈ F) as He by (apply (heappop_elem_of _ _ _ _ Hpop); by left).
  pose proof (inv_entries _ _ _ _ _ _ _ _ HI e He) as [Hreach Hpri].
  pose proof (Inv_finalize _ _ _ _ HI HC Hpop Hfresh Hgoal) as [H1 H2 H3 H4 H5 H6].
  rewrite Forall_forall in Hadd.
  split; try done.
  - intros e' He'. apply elem_of_app in He' as [He'|He']; [by apply H1|].
    destruct (Hadd _ He') as (act & Hp & Hwall & Hg & Hpr). split.
    + rewrite Hp, Hg. by constructor.
    + rewrite Hpr, Hg, Hp. done.
  - intros kv e' Hin He'. apply elem_of_app in He' as [He'|He']; [by apply H5|].
    destruct (Hadd _ He') as (act & Hp & Hwall & Hg & Hpr).
    assert (fkey hf kv <= heapq.priority e) as Hle.
    { apply elem_of_app in Hin as [Hin|Hin].
      - by apply (inv_below _ _ _ _ _ _ _ _ HI).
      - apply list_elem_of_singleton in Hin as ->. unfold fkey. simpl. lia. }
    specialize (hf_consistent _ act Hwall). lia.
Qed.

Lemma Closed_expand F fin e F' added :
  Closed F fin ->
  heapq.heappop node_lt F = Some (e, F') ->
  covers (heapq.node_of e) (fin ++ [(pos_of e, g_of e)]) added ->
  Closed (F' ++ added) (fin ++ [(pos_of e, g_of e)]).
Proof.
  intros [Hs Hm] Hpop Hcov.
  assert (forall e0, e0 ∈ F ->
            pos_of e0 ∈ (fin ++ [(pos_of e, g_of e)]).*1 \/ e0 ∈ F' ++ added) as Hkeep.
  { intros e0 He0. apply (heappop_elem_of _ _ _ _ Hpop) in He0 as [->|He0].
    - left. rewrite fmap_app, elem_of_app. right. simpl. left.
    - right. apply elem_of_app. by left. }
  split.
  - destruct Hs as [?|(e0 & He0 & Hp & Hg)].
    + left. rewrite fmap_app, elem_of_app. by left.
    + destruct (Hkeep _ He0) as [?|?]; [left; by rewrite <- Hp|right; by exists e0].
  - intros p c act Hc Hwall. apply elem_of_app in Hc as [Hc|Hc].
    + destruct (Hm p c act Hc Hwall) as [?|(e0 & He0 & Hp & Hg)].
      * left. rewrite fmap_app, elem_of_app. by left.
      * destruct (Hkeep _ He0) as [?|?]; [left; by rewrite <- Hp|right; by exists e0].
    + apply list_elem_of_singleton in Hc as [= -> ->].
      destruct (Hcov act Hwall) as [?|(e0 & He0 & Hp & Hg)]; [by left|].
      right. exists e0. split; [apply elem_of_app; by right|]. split; [done|lia].
Qed.

(** With an empty frontier, the finalized cells are the reachable ones. *)
Lemma exhausted_reachable fin p :
  Inv [] fin -> Closed [] fin -> (reachable env start p <-> p ∈ fin.*1).
Proof using hf_consistent.
  intros HI HC. split.
  - intros [k Hr].
    destruct (frontier_covers _ _ _ _ HI HC Hr) as [?|(e & He & _)]; [done|].
    inversion He.
  - intros Hin. apply elem_of_keys in Hin as [c Hc].
    exists c. by apply (inv_optimal _ _ _ _ _ _ _ _ HI).
Qed.
End InvariantFacts.

(** ** Uniform cost search *)

Section UcsFacts.
Variable ident : nat -> Z.
Variable env : Env.
Variable goal : Position.
Variable max_expansions : Z.
Variable start : Position.

Local Abbreviation iteration := (U.iteration ident env goal max_expansions).
Local Abbreviation visit := (U.visit ident env).
Local Abbreviation wf := (ucs_wf env start).
Local Abbreviation child_entry := (child_entry env (fun _ => 0) U.position U.g).
Local Abbreviation covers := (covers env U.position U.g).
Local Notation "'stale' st node" :=
  (match dict_get (U.explored st) (U.position node) with
   | Some v => v <=? U.g node
   | None => false
   end) (at level 10, st at level 9, node at level 9).

Lemma ucs_visit_eq explored node acc act :
  visit explored node acc act =
  let child_pos := move env (U.position node) act in
  if wall_at env child_pos then acc
  else if match dict_get explored child_pos with
          | None => true
          | Some v => U.g node + 1 <? v
          end
       then (heapq.heappush acc.1
               (U.g node + 1, ident acc.2,
                U.mkNode child_pos (Some node) (Some act) (U.g node + 1)),
             Datatypes.S acc.2)
       else acc.
Proof.
  unfold U.visit, move, wall_at.
  destruct (U.position node) as [r c], (MOVE_DELTAS env act) as [dr dc].
  reflexivity.
Qed.

(** What the [for] loop over the four actions adds to the frontier. *)
Lemma ucs_visit_fold explored node acts fr k fr' k' :
  fold_left (visit explored node) acts (fr, k) = (fr', k') ->
  exists added,
    fr' = fr ++ added /\
    (length added <= length acts)%nat /\
    Forall (child_entry node) added /\
    (wf node -> Forall (fun e => wf (heapq.node_of e)) added) /\
    forall act, act ∈ acts ->
      wall_at env (move env (U.position node) act) = false ->
      move env (U.position node) act ∈ explored.*1 \/
      exists e, e ∈ added /\
        U.position (heapq.node_of e) = move env (U.position node) act /\
        U.g (heapq.node_of e) = U.g node + 1.
Proof.
  revert fr k. induction acts as [|a acts IH]; intros fr k; simpl.
  - intros [= <- <-]. exists []. rewrite app_nil_r.
    repeat split; auto. intros act Hact. inversion Hact.
  - destruct (visit explored node (fr, k) a) as [fr1 k1] eqn:Hv.
    intros H. destruct (IH _ _ H) as (added & -> & Hlen & Hch & Hwf & Hcov).
    rewrite ucs_visit_eq in Hv. simpl in Hv.
    destruct (wall_at env (move env (U.position node) a)) eqn:Hwall.
    { injection Hv as <- <-. exists added.
      split; [done|]. split; [lia|]. split; [done|]. split; [done|].
      intros act Hact Hw. apply elem_of_cons in Hact as [->|Hact]; [congruence|auto]. }
    destruct (dict_get explored (move env (U.position node) a)) as [v|] eqn:Hget.
    + destruct (U.g node + 1 <? v).
      * injection Hv as <- <-. eexists (_ :: added).
        split; [unfold heapq.heappush; by rewrite <- app_assoc|]. split; [simpl; lia|].
        split; [constructor; [exists a; split_and!; try done; unfold heapq.priority; simpl; lia|done]|].
        split; [intros Hn; constructor; [simpl; eauto 10|auto]|].
        intros act Hact Hw. apply elem_of_cons in Hact as [->|Hact].
        -- right. eexists. split; [left|]. done.
        -- destruct (Hcov act Hact Hw) as [?|(e & He & ?)]; [by left|].
           right. exists e. split; [by right|done].
      * injection Hv as <- <-. exists added.
      split; [done|]. split; [lia|]. split; [done|]. split; [done|].
        intros act Hact Hw. apply elem_of_cons in Hact as [->|Hact]; [|auto].
        left. apply dict_get_Some in Hget.
        apply list_elem_of_fmap. by exists (move env (U.position node) a, v).
    + injection Hv as <- <-. eexists (_ :: added).
      split; [unfold heapq.heappush; by rewrite <- app_assoc|]. split; [simpl; lia|].
      split; [constructor; [exists a; split_and!; try done; unfold heapq.priority; simpl; lia|done]|].
      split; [intros Hn; constructor; [simpl; eauto 10|auto]|].
      intros act Hact Hw. apply elem_of_cons in Hact as [->|Hact].
      * right. eexists. split; [left|]. done.
      * destruct (Hcov act Hact Hw) as [?|(e & He & ?)]; [by left|].
        right. exists e. split; [by right|done].
Qed.

(** The passes of the loop body, case by case. *)
Lemma ucs_iteration_cases st :
  match iteration st with
  | None => U.frontier st = []
  | Some s =>
      exists e fr,
        heapq.heappop U.node_lt (U.frontier st) = Some (e, fr) /\
        let node := heapq.node_of e in
        match s with
        | Return n st' =>
            n = node /\ U.position node = goal /\
            st' = U.mkState fr (U.explored st) (U.peak st) (U.expanded st) (U.allocated st)
        | Break st' =>
            U.position node <> goal /\ stale st node = false /\
            U.expanded st + 1 > max_expansions /\
            st' = U.mkState fr (dict_set (U.explored st) (U.position node) (U.g node))
                    (U.peak st) (U.expanded st + 1) (U.allocated st)
        | Continue st' =>
            U.position node <> goal /\
            (stale st node = true /\
             st' = U.mkState fr (U.explored st) (U.peak st) (U.expanded st) (U.allocated st)
             \/
             stale st node = false /\
             U.expanded st + 1 <= max_expansions /\
             exists fr' k,
               fold_left
                 (visit (dict_set (U.explored st) (U.position node) (U.g node)) node)
                 ACTIONS (fr, U.allocated st) = (fr', k) /\
               st' = U.mkState fr' (dict_set (U.explored st) (U.position node) (U.g node))
                       (Z.max (U.peak st) (Z.of_nat (length fr')))
                       (U.expanded st + 1) k)
        end
  end.
Proof.
  unfold U.iteration.
  destruct (heapq.heappop U.node_lt (U.frontier st)) as [[[[c i] n] fr]|] eqn:Hpop.
  2:{ by apply heappop_None in Hpop. }
  destruct (decide (U.position n = goal)) as [Hg|Hg].
  { exists (c, i, n), fr. simpl. auto. }
  destruct (stale st n) eqn:Hstale.
  { exists (c, i, n), fr. simpl. rewrite Hstale. auto. }
  destruct (Z.gtb_spec (U.expanded st + 1) max_expansions) as [Hcap|Hcap].
  { exists (c, i, n), fr. simpl. rewrite Hstale. repeat split; auto. lia. }
  destruct (fold_left _ ACTIONS (fr, U.allocated st)) as [fr' k] eqn:Hfold.
  exists (c, i, n), fr. simpl. rewrite Hstale.
  split; [done|]. split; [done|]. right. repeat split; auto. by exists fr', k.
Qed.

(** The loop ends: each pass lowers the budget. *)
Lemma ucs_budget_decreases st st' :
  iteration st = Some (Continue st') ->
  (U.budget max_expansions st' < U.budget max_expansions st)%nat.
Proof.
  intros Hit. pose proof (ucs_iteration_cases st) as H. rewrite Hit in H.
  destruct H as (e & fr & Hpop & Hgoal & [[_ ->]|(_ & Hcap & fr' & k & Hfold & ->)]);
    apply heappop_length in Hpop; unfold U.budget; simpl.
  - lia.
  - apply ucs_visit_fold in Hfold as (added & -> & Hlen & _).
    rewrite length_app. simpl in Hlen. lia.
Qed.

Lemma ucs_run_is_Some : is_Some (U.run ident env goal max_expansions start).
Proof.
  unfold U.run.
  apply (while_loop_terminates _ (U.budget max_expansions)); [|lia].
  apply ucs_budget_decreases.
Qed.

(** The count of expansions stays within one of the cap. *)
Lemma ucs_cap_post fuel out st :
  while_loop iteration fuel (U.initial ident start) = Some (out, st) ->
  U.expanded st <= Z.max 0 max_expansions + 1 /\
  (out = Aborted -> U.expanded st > max_expansions) /\
  (out <> Aborted -> U.expanded st <= Z.max 0 max_expansions).
Proof.
  apply (while_loop_post iteration
           (fun st => U.expanded st <= Z.max 0 max_expansions)
           (fun out st =>
              U.expanded st <= Z.max 0 max_expansions + 1 /\
              (out = Aborted -> U.expanded st > max_expansions) /\
              (out <> Aborted -> U.expanded st <= Z.max 0 max_expansions))).
  - intros s HP _. repeat split; [lia|discriminate|auto].
  - intros s s' HP Hit. pose proof (ucs_iteration_cases s) as H. rewrite Hit in H.
    destruct H as (e & fr & _ & _ & [[_ ->]|(_ & Hcap & fr' & k & _ & ->)]); simpl; lia.
  - intros s n s' HP Hit. pose proof (ucs_iteration_cases s) as H. rewrite Hit in H.
    destruct H as (e & fr & _ & _ & _ & ->). simpl. repeat split; [lia|discriminate|auto].
  - intros s s' HP Hit. pose proof (ucs_iteration_cases s) as H. rewrite Hit in H.
    destruct H as (e & fr & _ & _ & _ & Hcap & ->). simpl.
    repeat split; [lia|lia|congruence].
  - simpl. lia.
Qed.

(** A pass that breaks has just counted one expansion past the cap. *)
Lemma ucs_cap_exact fuel out st :
  while_loop iteration fuel (U.initial ident start) = Some (out, st) ->
  (out = Aborted -> U.expanded st = Z.max 0 max_expansions + 1) /\
  (out <> Aborted -> 0 <= U.expanded st <= Z.max 0 max_expansions).
Proof.
  apply (while_loop_post iteration
           (fun st => 0 <= U.expanded st <= Z.max 0 max_expansions)
           (fun out st =>
              (out = Aborted -> U.expanded st = Z.max 0 max_expansions + 1) /\
              (out <> Aborted -> 0 <= U.expanded st <= Z.max 0 max_expansions))).
  - intros s HP _. split; [discriminate|auto].
  - intros s s' HP Hit. pose proof (ucs_iteration_cases s) as H. rewrite Hit in H.
    destruct H as (e & fr & _ & _ & [[_ ->]|(_ & Hcap & fr' & k & _ & ->)]); simpl; lia.
  - intros s n s' HP Hit. pose proof (ucs_iteration_cases s) as H. rewrite Hit in H.
    destruct H as (e & fr & _ & _ & _ & ->). simpl. split; [discriminate|auto].
  - intros s s' HP Hit. pose proof (ucs_iteration_cases s) as H. rewrite Hit in H.
    destruct H as (e & fr & _ & _ & _ & Hcap & ->). simpl.
    split; [intros _; lia|congruence].
  - simpl. lia.
Qed.

Local Abbreviation Inv0 := (Inv env start goal (fun _ => 0) U.position U.g).
Local Abbreviation Closed0 := (Closed env start U.position U.g).

Lemma zero_consistent : consistent env (fun _ => 0).
Proof. intros p act _. lia. Qed.

Lemma ucs_wf_reach n : wf n -> reach env start (U.g n) (U.position n).
Proof.
  revert n. fix IH 1. intros [p [q|] a c]; simpl.
  - intros (Hq & act & _ & -> & Hwall & ->). constructor; [by apply IH|done].
  - intros (-> & _ & ->). constructor.
Qed.

Lemma ucs_initial_inv :
  ucs_inv env start goal (U.initial ident start) /\
  ucs_closed env start (U.initial ident start).
Proof.
  unfold ucs_inv, ucs_closed, U.initial, heapq.heappush. simpl.
  split; [split; [split|split]|split]; simpl.
  - intros e He. apply list_elem_of_singleton in He as ->.
    split; simpl; [constructor|done].
  - intros p c H. inversion H.
  - constructor.
  - intros H. inversion H.
  - intros kv e H. inversion H.
  - constructor.
  - by repeat constructor.
  - done.
  - right. eexists. split; [left|]. done.
  - intros p c act H. inversion H.
Qed.

Lemma ucs_not_stale st e fr :
  ucs_inv env start goal st ->
  heapq.heappop U.node_lt (U.frontier st) = Some (e, fr) ->
  stale st (heapq.node_of e) = false ->
  U.position (heapq.node_of e) ∉ (U.explored st).*1.
Proof.
  intros (HI & _ & _) Hpop Hstale.
  destruct (dict_get (U.explored st) (U.position (heapq.node_of e))) as [v|] eqn:Hget.
  - apply dict_get_Some in Hget.
    destruct (inv_optimal _ _ _ _ _ _ _ _ HI _ _ Hget) as [_ Hopt].
    assert (e ∈ U.frontier st) as He by (apply (heappop_elem_of _ _ _ _ Hpop); by left).
    destruct (inv_entries _ _ _ _ _ _ _ _ HI e He) as [Hreach _].
    specialize (Hopt _ Hreach). lia.
  - by apply dict_get_None.
Qed.

Lemma ucs_wf_pop st e fr :
  Forall (fun e => wf (heapq.node_of e)) (U.frontier st) ->
  heapq.heappop U.node_lt (U.frontier st) = Some (e, fr) ->
  wf (heapq.node_of e) /\ Forall (fun e => wf (heapq.node_of e)) fr.
Proof.
  intros Hwf Hpop. rewrite (heappop_perm _ _ _ _ Hpop) in Hwf.
  by apply Forall_cons in Hwf.
Qed.

Lemma ucs_inv_continue st st' :
  ucs_inv env start goal st /\ ucs_closed env start st ->
  iteration st = Some (Continue st') ->
  ucs_inv env start goal st' /\ ucs_closed env start st'.
Proof.
  intros [Hinv HC] Hit. pose proof Hinv as (HI & Hwf & Hcount).
  pose proof (ucs_iteration_cases st) as H. rewrite Hit in H.
  destruct H as (e & fr & Hpop & Hgoal & [[Hstale ->]|(Hstale & Hcap & fr' & k & Hfold & ->)]).
  - destruct (ucs_wf_pop _ _ _ Hwf Hpop) as [_ Hwf'].
    split; [split; [|split]|]; simpl; [by eapply Inv_pop|done|done|].
    eapply Closed_discard; [done..|].
    destruct (dict_get (U.explored st) (U.position (heapq.node_of e))) as [v|] eqn:Hget;
      [|done].
    apply dict_get_Some in Hget. apply list_elem_of_fmap. by eexists (_, _).
  - pose proof (ucs_not_stale _ _ _ Hinv Hpop Hstale) as Hfresh.
    rewrite (dict_set_fresh _ _ _ Hfresh) in *.
    destruct (ucs_wf_pop _ _ _ Hwf Hpop) as [Hwfe Hwf'].
    apply ucs_visit_fold in Hfold as (added & -> & _ & Hch & Hwfa & Hcov).
    split; [split; [|split]|]; simpl.
    + by apply (Inv_expand U.node_lt _ _ _ _ _ _ zero_consistent (U.frontier st)).
    + apply Forall_app. auto.
    + rewrite length_app. simpl. lia.
    + apply (Closed_expand U.node_lt _ _ _ _ (U.frontier st)); [done..|].
      intros act Hwall. apply Hcov; [|done].
      unfold ACTIONS. destruct act; repeat constructor.
Qed.

(** What holds when the loop of a call has ended. *)
Lemma ucs_loop_post fuel out st :
  while_loop iteration fuel (U.initial ident start) = Some (out, st) ->
  ucs_post env start goal out st.
Proof.
  apply (while_loop_post iteration
           (fun st => ucs_inv env start goal st /\ ucs_closed env start st)
           (ucs_post env start goal)).
  - intros s [HI HC] Hit. pose proof (ucs_iteration_cases s) as H.
    rewrite Hit in H. done.
  - apply ucs_inv_continue.
  - intros s n s' [(HI & Hwf & Hcount) HC] Hit.
    pose proof (ucs_iteration_cases s) as H. rewrite Hit in H.
    destruct H as (e & fr & Hpop & -> & Hgoal & ->). simpl.
    exists (U.frontier s), e.
    destruct (ucs_wf_pop _ _ _ Hwf Hpop) as [Hwfe _]. done.
  - intros s s' [Hinv HC] Hit. pose proof Hinv as (HI & Hwf & Hcount).
    pose proof (ucs_iteration_cases s) as H. rewrite Hit in H.
    destruct H as (e & fr & Hpop & Hgoal & Hstale & Hcap & ->). simpl.
    pose proof (ucs_not_stale _ _ _ Hinv Hpop Hstale) as Hfresh.
    rewrite (dict_set_fresh _ _ _ Hfresh).
    destruct (ucs_wf_pop _ _ _ Hwf Hpop) as [_ Hwf'].
    split; [|split]; simpl.
    + by apply (Inv_finalize U.node_lt _ _ _ _ _ _ zero_consistent (U.frontier s)).
    + done.
    + rewrite length_app. simpl. lia.
  - apply ucs_initial_inv.
Qed.
End UcsFacts.

(** ** A* search *)

Section AstarFacts.
Variable ident : nat -> Z.
Variable env : Env.
Variable goal : Position.
Variable heuristic : Position -> Position -> Z.
Variable max_expansions : Z.
Variable start : Position.
Hypothesis h_consistent : consistent env (fun p => heuristic p goal).

Local Abbreviation iteration := (A.iteration ident env goal heuristic max_expansions).
Local Abbreviation visit := (A.visit ident env goal heuristic).
Local Abbreviation wf := (astar_wf env start goal heuristic).
Local Abbreviation hf := (fun p => heuristic p goal).
Local Abbreviation child_entry := (child_entry env hf A.position A.g).
Local Abbreviation InvH := (Inv env start goal hf A.position A.g).
Local Abbreviation ClosedH := (Closed env start A.position A.g).

Lemma astar_visit_eq explored node acc act :
  visit explored node acc act =
  let child_pos := move env (A.position node) act in
  if wall_at env child_pos then acc
  else if decide (child_pos ∈ explored) then acc
       else
         let child :=
           A.Node_init child_pos (Some node) (Some act) (A.g node + 1)
             (heuristic child_pos goal) in
         (heapq.heappush acc.1 (A.f child, ident acc.2, child), Datatypes.S acc.2).
Proof.
  unfold A.visit, move, wall_at.
  destruct (A.position node) as [r c], (MOVE_DELTAS env act) as [dr dc].
  reflexivity.
Qed.

(** What the [for] loop over the four actions adds to the frontier. *)
Lemma astar_visit_fold explored node acts fr k fr' k' :
  fold_left (visit explored node) acts (fr, k) = (fr', k') ->
  exists added,
    fr' = fr ++ added /\
    (length added <= length acts)%nat /\
    Forall (child_entry node) added /\
    (wf node -> Forall (fun e => wf (heapq.node_of e)) added) /\
    forall act, act ∈ acts ->
      wall_at env (move env (A.position node) act) = false ->
      move env (A.position node) act ∈ explored \/
      exists e, e ∈ added /\
        A.position (heapq.node_of e) = move env (A.position node) act /\
        A.g (heapq.node_of e) = A.g node + 1.
Proof.
  revert fr k. induction acts as [|a acts IH]; intros fr k; simpl.
  - intros [= <- <-]. exists []. rewrite app_nil_r.
    repeat split; auto. intros act Hact. inversion Hact.
  - destruct (visit explored node (fr, k) a) as [fr1 k1] eqn:Hv.
    intros H. destruct (IH _ _ H) as (added & -> & Hlen & Hch & Hwf & Hcov).
    rewrite astar_visit_eq in Hv. simpl in Hv.
    destruct (wall_at env (move env (A.position node) a)) eqn:Hwall.
    { injection Hv as <- <-. exists added.
      split; [done|]. split; [lia|]. split; [done|]. split; [done|].
      intros act Hact Hw. apply elem_of_cons in Hact as [->|Hact]; [congruence|auto]. }
    destruct (decide (move env (A.position node) a ∈ explored)) as [Hin|Hin].
    + injection Hv as <- <-. exists added.
      split; [done|]. split; [lia|]. split; [done|]. split; [done|].
      intros act Hact Hw. apply elem_of_cons in Hact as [->|Hact]; auto.
    + injection Hv as <- <-. eexists (_ :: added).
      split; [unfold heapq.heappush; by rewrite <- app_assoc|]. split; [simpl; lia|].
      split; [constructor; [exists a; split_and!; try done;
                            unfold heapq.priority; simpl; lia|done]|].
      split; [intros Hn; constructor; [simpl; eauto 12|auto]|].
      intros act Hact Hw. apply elem_of_cons in Hact as [->|Hact].
      * right. eexists. split; [left|]. done.
      * destruct (Hcov act Hact Hw) as [?|(e & He & ?)]; [by left|].
        right. exists e. split; [by right|done].
Qed.

(** The passes of the loop body, case by case. *)
Lemma astar_iteration_cases st :
  match iteration st with
  | None => A.frontier st = []
  | Some s =>
      exists e fr,
        heapq.heappop A.node_lt (A.frontier st) = Some (e, fr) /\
        let node := heapq.node_of e in
        match s with
        | Return n st' =>
            n = node /\ A.position node = goal /\
            st' = A.mkState fr (A.explored st) (A.peak st) (A.expanded st) (A.allocated st)
        | Break st' =>
            A.position node <> goal /\ (A.position node ∉ A.explored st) /\
            A.expanded st + 1 > max_expansions /\
            st' = A.mkState fr (A.explored st ∪ {[A.position node]})
                    (A.peak st) (A.expanded st + 1) (A.allocated st)
        | Continue st' =>
            A.position node <> goal /\
            (A.position node ∈ A.explored st /\
             st' = A.mkState fr (A.explored st) (A.peak st) (A.expanded st) (A.allocated st)
             \/
             (A.position node ∉ A.explored st) /\
             A.expanded st + 1 <= max_expansions /\
             exists fr' k,
               fold_left (visit (A.explored st ∪ {[A.position node]}) node)
                 ACTIONS (fr, A.allocated st) = (fr', k) /\
               st' = A.mkState fr' (A.explored st ∪ {[A.position node]})
                       (Z.max (A.peak st) (Z.of_nat (length fr')))
                       (A.expanded st + 1) k)
        end
  end.
Proof.
  unfold A.iteration.
  destruct (heapq.heappop A.node_lt (A.frontier st)) as [[[[c i] n] fr]|] eqn:Hpop.
  2:{ by apply heappop_None in Hpop. }
  destruct (decide (A.position n = goal)) as [Hg|Hg].
  { exists (c, i, n), fr. simpl. auto. }
  destruct (decide (A.position n ∈ A.explored st)) as [Hin|Hin].
  { exists (c, i, n), fr. simpl. auto. }
  destruct (Z.gtb_spec (A.expanded st + 1) max_expansions) as [Hcap|Hcap].
  { exists (c, i, n), fr. simpl. repeat split; auto. lia. }
  destruct (fold_left _ ACTIONS (fr, A.allocated st)) as [fr' k] eqn:Hfold.
  exists (c, i, n), fr. simpl.
  split; [done|]. split; [done|]. right. repeat split; auto. by exists fr', k.
Qed.

(** The loop ends: each pass lowers the budget. *)
Lemma astar_budget_decreases st st' :
  iteration st = Some (Continue st') ->
  (A.budget max_expansions st' < A.budget max_expansions st)%nat.
Proof.
  intros Hit. pose proof (astar_iteration_cases st) as H. rewrite Hit in H.
  destruct H as (e & fr & Hpop & Hgoal & [[_ ->]|(_ & Hcap & fr' & k & Hfold & ->)]);
    apply heappop_length in Hpop; unfold A.budget; simpl.
  - lia.
  - apply astar_visit_fold in Hfold as (added & -> & Hlen & _).
    rewrite length_app. simpl in Hlen. lia.
Qed.

Lemma astar_run_is_Some :
  is_Some (A.run ident env goal heuristic max_expansions start).
Proof.
  unfold A.run.
  apply (while_loop_terminates _ (A.budget max_expansions)); [|lia].
  apply astar_budget_decreases.
Qed.

(** The count of expansions stays within one of the cap. *)
Lemma astar_cap_post fuel out st :
  while_loop iteration fuel (A.initial ident goal heuristic start) = Some (out, st) ->
  A.expanded st <= Z.max 0 max_expansions + 1 /\
  (out = Aborted -> A.expanded st > max_expansions) /\
  (out <> Aborted -> A.expanded st <= Z.max 0 max_expansions).
Proof.
  apply (while_loop_post iteration
           (fun st => A.expanded st <= Z.max 0 max_expansions)
           (fun out st =>
              A.expanded st <= Z.max 0 max_expansions + 1 /\
              (out = Aborted -> A.expanded st > max_expansions) /\
              (out <> Aborted -> A.expanded st <= Z.max 0 max_expansions))).
  - intros s HP _. repeat split; [lia|discriminate|auto].
  - intros s s' HP Hit. pose proof (astar_iteration_cases s) as H. rewrite Hit in H.
    destruct H as (e & fr & _ & _ & [[_ ->]|(_ & Hcap & fr' & k & _ & ->)]); simpl; lia.
  - intros s n s' HP Hit. pose proof (astar_iteration_cases s) as H. rewrite Hit in H.
    destruct H as (e & fr & _ & _ & _ & ->). simpl. repeat split; [lia|discriminate|auto].
  - intros s s' HP Hit. pose proof (astar_iteration_cases s) as H. rewrite Hit in H.
    destruct H as (e & fr & _ & _ & _ & Hcap & ->). simpl.
    repeat split; [lia|lia|congruence].
  - simpl. lia.
Qed.

(** A pass that breaks has just counted one expansion past the cap. *)
Lemma astar_cap_exact fuel out st :
  while_loop iteration fuel (A.initial ident goal heuristic start) = Some (out, st) ->
  (out = Aborted -> A.expanded st = Z.max 0 max_expansions + 1) /\
  (out <> Aborted -> 0 <= A.expanded st <= Z.max 0 max_expansions).
Proof.
  apply (while_loop_post iteration
           (fun st => 0 <= A.expanded st <= Z.max 0 max_expansions)
           (fun out st =>
              (out = Aborted -> A.expanded st = Z.max 0 max_expansions + 1) /\
              (out <> Aborted -> 0 <= A.expanded st <= Z.max 0 max_expansions))).
  - intros s HP _. split; [discriminate|auto].
  - intros s s' HP Hit. pose proof (astar_iteration_cases s) as H. rewrite Hit in H.
    destruct H as (e & fr & _ & _ & [[_ ->]|(_ & Hcap & fr' & k & _ & ->)]); simpl; lia.
  - intros s n s' HP Hit. pose proof (astar_iteration_cases s) as H. rewrite Hit in H.
    destruct H as (e & fr & _ & _ & _ & ->). simpl. split; [discriminate|auto].
  - intros s s' HP Hit. pose proof (astar_iteration_cases s) as H. rewrite Hit in H.
    destruct H as (e & fr & _ & _ & _ & Hcap & ->). simpl.
    split; [intros _; lia|congruence].
  - simpl. lia.
Qed.

Lemma astar_wf_reach n : wf n -> reach env start (A.g n) (A.position n).
Proof.
  revert n. fix IH 1. intros [p [q|] a c hh ff]; simpl.
  - intros (_ & _ & Hq & act & _ & -> & Hwall & ->). constructor; [by apply IH|done].
  - intros (_ & _ & -> & _ & ->). constructor.
Qed.

Lemma astar_wf_f n : wf n -> A.f n = A.g n + heuristic (A.position n) goal.
Proof. destruct n as [p par a c hh ff]. simpl. by intros (-> & -> & _). Qed.

Lemma astar_initial_inv :
  astar_inv env start goal heuristic [] (A.initial ident goal heuristic start) /\
  astar_closed env start [] (A.initial ident goal heuristic start).
Proof.
  unfold astar_inv, astar_closed, A.initial, heapq.heappush. simpl.
  split; [split; [split|split_and!]|split]; simpl.
  - intros e He. apply list_elem_of_singleton in He as ->.
    split; simpl; [constructor|done].
  - intros p c H. inversion H.
  - constructor.
  - intros H. inversion H.
  - intros kv e H. inversion H.
  - constructor.
  - by repeat constructor.
  - done.
  - done.
  - right. eexists. split; [left|]. done.
  - intros p c act H. inversion H.
Qed.

Lemma astar_wf_pop st e fr :
  Forall (fun e => wf (heapq.node_of e)) (A.frontier st) ->
  heapq.heappop A.node_lt (A.frontier st) = Some (e, fr) ->
  wf (heapq.node_of e) /\ Forall (fun e => wf (heapq.node_of e)) fr.
Proof.
  intros Hwf Hpop. rewrite (heappop_perm _ _ _ _ Hpop) in Hwf.
  by apply Forall_cons in Hwf.
Qed.

Lemma astar_explored_snoc (fin : Dict) (s : gset Position) p c :
  s = list_to_set fin.*1 -> s ∪ {[p]} = list_to_set (fin ++ [(p, c)]).*1.
Proof.
  intros ->. rewrite fmap_app, list_to_set_app_L. simpl.
  by rewrite (right_id_L ∅ (∪)).
Qed.

Lemma astar_inv_continue fin st st' :
  astar_inv env start goal heuristic fin st /\ astar_closed env start fin st ->
  iteration st = Some (Continue st') ->
  exists fin',
    astar_inv env start goal heuristic fin' st' /\ astar_closed env start fin' st'.
Proof using h_consistent.
  intros [Hinv HC] Hit. pose proof Hinv as (HI & Hwf & Hset & Hcount).
  pose proof (astar_iteration_cases st) as H. rewrite Hit in H.
  destruct H as (e & fr & Hpop & Hgoal & [[Hin ->]|(Hfresh & Hcap & fr' & k & Hfold & ->)]).
  - destruct (astar_wf_pop _ _ _ Hwf Hpop) as [_ Hwf'].
    exists fin. split; [split_and!|]; simpl; [by eapply Inv_pop|done|done|done|].
    eapply Closed_discard; [done..|].
    rewrite Hset in Hin. by apply elem_of_list_to_set in Hin.
  - assert (A.position (heapq.node_of e) ∉ fin.*1) as Hfresh'.
    { rewrite Hset in Hfresh. by rewrite elem_of_list_to_set in Hfresh. }
    destruct (astar_wf_pop _ _ _ Hwf Hpop) as [Hwfe Hwf'].
    apply astar_visit_fold in Hfold as (added & -> & _ & Hch & Hwfa & Hcov).
    exists (fin ++ [(A.position (heapq.node_of e), A.g (heapq.node_of e))]).
    split; [split_and!|]; simpl.
    + by apply (Inv_expand A.node_lt _ _ _ _ _ _ h_consistent (A.frontier st)).
    + apply Forall_app. auto.
    + by apply astar_explored_snoc.
    + rewrite length_app. simpl. lia.
    + apply (Closed_expand A.node_lt _ _ _ _ (A.frontier st)); [done..|].
      intros act Hwall.
      destruct (Hcov act) as [Hin|?]; [destruct act; repeat constructor|done| |by right].
      left. erewrite astar_explored_snoc in Hin by done.
      by apply elem_of_list_to_set in Hin.
Qed.

(** What holds when the loop of a call has ended. *)
Lemma astar_loop_post fuel out st :
  while_loop iteration fuel (A.initial ident goal heuristic start) = Some (out, st) ->
  astar_post env start goal heuristic out st.
Proof using h_consistent.
  apply (while_loop_post iteration
           (fun st => exists fin, astar_inv env start goal heuristic fin st /\
                                  astar_closed env start fin st)
           (astar_post env start goal heuristic)).
  - intros s (fin & HI & HC) Hit. pose proof (astar_iteration_cases s) as H.
    rewrite Hit in H. exists fin. destruct HI as (? & ? & ? & ?).
    split; [done|]. split; [done|]. done.
  - intros s s' (fin & H) Hit. by eapply astar_inv_continue.
  - intros s n s' (fin & (HI & Hwf & Hset & Hcount) & HC) Hit.
    pose proof (astar_iteration_cases s) as H. rewrite Hit in H.
    destruct H as (e & fr & Hpop & -> & Hgoal & ->). simpl.
    exists fin. split; [done|]. split; [done|].
    exists (A.frontier s), e.
    destruct (astar_wf_pop _ _ _ Hwf Hpop) as [Hwfe _]. done.
  - intros s s' (fin & Hinv & HC) Hit. pose proof Hinv as (HI & Hwf & Hset & Hcount).
    pose proof (astar_iteration_cases s) as H. rewrite Hit in H.
    destruct H as (e & fr & Hpop & Hgoal & Hfresh & Hcap & ->). simpl.
    assert (A.position (heapq.node_of e) ∉ fin.*1) as Hfresh'.
    { rewrite Hset in Hfresh. by rewrite elem_of_list_to_set in Hfresh. }
    destruct (astar_wf_pop _ _ _ Hwf Hpop) as [_ Hwf'].
    exists (fin ++ [(A.position (heapq.node_of e), A.g (heapq.node_of e))]).
    simpl. split; [by apply astar_explored_snoc|].
    split; [rewrite length_app; simpl; lia|].
    split_and!; simpl.
    + by apply (Inv_finalize A.node_lt _ _ _ _ _ _ h_consistent (A.frontier s)).
    + done.
    + by apply astar_explored_snoc.
    + rewrite length_app. simpl. lia.
  - exists []. apply astar_initial_inv.
Qed.
End AstarFacts.

(** ** Routes and the paths of nodes *)

Section RouteFacts.
Variable env : Env.
Variable start : Position.

Lemma route_start : route env start [start] start.
Proof.
  split; [done|]. split; [done|].
  intros [|i] a b; simpl; intros; discriminate.
Qed.

Lemma route_nonempty l p : route env start l p -> l <> [].
Proof. intros [H _] ->. discriminate. Qed.

Lemma route_snoc l p act :
  route env start l p ->
  wall_at env (move env p act) = false ->
  route env start (l ++ [move env p act]) (move env p act).
Proof.
  intros Hr Hwall. pose proof (route_nonempty _ _ Hr) as Hne.
  destruct Hr as (Hhd & Hlast & Hstep).
  split; [|split].
  - rewrite lookup_app_l; [done|]. destruct l; [done|simpl; lia].
  - apply last_snoc.
  - intros i a b Ha Hb.
    destruct (decide (Datatypes.S i < length l)%nat) as [Hlt|Hge].
    + rewrite lookup_app_l in Ha by lia. rewrite lookup_app_l in Hb by lia. eauto.
    + assert (Datatypes.S i = length l) as Hi.
      { apply lookup_lt_Some in Hb. rewrite length_app in Hb. simpl in Hb. lia. }
      rewrite lookup_app_l in Ha by lia.
      rewrite lookup_app_r in Hb by lia.
      replace (Datatypes.S i - length l)%nat with 0%nat in Hb by lia.
      injection Hb as <-.
      rewrite last_lookup in Hlast.
      replace (pred (length l)) with i in Hlast by lia.
      assert (a = p) as -> by congruence. by exists act.
Qed.

Lemma route_reach l p :
  route env start l p -> reach env start (Z.of_nat (length l) - 1) p.
Proof.
  revert p. induction l as [|x l IH] using rev_ind; intros p Hr.
  { by destruct (route_nonempty _ _ Hr). }
  destruct Hr as (Hhd & Hlast & Hstep).
  rewrite last_snoc in Hlast. injection Hlast as ->.
  destruct l as [|y l'] using rev_ind.
  - simpl in Hhd. injection Hhd as ->. constructor.
  - clear IHl'. set (l := l' ++ [y]) in *.
    assert (length l = Datatypes.S (length l')) as Hlen.
    { unfold l. rewrite length_app. simpl. lia. }
    assert (l !! length l' = Some y) as Hy.
    { unfold l. rewrite lookup_app_r by lia. by rewrite Nat.sub_diag. }
    destruct (Hstep (length l') y p) as (act & -> & Hwall).
    { by rewrite lookup_app_l by lia. }
    { rewrite lookup_app_r by lia. rewrite Hlen, Nat.sub_diag. done. }
    rewrite length_app. simpl.
    replace (Z.of_nat (length l + 1) - 1) with (Z.of_nat (length l) - 1 + 1) by lia.
    constructor; [|done]. apply IH.
    split; [|split].
    + rewrite lookup_app_l in Hhd by lia. done.
    + unfold l. apply last_snoc.
    + intros i a b Ha Hb. apply (Hstep i a b).
      * rewrite lookup_app_l; [done|]. by apply lookup_lt_Some in Ha.
      * rewrite lookup_app_l; [done|]. by apply lookup_lt_Some in Hb.
Qed.

(** Every cell of a route after the first is passable. *)
Lemma route_passable l p :
  route env start l p ->
  wall_at env start = false ->
  forall a, a ∈ l -> wall_at env a = false.
Proof.
  intros (Hhd & _ & Hstep) Hstart a Ha.
  apply list_elem_of_lookup in Ha as [i Hi].
  destruct i as [|i]; [congruence|].
  destruct (lookup_lt_is_Some_2 l i) as [b Hb].
  { apply lookup_lt_Some in Hi. lia. }
  by destruct (Hstep i b a Hb Hi) as (act & _ & ?).
Qed.

Lemma ucs_path_route n :
  ucs_wf env start n -> route env start (U.path n) (U.position n).
Proof.
  revert n. fix IH 1. intros [p [q|] a c]; simpl.
  - intros (Hq & act & _ & -> & Hwall & _). apply route_snoc; [by apply IH|done].
  - intros (-> & _). apply route_start.
Qed.

Lemma ucs_path_length n :
  ucs_wf env start n -> Z.of_nat (length (U.path n)) = U.g n + 1.
Proof.
  revert n. fix IH 1. intros [p [q|] a c]; simpl.
  - intros (Hq & act & _ & _ & _ & ->). rewrite length_app. simpl.
    specialize (IH q Hq). lia.
  - by intros (_ & _ & ->).
Qed.

Section Astar.
Variable goal : Position.
Variable heuristic : Position -> Position -> Z.

Lemma astar_path_route n :
  astar_wf env start goal heuristic n -> route env start (A.path n) (A.position n).
Proof.
  revert n. fix IH 1. intros [p [q|] a c hh ff]; simpl.
  - intros (_ & _ & Hq & act & _ & -> & Hwall & _).
    apply route_snoc; [by apply IH|done].
  - intros (_ & _ & -> & _). apply route_start.
Qed.

Lemma astar_path_length n :
  astar_wf env start goal heuristic n -> Z.of_nat (length (A.path n)) = A.g n + 1.
Proof.
  revert n. fix IH 1. intros [p [q|] a c hh ff]; simpl.
  - intros (_ & _ & Hq & act & _ & _ & _ & ->). rewrite length_app. simpl.
    specialize (IH q Hq). lia.
  - by intros (_ & _ & _ & _ & ->).
Qed.
End Astar.
End RouteFacts.

(** The Manhattan distance is consistent for cardinal moves. *)
Lemma manhattan_consistent env goal :
  cardinal env -> consistent env (fun p => A.manhattan_distance p goal).
Proof.
  intros Hc [r c] act _. specialize (Hc act).
  unfold A.manhattan_distance, move.
  destruct (MOVE_DELTAS env act) as [dr dc]. simpl in *. lia.
Qed.

Lemma manhattan_zero p goal : A.manhattan_distance p goal = 0 -> p = goal.
Proof.
  destruct p as [r c], goal as [r' c']. unfold A.manhattan_distance. simpl.
  intros H. f_equal; lia.
Qed.

Lemma manhattan_nonneg p goal : 0 <= A.manhattan_distance p goal.
Proof. unfold A.manhattan_distance. lia. Qed.

(** ** The calls as a whole *)

Lemma ucs_search_run ident env goal max_expansions start p s :
  U.uniformcost_search ident env goal max_expansions start = Some (p, s) ->
  exists out st,
    U.run ident env goal max_expansions start = Some (out, st) /\
    U.result (out, st) = (p, s).
Proof.
  unfold U.uniformcost_search.
  destruct (U.run ident env goal max_expansions start) as [[out st]|]; simpl; [|done].
  intros [= H]. by exists out, st.
Qed.

Lemma astar_search_run ident env goal heuristic max_expansions start p s :
  A.astar_search ident env goal heuristic max_expansions start = Some (p, s) ->
  exists out st,
    A.run ident env goal heuristic max_expansions start = Some (out, st) /\
    A.result (out, st) = (p, s).
Proof.
  unfold A.astar_search.
  destruct (A.run ident env goal heuristic max_expansions start) as [[out st]|];
    simpl; [|done].
  intros [= H]. by exists out, st.
Qed.

Lemma ucs_result_found out st p s :
  U.result (out, st) = (Some p, s) ->
  exists node, out = Found node /\ p = U.path node /\
    nodes_expanded s = U.expanded st /\
    path_length s = Some (Z.of_nat (length p)).
Proof.
  unfold U.result. destruct out as [node| |]; simpl; intros [= <- <-]; eauto.
Qed.

Lemma astar_result_found out st p s :
  A.result (out, st) = (Some p, s) ->
  exists node, out = Found node /\ p = A.path node /\
    nodes_expanded s = A.expanded st /\
    path_length s = Some (Z.of_nat (length p)).
Proof.
  unfold A.result. destruct out as [node| |]; simpl; intros [= <- <-]; eauto.
Qed.

Lemma ucs_start_is_goal ident env max_expansions start :
  U.uniformcost_search ident env start max_expansions start =
  Some (Some [start],
        {| nodes_expanded := 0; path_length := Some 1; frontier_peak := 1 |}).
Proof.
  unfold U.uniformcost_search, U.run. simpl.
  unfold U.iteration. simpl. by rewrite decide_True.
Qed.

Lemma astar_start_is_goal ident env heuristic max_expansions start :
  A.astar_search ident env start heuristic max_expansions start =
  Some (Some [start],
        {| nodes_expanded := 0; path_length := Some 1; frontier_peak := 1 |}).
Proof.
  unfold A.astar_search, A.run. simpl.
  unfold A.iteration. simpl. by rewrite decide_True.
Qed.

(** The node A* returns is well formed, whatever the heuristic. *)
Lemma astar_found_wf ident env goal heuristic max_expansions start fuel node st :
  while_loop (A.iteration ident env goal heuristic max_expansions) fuel
    (A.initial ident goal heuristic start) = Some (Found node, st) ->
  astar_wf env start goal heuristic node /\ A.position node = goal.
Proof.
  apply (while_loop_post (A.iteration ident env goal heuristic max_expansions)
           (fun st => Forall (fun e => astar_wf env start goal heuristic (heapq.node_of e))
                        (A.frontier st))
           (fun out st =>
              match out with
              | Found n => astar_wf env start goal heuristic n /\ A.position n = goal
              | _ => True
              end)); try done.
  - intros s s' Hwf Hit.
    pose proof (astar_iteration_cases ident env goal heuristic max_expansions s) as H.
    rewrite Hit in H.
    destruct H as (e & fr & Hpop & _ & [[_ ->]|(_ & _ & fr' & k & Hfold & ->)]);
      destruct (astar_wf_pop _ _ _ _ _ _ _ Hwf Hpop) as [Hwfe Hwf']; simpl; [done|].
    apply (astar_visit_fold _ _ goal heuristic start) in Hfold
      as (added & -> & _ & _ & Hwfa & _).
    apply Forall_app. auto.
  - intros s n s' Hwf Hit.
    pose proof (astar_iteration_cases ident env goal heuristic max_expansions s) as H.
    rewrite Hit in H. destruct H as (e & fr & Hpop & -> & Hgoal & _).
    by destruct (astar_wf_pop _ _ _ _ _ _ _ Hwf Hpop).
  - unfold A.initial, heapq.heappush. simpl. by repeat constructor.
Qed.

(** A route in the words of the specification: consecutive cells differ by one
    of the four deltas. *)
Lemma route_moves env start l p :
  route env start l p ->
  head l = Some start /\ last l = Some p /\
  forall (i : nat) a b,
    l !! i = Some a -> l !! Datatypes.S i = Some b ->
    exists act, act ∈ ACTIONS /\
      b = (fst a + fst (MOVE_DELTAS env act), snd a + snd (MOVE_DELTAS env act)).
Proof.
  intros (Hhd & Hlast & Hstep). split; [by rewrite head_lookup|]. split; [done|].
  intros i a b Ha Hb. destruct (Hstep i a b Ha Hb) as (act & -> & _).
  exists act. split; [unfold ACTIONS; destruct act; repeat constructor|].
  unfold move. destruct a as [r c], (MOVE_DELTAS env act) as [dr dc]. done.
Qed.

(** * Properties of the specification *)

(** C8.  When start equals goal and the cell is passable, both searches
    return the one-element path [[start]] and report no expansion at
    all: [nodes_expanded] is 0 (the path has length 1, the frontier
    never held more than the start node). *)
Theorem start_equals_goal_passable ident env heuristic max_expansions start :
  _is_wall env (fst start) (snd start) = false ->
  U.uniformcost_search ident env start max_expansions start =
    Some (Some [start],
          {| nodes_expanded := 0; path_length := Some 1; frontier_peak := 1 |}) /\
  A.astar_search ident env start heuristic max_expansions start =
    Some (Some [start],
          {| nodes_expanded := 0; path_length := Some 1; frontier_peak := 1 |}).
Proof.
  intros _. split; [apply ucs_start_is_goal|apply astar_start_is_goal].
Qed.

Lemma start_equals_goal_passable_witness :
  U.uniformcost_search ident_up (grid_env 2 2 []) (0, 0) 10000 (0, 0) =
    Some (Some [(0, 0)],
          {| nodes_expanded := 0; path_length := Some 1; frontier_peak := 1 |}) /\
  A.astar_search ident_up (grid_env 2 2 []) (0, 0) A.manhattan_distance 10000 (0, 0) =
    Some (Some [(0, 0)],
          {| nodes_expanded := 0; path_length := Some 1; frontier_peak := 1 |}).
Proof.
  apply (start_equals_goal_passable ident_up (grid_env 2 2 [])
           A.manhattan_distance 10000 (0, 0)).
  reflexivity.
Defined.

(** C10.  When start equals goal, both searches return [[start]] with
    [nodes_expanded] equal to 0 whatever [_is_wall] says about the cell:
    the goal test on the popped node comes first, and the environment is
    never asked about the start. *)
Theorem start_equals_goal_any_cell ident env heuristic max_expansions start :
  U.uniformcost_search ident env start max_expansions start =
    Some (Some [start],
          {| nodes_expanded := 0; path_length := Some 1; frontier_peak := 1 |}) /\
  A.astar_search ident env start heuristic max_expansions start =
    Some (Some [start],
          {| nodes_expanded := 0; path_length := Some 1; frontier_peak := 1 |}).
Proof.
  split; [apply ucs_start_is_goal|apply astar_start_is_goal].
Qed.

(** ** The bound on nested calls *)

Lemma ucs_path_nonempty n : (1 <= length (U.path n))%nat.
Proof.
  destruct n as [p [q|] a c]; simpl; [rewrite length_app; simpl|]; lia.
Qed.

Lemma astar_path_nonempty n : (1 <= length (A.path n))%nat.
Proof.
  destruct n as [p [q|] a c hh ff]; simpl; [rewrite length_app; simpl|]; lia.
Qed.

(** [Node.path] returns exactly when the chain of parents fits the
    frames that are left, and then the list [path] gives. *)
Lemma ucs_path_within frames n :
  U.path_within frames n =
  if decide (length (U.path n) <= frames)%nat then Returns (U.path n)
  else RecursionError.
Proof.
  revert n. induction frames as [|frames IH]; intros n.
  - pose proof (ucs_path_nonempty n). simpl. by rewrite decide_False by lia.
  - destruct n as [p [q|] a c]; simpl.
    + rewrite IH, length_app. simpl.
      destruct (decide (length (U.path q) <= frames)%nat);
        [rewrite decide_True by lia|rewrite decide_False by lia]; done.
    + done.
Qed.

Lemma astar_path_within frames n :
  A.path_within frames n =
  if decide (length (A.path n) <= frames)%nat then Returns (A.path n)
  else RecursionError.
Proof.
  revert n. induction frames as [|frames IH]; intros n.
  - pose proof (astar_path_nonempty n). simpl. by rewrite decide_False by lia.
  - destruct n as [p [q|] a c hh ff]; simpl.
    + rewrite IH, length_app. simpl.
      destruct (decide (length (A.path q) <= frames)%nat);
        [rewrite decide_True by lia|rewrite decide_False by lia]; done.
    + done.
Qed.

(** The [return] statements give what [result] gives unless [Node.path]
    runs out of frames. *)
Lemma ucs_result_within frames r :
  U.result_within frames r =
  match fst (U.result r) with
  | Some p =>
      if decide (length p <= frames)%nat then Returns (U.result r)
      else RecursionError
  | None => Returns (U.result r)
  end.
Proof.
  unfold U.result_within, U.result. destruct (fst r) as [node| |]; simpl; [|done..].
  rewrite ucs_path_within. by destruct (decide _).
Qed.

Lemma astar_result_within frames r :
  A.result_within frames r =
  match fst (A.result r) with
  | Some p =>
      if decide (length p <= frames)%nat then Returns (A.result r)
      else RecursionError
  | None => Returns (A.result r)
  end.
Proof.
  unfold A.result_within, A.result. destruct (fst r) as [node| |]; simpl; [|done..].
  rewrite astar_path_within. by destruct (decide _).
Qed.

(** C5, as the code has it.  Every call ends its loop in one of the
    three ways and returns; the count of expansions it reports never
    exceeds the cap by more than one (a negative cap counting as 0); the
    count exceeds the cap exactly when the loop was left by the [break]
    on the cap; and a call that aborts so returns no path and reports
    exactly one expansion more than the cap. *)
Theorem expansions_within_cap_plus_one ident env goal heuristic max_expansions start :
  (exists out st p s,
     U.run ident env goal max_expansions start = Some (out, st) /\
     U.uniformcost_search ident env goal max_expansions start = Some (p, s) /\
     nodes_expanded s <= Z.max 0 max_expansions + 1 /\
     (Z.max 0 max_expansions < nodes_expanded s <-> out = Aborted) /\
     (out = Aborted ->
      nodes_expanded s = Z.max 0 max_expansions + 1 /\
      p = None /\ path_length s = None)) /\
  (exists out st p s,
     A.run ident env goal heuristic max_expansions start = Some (out, st) /\
     A.astar_search ident env goal heuristic max_expansions start = Some (p, s) /\
     nodes_expanded s <= Z.max 0 max_expansions + 1 /\
     (Z.max 0 max_expansions < nodes_expanded s <-> out = Aborted) /\
     (out = Aborted ->
      nodes_expanded s = Z.max 0 max_expansions + 1 /\
      p = None /\ path_length s = None)).
Proof.
  split.
  - destruct (ucs_run_is_Some ident env goal max_expansions start) as [[out st] Hrun].
    exists out, st, (fst (U.result (out, st))), (snd (U.result (out, st))).
    split; [done|]. split.
    { unfold U.uniformcost_search. rewrite Hrun. simpl.
      by destruct (U.result (out, st)). }
    destruct (ucs_cap_exact _ _ _ _ _ _ _ _ Hrun) as [Habort Hother].
    assert (nodes_expanded (snd (U.result (out, st))) = U.expanded st) as ->.
    { unfold U.result. by destruct out. }
    assert (out = Aborted \/ out <> Aborted) as [->|Hne]
      by (destruct out; [by right|by right|by left]).
    + specialize (Habort eq_refl). split; [lia|]. split; [split; [done|lia]|].
      intros _. by split.
    + specialize (Hother Hne). split; [lia|]. split; [split; [lia|done]|done].
  - destruct (astar_run_is_Some ident env goal heuristic max_expansions start)
      as [[out st] Hrun].
    exists out, st, (fst (A.result (out, st))), (snd (A.result (out, st))).
    split; [done|]. split.
    { unfold A.astar_search. rewrite Hrun. simpl.
      by destruct (A.result (out, st)). }
    destruct (astar_cap_exact _ _ _ _ _ _ _ _ _ Hrun) as [Habort Hother].
    assert (nodes_expanded (snd (A.result (out, st))) = A.expanded st) as ->.
    { unfold A.result. by destruct out. }
    assert (out = Aborted \/ out <> Aborted) as [->|Hne]
      by (destruct out; [by right|by right|by left]).
    + specialize (Habort eq_refl). split; [lia|]. split; [split; [done|lia]|].
      intros _. by split.
    + specialize (Hother Hne). split; [lia|]. split; [split; [lia|done]|done].
Qed.

(** The uniform-cost search with cap 2 on the open 2x2 grid: the loop is
    left by the [break], and the call reports 3 expansions and no path. *)
Lemma expansions_within_cap_plus_one_witness :
  exists st,
    U.run ident_up (grid_env 2 2 []) (1, 1) 2 (0, 0) = Some (Aborted, st) /\
    U.uniformcost_search ident_up (grid_env 2 2 []) (1, 1) 2 (0, 0) =
      Some (None, {| nodes_expanded := 3; path_length := None; frontier_peak := 2 |}) /\
    3 <= Z.max 0 2 + 1 /\
    (Z.max 0 2 < 3 <-> @Aborted U.Node = Aborted) /\
    (@Aborted U.Node = Aborted ->
     3 = Z.max 0 2 + 1 /\ @None (list Position) = None /\ @None Z = None).
Proof.
  destruct (proj1 (expansions_within_cap_plus_one ident_up (grid_env 2 2 []) (1, 1)
                     A.manhattan_distance 2 (0, 0)))
    as (out & st & p & s & Hrun & Hsearch & Hle & Hiff & Habort).
  assert (U.uniformcost_search ident_up (grid_env 2 2 []) (1, 1) 2 (0, 0) =
            Some (None, {| nodes_expanded := 3; path_length := None; frontier_peak := 2 |}))
    as Hval by (vm_compute; reflexivity).
  rewrite Hval in Hsearch. injection Hsearch as <- <-. simpl in *.
  assert (out = Aborted) as -> by (apply Hiff; lia).
  exists st. split; [exact Hrun|]. split; [exact Hval|].
  split; [exact Hle|]. split; [exact Hiff|exact Habort].
Defined.

(** C5, as stated, fails: with cap 2 the uniform-cost search on the open
    2x2 grid reports 3 expansions, and A* with cap 1 on the open 3x3 grid
    reports 2. *)
Lemma expansions_exceed_cap :
  (exists p s,
     U.uniformcost_search ident_up (grid_env 2 2 []) (1, 1) 2 (0, 0) = Some (p, s) /\
     ~ nodes_expanded s <= 2) /\
  (exists p s,
     A.astar_search ident_up (grid_env 3 3 []) (2, 2) A.manhattan_distance 1 (0, 0)
       = Some (p, s) /\
     ~ nodes_expanded s <= 1).
Proof.
  split; eexists _, _; (split; [vm_compute; reflexivity|]); simpl; lia.
Qed.

(** C3.  A path either search returns from a passable start begins at
    [start], ends at [goal], moves by one of the four [MOVE_DELTAS]
    between consecutive cells, and holds no cell that [_is_wall] reports
    impassable (the goal among them). *)
Theorem returned_path_valid ident env goal heuristic max_expansions start p s :
  _is_wall env (fst start) (snd start) = false ->
  U.uniformcost_search ident env goal max_expansions start = Some (Some p, s) \/
  A.astar_search ident env goal heuristic max_expansions start = Some (Some p, s) ->
  head p = Some start /\
  last p = Some goal /\
  (forall (i : nat) a b,
     p !! i = Some a -> p !! Datatypes.S i = Some b ->
     exists act, act ∈ ACTIONS /\
       b = (fst a + fst (MOVE_DELTAS env act), snd a + snd (MOVE_DELTAS env act))) /\
  (forall a, a ∈ p -> _is_wall env (fst a) (snd a) = false).
Proof.
  intros Hstart Hsearch.
  assert (route env start p goal) as Hroute.
  { destruct Hsearch as [H|H].
    - apply ucs_search_run in H as (out & st & Hrun & Hres).
      apply ucs_result_found in Hres as (node & -> & -> & _).
      apply ucs_loop_post in Hrun as (F & e & _ & _ & <- & Hwf & _).
      by apply ucs_path_route.
    - apply astar_search_run in H as (out & st & Hrun & Hres).
      apply astar_result_found in Hres as (node & -> & -> & _).
      apply astar_found_wf in Hrun as [Hwf <-].
      by eapply astar_path_route. }
  destruct (route_moves _ _ _ _ Hroute) as (Hhd & Hlast & Hmoves).
  split; [done|]. split; [done|]. split; [done|].
  intros a Ha. by apply (route_passable _ _ _ _ Hroute).
Qed.

(** ** Optimality *)

Lemma sorted_costs (fin : Dict) :
  StronglySorted (fun a b => fkey (fun _ => 0) a <= fkey (fun _ => 0) b) fin ->
  StronglySorted Z.le fin.*2.
Proof.
  induction 1 as [|kv fin Hs IH Hall]; simpl; constructor; [done|].
  apply Forall_fmap. eapply Forall_impl; [exact Hall|].
  intros kv'. unfold fkey. simpl. lia.
Qed.

Lemma ucs_found_facts ident env goal max_expansions start node st :
  U.run ident env goal max_expansions start = Some (Found node, st) ->
  ucs_wf env start node /\ U.position node = goal /\
  (forall k, reach env start k goal -> U.g node <= k) /\
  (forall k q, reach env start k q -> k < U.g node -> q ∈ (U.explored st).*1) /\
  Inv env start goal (fun _ => 0) U.position U.g (U.frontier st) (U.explored st) /\
  U.expanded st = Z.of_nat (length (U.explored st)).
Proof.
  intros Hrun.
  apply ucs_loop_post in Hrun as (F & e & Hpop & <- & Hgoal & Hwf & HI & HC & Hcount).
  assert (e ∈ F) as He by (apply (heappop_elem_of _ _ _ _ Hpop); by left).
  destruct (inv_entries _ _ _ _ _ _ _ _ HI e He) as [_ Hpri].
  split; [done|]. split; [done|]. split; [|split; [|split]].
  - intros k Hk. rewrite <- Hgoal in Hk.
    eapply (pop_optimal U.node_lt); [apply zero_consistent|done..| |done].
    rewrite Hgoal. by destruct HI.
  - intros k q Hq Hlt.
    eapply (pop_finalized_below U.node_lt); [apply zero_consistent|done..|].
    simpl in *. lia.
  - by eapply Inv_pop.
  - done.
Qed.

Lemma astar_found_facts ident env goal heuristic max_expansions start node st :
  consistent env (fun p => heuristic p goal) ->
  A.run ident env goal heuristic max_expansions start = Some (Found node, st) ->
  astar_wf env start goal heuristic node /\ A.position node = goal /\
  (forall k, reach env start k goal -> A.g node <= k) /\
  exists fin,
    A.expanded st = Z.of_nat (length fin) /\
    NoDup fin.*1 /\ (goal ∉ fin.*1) /\
    forall q c, (q, c) ∈ fin ->
      reach env start c q /\ c + heuristic q goal <= A.g node + heuristic goal goal.
Proof.
  intros Hcons Hrun.
  apply astar_loop_post in Hrun
    as (fin & Hset & Hcount & F & e & Hpop & <- & Hgoal & Hwf & HI & HC); [|done].
  assert (e ∈ F) as He by (apply (heappop_elem_of _ _ _ _ Hpop); by left).
  destruct (inv_entries _ _ _ _ _ _ _ _ HI e He) as [_ Hpri].
  split; [done|]. split; [done|]. split.
  - intros k Hk. rewrite <- Hgoal in Hk.
    eapply (pop_optimal A.node_lt); [exact Hcons|done..| |done].
    rewrite Hgoal. by destruct HI.
  - exists fin. split; [done|]. destruct HI as [H1 H2 H3 H4 H5 H6].
    split; [done|]. split; [done|].
    intros q c Hq. split; [by apply H2|].
    specialize (H5 _ _ Hq He). unfold fkey in H5. simpl in H5.
    rewrite Hgoal in Hpri. lia.
Qed.

(** C1.  When the uniform-cost search reaches the goal: the explored map
    lists the finalized cells in the order they were recorded, with costs
    that never decrease; no cell was finalized twice (the count of
    expansions is the count of keys); each recorded cost is the least
    number of passable moves from [start]; and the returned path is a
    route from [start] to [goal] that no route is shorter than. *)
Theorem ucs_finalizes_optimally ident env goal max_expansions start p s :
  U.uniformcost_search ident env goal max_expansions start = Some (Some p, s) ->
  exists node st,
    U.run ident env goal max_expansions start = Some (Found node, st) /\
    p = U.path node /\
    StronglySorted Z.le (U.explored st).*2 /\
    NoDup (U.explored st).*1 /\
    nodes_expanded s = Z.of_nat (length (U.explored st)) /\
    (forall q c, (q, c) ∈ U.explored st ->
       reach env start c q /\ forall k, reach env start k q -> c <= k) /\
    route env start p goal /\
    (forall l, route env start l goal -> (length p <= length l)%nat).
Proof.
  intros H. apply ucs_search_run in H as (out & st & Hrun & Hres).
  apply ucs_result_found in Hres as (node & -> & -> & Hn & _).
  exists node, st. split; [done|]. split; [done|].
  destruct (ucs_found_facts _ _ _ _ _ _ _ Hrun)
    as (Hwf & Hgoal & Hopt & _ & [H1 H2 H3 H4 H5 H6] & Hcount).
  split; [by apply sorted_costs|]. split; [done|]. split; [congruence|].
  split; [done|]. split.
  - rewrite <- Hgoal. by apply ucs_path_route.
  - intros l Hl. apply route_reach in Hl. specialize (Hopt _ Hl).
    pose proof (ucs_path_length _ _ _ Hwf). lia.
Qed.

(** C2.  On an environment whose moves are cardinal, when both searches
    find a path, the path of the uniform-cost search and the path of A*
    with the Manhattan distance have the same length. *)
Theorem ucs_astar_equal_length
    ident_u ident_a env goal max_u max_a start pu su pa sa :
  cardinal env ->
  U.uniformcost_search ident_u env goal max_u start = Some (Some pu, su) ->
  A.astar_search ident_a env goal A.manhattan_distance max_a start = Some (Some pa, sa) ->
  length pu = length pa.
Proof.
  intros Hcard Hu Ha.
  apply ucs_search_run in Hu as (out_u & st_u & Hrun_u & Hres_u).
  apply ucs_result_found in Hres_u as (nu & -> & -> & _).
  apply astar_search_run in Ha as (out_a & st_a & Hrun_a & Hres_a).
  apply astar_result_found in Hres_a as (na & -> & -> & _).
  destruct (ucs_found_facts _ _ _ _ _ _ _ Hrun_u) as (Hwf_u & Hgoal_u & Hopt_u & _).
  destruct (astar_found_facts _ _ _ _ _ _ _ _ (manhattan_consistent _ _ Hcard) Hrun_a)
    as (Hwf_a & Hgoal_a & Hopt_a & _).
  pose proof (ucs_wf_reach _ _ _ Hwf_u) as Hru. rewrite Hgoal_u in Hru.
  pose proof (astar_wf_reach _ _ _ _ _ Hwf_a) as Hra. rewrite Hgoal_a in Hra.
  pose proof (ucs_path_length _ _ _ Hwf_u).
  pose proof (astar_path_length _ _ _ _ _ Hwf_a).
  specialize (Hopt_u _ Hra). specialize (Hopt_a _ Hru). lia.
Qed.

(** ** Exhausted and aborted searches *)

Lemma keys_length_le (l k : list Position) :
  NoDup l -> (forall x, x ∈ l -> x ∈ k) -> (length l <= length k)%nat.
Proof. intros Hnd Hsub. apply submseteq_length. by apply NoDup_submseteq. Qed.

Lemma ucs_exhausted_facts ident env goal max_expansions start st :
  U.run ident env goal max_expansions start = Some (Exhausted, st) ->
  (forall q, reachable env start q <-> q ∈ (U.explored st).*1) /\
  NoDup (U.explored st).*1 /\
  (goal ∉ (U.explored st).*1) /\
  U.expanded st = Z.of_nat (length (U.explored st)).
Proof.
  intros Hrun. apply ucs_loop_post in Hrun as ((HI & _ & Hcount) & HC & Hnil).
  unfold ucs_closed in HC. rewrite Hnil in HI, HC.
  split; [|by destruct HI].
  intros q. eapply exhausted_reachable; [apply zero_consistent|exact HI|exact HC].
Qed.

Lemma ucs_aborted_facts ident env goal max_expansions start st :
  U.run ident env goal max_expansions start = Some (Aborted, st) ->
  (forall q, q ∈ (U.explored st).*1 -> reachable env start q) /\
  NoDup (U.explored st).*1 /\
  U.expanded st = Z.of_nat (length (U.explored st)).
Proof.
  intros Hrun. apply ucs_loop_post in Hrun as (HI & _ & Hcount).
  split; [|by destruct HI].
  intros q Hq. apply elem_of_keys in Hq as [c Hc].
  exists c. by apply (inv_optimal _ _ _ _ _ _ _ _ HI).
Qed.

Lemma astar_exhausted_facts ident env goal heuristic max_expansions start st :
  consistent env (fun p => heuristic p goal) ->
  A.run ident env goal heuristic max_expansions start = Some (Exhausted, st) ->
  exists fin : Dict,
    (forall q, reachable env start q <-> q ∈ fin.*1) /\
    NoDup fin.*1 /\
    (goal ∉ fin.*1) /\
    A.expanded st = Z.of_nat (length fin).
Proof.
  intros Hcons Hrun.
  apply astar_loop_post in Hrun
    as (fin & _ & Hcount & (HI & _) & HC & Hnil); [|done].
  unfold astar_closed in HC. rewrite Hnil in HI, HC.
  exists fin. split; [|by destruct HI].
  intros q. eapply exhausted_reachable; [exact Hcons|exact HI|exact HC].
Qed.

Lemma astar_aborted_facts ident env goal heuristic max_expansions start st :
  consistent env (fun p => heuristic p goal) ->
  A.run ident env goal heuristic max_expansions start = Some (Aborted, st) ->
  exists fin : Dict,
    (forall q, q ∈ fin.*1 -> reachable env start q) /\
    NoDup fin.*1 /\
    A.expanded st = Z.of_nat (length fin).
Proof.
  intros Hcons Hrun.
  apply astar_loop_post in Hrun as (fin & _ & Hcount & HI & _); [|done].
  exists fin. split; [|by destruct HI].
  intros q Hq. apply elem_of_keys in Hq as [c Hc].
  exists c. by apply (inv_optimal _ _ _ _ _ _ _ _ HI).
Qed.

(** C6.  On an environment whose moves are cardinal, when neither search
    stops on the cap, A* with the Manhattan distance reports at most as
    many expansions as the uniform-cost search. *)
Theorem astar_expands_no_more
    ident_u ident_a env goal max_u max_a start out_u st_u out_a st_a :
  cardinal env ->
  U.run ident_u env goal max_u start = Some (out_u, st_u) ->
  A.run ident_a env goal A.manhattan_distance max_a start = Some (out_a, st_a) ->
  out_u <> Aborted ->
  out_a <> Aborted ->
  nodes_expanded (snd (A.result (out_a, st_a))) <=
  nodes_expanded (snd (U.result (out_u, st_u))).
Proof.
  intros Hcard Hu Ha Hnu Hna.
  pose proof (manhattan_consistent _ goal Hcard) as Hcons.
  assert (A.expanded st_a <= U.expanded st_u) as Hle.
  2:{ unfold A.result, U.result. by destruct out_a, out_u. }
  destruct out_u as [nu| |]; [| |done]; destruct out_a as [na| |]; try done.
  - destruct (ucs_found_facts _ _ _ _ _ _ _ Hu)
      as (Hwf_u & Hgoal_u & Hopt_u & Hbelow & _ & ->).
    destruct (astar_found_facts _ _ _ _ _ _ _ _ Hcons Ha)
      as (Hwf_a & Hgoal_a & Hopt_a & fin & -> & Hnd & Hng & Hfin).
    pose proof (ucs_wf_reach _ _ _ Hwf_u) as Hru. rewrite Hgoal_u in Hru.
    specialize (Hopt_a _ Hru).
    apply inj_le. rewrite <- (length_fmap fst fin), <- (length_fmap fst (U.explored st_u)).
    apply keys_length_le; [done|].
    intros q Hq. pose proof Hq as Hq'. apply elem_of_keys in Hq as [c Hc].
    destruct (Hfin _ _ Hc) as [Hreach Hf].
    apply (Hbelow c q Hreach).
    assert (A.manhattan_distance goal goal = 0) as Hz.
    { unfold A.manhattan_distance. lia. }
    assert (A.manhattan_distance q goal <> 0) as Hnz.
    { intros Heq. apply manhattan_zero in Heq. congruence. }
    pose proof (manhattan_nonneg q goal). lia.
  - destruct (ucs_found_facts _ _ _ _ _ _ _ Hu) as (Hwf_u & Hgoal_u & _).
    destruct (astar_exhausted_facts _ _ _ _ _ _ _ Hcons Ha) as (fin & Hall & _ & Hng & _).
    destruct Hng. apply Hall. exists (U.g nu). rewrite <- Hgoal_u.
    by apply ucs_wf_reach.
  - destruct (ucs_exhausted_facts _ _ _ _ _ _ Hu) as (Hall & _ & Hng & _).
    destruct (astar_found_facts _ _ _ _ _ _ _ _ Hcons Ha) as (Hwf_a & Hgoal_a & _).
    destruct Hng. apply Hall. exists (A.g na). rewrite <- Hgoal_a.
    by eapply astar_wf_reach.
  - destruct (ucs_exhausted_facts _ _ _ _ _ _ Hu) as (Hall_u & _ & _ & ->).
    destruct (astar_exhausted_facts _ _ _ _ _ _ _ Hcons Ha)
      as (fin & Hall_a & Hnd & _ & ->).
    apply inj_le. rewrite <- (length_fmap fst fin), <- (length_fmap fst (U.explored st_u)).
    apply keys_length_le; [done|].
    intros q Hq. by apply Hall_u, Hall_a.
Qed.


(** ** Runs that differ in node identities only *)

Section SimulationFacts.
Context {Node State : Type} (node_lt : Node -> Node -> bool).
Variable id1 id2 : nat -> Z.
Hypothesis ids_same_order : same_order id1 id2.

Local Abbreviation sim := (@entry_sim Node id1 id2).

Lemma entry_lt_sim a1 a2 b1 b2 :
  sim a1 a2 -> sim b1 b2 ->
  heapq.entry_lt node_lt a1 b1 = heapq.entry_lt node_lt a2 b2.
Proof using ids_same_order.
  intros (Hp & Hn & i & Hi1 & Hi2) (Hp' & Hn' & j & Hj1 & Hj2).
  unfold heapq.entry_lt. rewrite Hp, Hp', Hn, Hn', Hi1, Hi2, Hj1, Hj2.
  by rewrite (ids_same_order i j), (ids_same_order j i).
Qed.

Lemma extract_min_sim x1 x2 l1 l2 :
  sim x1 x2 -> Forall2 sim l1 l2 ->
  sim (heapq.extract_min node_lt x1 l1).1 (heapq.extract_min node_lt x2 l2).1 /\
  Forall2 sim (heapq.extract_min node_lt x1 l1).2 (heapq.extract_min node_lt x2 l2).2.
Proof using ids_same_order.
  intros Hx Hl. revert x1 x2 Hx.
  induction Hl as [|y1 y2 l1 l2 Hy Hl IH]; intros x1 x2 Hx; simpl; [by split|].
  destruct (IH _ _ Hy) as [Hm Hr].
  destruct (heapq.extract_min node_lt y1 l1) as [m1 r1].
  destruct (heapq.extract_min node_lt y2 l2) as [m2 r2]. simpl in *.
  rewrite (entry_lt_sim m1 m2 x1 x2 Hm Hx).
  destruct (heapq.entry_lt node_lt m2 x2); simpl; split; auto.
Qed.

Lemma heappop_sim F1 F2 :
  Forall2 sim F1 F2 ->
  match heapq.heappop node_lt F1, heapq.heappop node_lt F2 with
  | Some (e1, r1), Some (e2, r2) => sim e1 e2 /\ Forall2 sim r1 r2
  | None, None => True
  | _, _ => False
  end.
Proof using ids_same_order.
  intros [|x1 x2 l1 l2 Hx Hl]; simpl; [done|].
  pose proof (extract_min_sim _ _ _ _ Hx Hl) as H.
  by destruct (heapq.extract_min node_lt x1 l1), (heapq.extract_min node_lt x2 l2).
Qed.

Lemma heappush_sim F1 F2 c k n :
  Forall2 sim F1 F2 ->
  Forall2 sim (heapq.heappush F1 (c, id1 k, n)) (heapq.heappush F2 (c, id2 k, n)).
Proof.
  intros HF. unfold heapq.heappush. apply Forall2_app; [done|].
  constructor; [|constructor]. split; [done|]. split; [done|]. by exists k.
Qed.

Lemma while_loop_sim (R : State -> State -> Prop)
    (it1 it2 : State -> option (Step Node State)) :
  (forall s1 s2, R s1 s2 -> step_sim R (it1 s1) (it2 s2)) ->
  forall fuel s1 s2, R s1 s2 ->
    run_sim R (while_loop it1 fuel s1) (while_loop it2 fuel s2).
Proof.
  intros Hstep. induction fuel as [|fuel IH]; intros s1 s2 HR; simpl; [done|].
  specialize (Hstep _ _ HR). unfold step_sim in Hstep.
  destruct (it1 s1) as [[t1|n1 t1|t1]|], (it2 s2) as [[t2|n2 t2|t2]|]; try done.
  - by apply IH.
  - by destruct Hstep as [-> ?].
Qed.
End SimulationFacts.

Section SearchSimulation.
Variable id1 id2 : nat -> Z.
Hypothesis ids_same_order : same_order id1 id2.
Variable env : Env.
Variable goal : Position.
Variable max_expansions : Z.

Local Abbreviation simU := (@entry_sim U.Node id1 id2).
Local Abbreviation simA := (@entry_sim A.Node id1 id2).

Lemma ucs_visit_sim explored node fr1 fr2 k act :
  Forall2 simU fr1 fr2 ->
  Forall2 simU (U.visit id1 env explored node (fr1, k) act).1
               (U.visit id2 env explored node (fr2, k) act).1 /\
  (U.visit id1 env explored node (fr1, k) act).2 =
  (U.visit id2 env explored node (fr2, k) act).2.
Proof.
  intros HF. rewrite !ucs_visit_eq. simpl.
  destruct (wall_at env (move env (U.position node) act)); [done|].
  destruct (dict_get explored (move env (U.position node) act)) as [v|];
    [destruct (U.g node + 1 <? v)|]; simpl; auto using heappush_sim.
Qed.

Lemma ucs_fold_sim explored node acts fr1 fr2 k :
  Forall2 simU fr1 fr2 ->
  Forall2 simU (fold_left (U.visit id1 env explored node) acts (fr1, k)).1
               (fold_left (U.visit id2 env explored node) acts (fr2, k)).1 /\
  (fold_left (U.visit id1 env explored node) acts (fr1, k)).2 =
  (fold_left (U.visit id2 env explored node) acts (fr2, k)).2.
Proof.
  revert fr1 fr2 k. induction acts as [|a acts IH]; intros fr1 fr2 k HF; simpl; [done|].
  destruct (ucs_visit_sim explored node fr1 fr2 k a HF) as [H1 H2].
  destruct (U.visit id1 env explored node (fr1, k) a) as [fr1' k1].
  destruct (U.visit id2 env explored node (fr2, k) a) as [fr2' k2].
  simpl in *. subst k2. by apply IH.
Qed.

Lemma ucs_iteration_sim s1 s2 :
  ucs_state_sim id1 id2 s1 s2 ->
  step_sim (ucs_state_sim id1 id2)
    (U.iteration id1 env goal max_expansions s1)
    (U.iteration id2 env goal max_expansions s2).
Proof using ids_same_order.
  intros (HF & He & Hp & Hx & Ha). unfold U.iteration.
  pose proof (heappop_sim U.node_lt id1 id2 ids_same_order _ _ HF) as Hpop.
  destruct (heapq.heappop U.node_lt (U.frontier s1)) as [[[[c1 i1] n1] fr1]|],
           (heapq.heappop U.node_lt (U.frontier s2)) as [[[[c2 i2] n2] fr2]|];
    try done.
  destruct Hpop as [(_ & Hn & _) Hfr]. simpl in Hn. subst n2.
  rewrite <- He, <- Hp, <- Hx, <- Ha.
  destruct (decide (U.position n1 = goal)); [by repeat split|].
  destruct (match dict_get (U.explored s1) (U.position n1) with
            | Some v => v <=? U.g n1
            | None => false
            end); [by repeat split|].
  destruct (U.expanded s1 + 1 >? max_expansions); [by repeat split|].
  destruct (ucs_fold_sim (dict_set (U.explored s1) (U.position n1) (U.g n1)) n1
              ACTIONS fr1 fr2 (U.allocated s1) Hfr) as [H1 H2].
  destruct (fold_left (U.visit id1 env _ n1) ACTIONS (fr1, U.allocated s1)) as [f1 k1].
  destruct (fold_left (U.visit id2 env _ n1) ACTIONS (fr2, U.allocated s1)) as [f2 k2].
  simpl in *. subst k2. repeat split; simpl; auto.
  by rewrite (Forall2_length _ _ _ H1).
Qed.

Lemma ucs_search_sim start :
  U.uniformcost_search id1 env goal max_expansions start =
  U.uniformcost_search id2 env goal max_expansions start.
Proof using ids_same_order.
  unfold U.uniformcost_search, U.run.
  assert (ucs_state_sim id1 id2 (U.initial id1 start) (U.initial id2 start)) as Hinit.
  { unfold U.initial. repeat split; simpl.
    apply (heappush_sim id1 id2 [] [] 0 0%nat). constructor. }
  pose proof (while_loop_sim _ _ _ ucs_iteration_sim
                (Datatypes.S (U.budget max_expansions (U.initial id1 start)))
                _ _ Hinit) as H.
  replace (U.budget max_expansions (U.initial id2 start))
    with (U.budget max_expansions (U.initial id1 start)) by done.
  unfold run_sim in H.
  destruct (while_loop (U.iteration id1 env goal max_expansions) _ _) as [[o1 t1]|],
           (while_loop (U.iteration id2 env goal max_expansions) _ _) as [[o2 t2]|];
    try done.
  destruct H as (-> & _ & _ & Hp & Hx & _). simpl. unfold U.result. simpl.
  by rewrite Hp, Hx.
Qed.

Variable heuristic : Position -> Position -> Z.

Lemma astar_visit_sim explored node fr1 fr2 k act :
  Forall2 simA fr1 fr2 ->
  Forall2 simA (A.visit id1 env goal heuristic explored node (fr1, k) act).1
               (A.visit id2 env goal heuristic explored node (fr2, k) act).1 /\
  (A.visit id1 env goal heuristic explored node (fr1, k) act).2 =
  (A.visit id2 env goal heuristic explored node (fr2, k) act).2.
Proof.
  intros HF. rewrite !astar_visit_eq. simpl.
  destruct (wall_at env (move env (A.position node) act)); [done|].
  destruct (decide (move env (A.position node) act ∈ explored)); simpl;
    auto using heappush_sim.
Qed.

Lemma astar_fold_sim explored node acts fr1 fr2 k :
  Forall2 simA fr1 fr2 ->
  Forall2 simA (fold_left (A.visit id1 env goal heuristic explored node) acts (fr1, k)).1
               (fold_left (A.visit id2 env goal heuristic explored node) acts (fr2, k)).1 /\
  (fold_left (A.visit id1 env goal heuristic explored node) acts (fr1, k)).2 =
  (fold_left (A.visit id2 env goal heuristic explored node) acts (fr2, k)).2.
Proof.
  revert fr1 fr2 k. induction acts as [|a acts IH]; intros fr1 fr2 k HF; simpl; [done|].
  destruct (astar_visit_sim explored node fr1 fr2 k a HF) as [H1 H2].
  destruct (A.visit id1 env goal heuristic explored node (fr1, k) a) as [fr1' k1].
  destruct (A.visit id2 env goal heuristic explored node (fr2, k) a) as [fr2' k2].
  simpl in *. subst k2. by apply IH.
Qed.

Lemma astar_iteration_sim s1 s2 :
  astar_state_sim id1 id2 s1 s2 ->
  step_sim (astar_state_sim id1 id2)
    (A.iteration id1 env goal heuristic max_expansions s1)
    (A.iteration id2 env goal heuristic max_expansions s2).
Proof using ids_same_order.
  intros (HF & He & Hp & Hx & Ha). unfold A.iteration.
  pose proof (heappop_sim A.node_lt id1 id2 ids_same_order _ _ HF) as Hpop.
  destruct (heapq.heappop A.node_lt (A.frontier s1)) as [[[[c1 i1] n1] fr1]|],
           (heapq.heappop A.node_lt (A.frontier s2)) as [[[[c2 i2] n2] fr2]|];
    try done.
  destruct Hpop as [(_ & Hn & _) Hfr]. simpl in Hn. subst n2.
  rewrite <- He, <- Hp, <- Hx, <- Ha.
  destruct (decide (A.position n1 = goal)); [by repeat split|].
  destruct (decide (A.position n1 ∈ A.explored s1)); [by repeat split|].
  destruct (A.expanded s1 + 1 >? max_expansions); [by repeat split|].
  destruct (astar_fold_sim (A.explored s1 ∪ {[A.position n1]}) n1
              ACTIONS fr1 fr2 (A.allocated s1) Hfr) as [H1 H2].
  destruct (fold_left (A.visit id1 env goal heuristic _ n1) ACTIONS (fr1, A.allocated s1))
    as [f1 k1].
  destruct (fold_left (A.visit id2 env goal heuristic _ n1) ACTIONS (fr2, A.allocated s1))
    as [f2 k2].
  simpl in *. subst k2. repeat split; simpl; auto.
  by rewrite (Forall2_length _ _ _ H1).
Qed.

Lemma astar_search_sim start :
  A.astar_search id1 env goal heuristic max_expansions start =
  A.astar_search id2 env goal heuristic max_expansions start.
Proof using ids_same_order.
  unfold A.astar_search, A.run.
  assert (astar_state_sim id1 id2 (A.initial id1 goal heuristic start)
            (A.initial id2 goal heuristic start)) as Hinit.
  { unfold A.initial. repeat split; simpl.
    apply (heappush_sim id1 id2 [] [] _ 0%nat). constructor. }
  pose proof (while_loop_sim _ _ _ astar_iteration_sim
                (Datatypes.S (A.budget max_expansions (A.initial id1 goal heuristic start)))
                _ _ Hinit) as H.
  replace (A.budget max_expansions (A.initial id2 goal heuristic start))
    with (A.budget max_expansions (A.initial id1 goal heuristic start)) by done.
  unfold run_sim in H.
  destruct (while_loop (A.iteration id1 env goal heuristic max_expansions) _ _)
    as [[o1 t1]|],
           (while_loop (A.iteration id2 env goal heuristic max_expansions) _ _)
    as [[o2 t2]|]; try done.
  destruct H as (-> & _ & _ & Hp & Hx & _). simpl. unfold A.result. simpl.
  by rewrite Hp, Hx.
Qed.
End SearchSimulation.

(** ** Ties in the frontier *)

Section TieFacts.
Context {Node : Type} (node_lt : Node -> Node -> bool).
Implicit Types (x y m e : @heapq.Entry Node) (l F : list (@heapq.Entry Node)).

Lemma entry_lt_true_lex x y :
  heapq.entry_lt node_lt x y = true ->
  heapq.priority x < heapq.priority y \/
  heapq.priority x = heapq.priority y /\ heapq.ident_of x <= heapq.ident_of y.
Proof.
  unfold heapq.entry_lt.
  destruct (Z.ltb_spec (heapq.priority x) (heapq.priority y)); [lia|].
  destruct (Z.ltb_spec (heapq.priority y) (heapq.priority x)); [discriminate|].
  destruct (Z.ltb_spec (heapq.ident_of x) (heapq.ident_of y)); [lia|].
  destruct (Z.ltb_spec (heapq.ident_of y) (heapq.ident_of x)); [discriminate|lia].
Qed.

Lemma entry_lt_false_lex x y :
  heapq.entry_lt node_lt x y = false ->
  heapq.priority y < heapq.priority x \/
  heapq.priority y = heapq.priority x /\ heapq.ident_of y <= heapq.ident_of x.
Proof.
  unfold heapq.entry_lt.
  destruct (Z.ltb_spec (heapq.priority x) (heapq.priority y)); [discriminate|].
  destruct (Z.ltb_spec (heapq.priority y) (heapq.priority x)); [lia|].
  destruct (Z.ltb_spec (heapq.ident_of x) (heapq.ident_of y)); [discriminate|lia].
Qed.

Lemma extract_min_lex x l m rest :
  heapq.extract_min node_lt x l = (m, rest) ->
  forall e, e ∈ rest ->
    heapq.priority m < heapq.priority e \/
    heapq.priority m = heapq.priority e /\ heapq.ident_of m <= heapq.ident_of e.
Proof.
  revert x m rest. induction l as [|y l IH]; intros x m rest; simpl.
  - intros [= <- <-] e He. inversion He.
  - destruct (heapq.extract_min node_lt y l) as [m' r'] eqn:Hm.
    pose proof (IH _ _ _ Hm) as Hleast.
    pose proof (extract_min_perm _ _ _ _ _ Hm) as Hperm.
    destruct (heapq.entry_lt node_lt m' x) eqn:Hlt.
    + intros [= <- <-] e He.
      apply elem_of_cons in He as [->|He]; [by apply entry_lt_true_lex|by apply Hleast].
    + intros [= <- <-] e He. apply entry_lt_false_lex in Hlt.
      rewrite Hperm in He.
      apply elem_of_cons in He as [->|He]; [done|].
      specialize (Hleast _ He). lia.
Qed.

Lemma heappop_lex F e F' :
  heapq.heappop node_lt F = Some (e, F') ->
  forall e', e' ∈ F' ->
    heapq.priority e < heapq.priority e' \/
    heapq.priority e = heapq.priority e' /\ heapq.ident_of e <= heapq.ident_of e'.
Proof.
  destruct F as [|x l]; simpl; [discriminate|].
  intros [= H]. by eapply extract_min_lex.
Qed.

(** Any entry that is least by priority and identity has the priority
    and identity of the popped one: with identities that are distinct in
    the heap, what [heappop] returns does not depend on the layout of
    the heap. *)
Lemma heappop_least_unique F m rest e :
  heapq.heappop node_lt F = Some (m, rest) ->
  e ∈ F ->
  (forall e', e' ∈ F ->
     heapq.priority e < heapq.priority e' \/
     heapq.priority e = heapq.priority e' /\ heapq.ident_of e <= heapq.ident_of e') ->
  heapq.priority e = heapq.priority m /\ heapq.ident_of e = heapq.ident_of m.
Proof.
  intros Hpop He Hleast.
  assert (m ∈ F) as Hm by (apply (heappop_elem_of _ _ _ _ Hpop); by left).
  specialize (Hleast _ Hm).
  apply (heappop_elem_of _ _ _ _ Hpop) in He as [->|He]; [done|].
  pose proof (heappop_lex _ _ _ Hpop _ He). lia.
Qed.
End TieFacts.

(** C4, as the code has it.  The tie-break key of a frontier entry is
    [id(node)]: among the entries of least priority the one popped has
    the least identity.  Two calls with the same start, goal, environment
    and cap whose nodes get identities in the same relative order return
    the same path and the same statistics. *)
Theorem same_identity_order_same_result
    id1 id2 env goal heuristic max_expansions start :
  same_order id1 id2 ->
  U.uniformcost_search id1 env goal max_expansions start =
    U.uniformcost_search id2 env goal max_expansions start /\
  A.astar_search id1 env goal heuristic max_expansions start =
    A.astar_search id2 env goal heuristic max_expansions start /\
  (forall F e F', U.heappop F = Some (e, F') ->
     forall e', e' ∈ F' -> heapq.priority e = heapq.priority e' ->
       heapq.ident_of e <= heapq.ident_of e') /\
  (forall F e F', A.heappop F = Some (e, F') ->
     forall e', e' ∈ F' -> heapq.priority e = heapq.priority e' ->
       heapq.ident_of e <= heapq.ident_of e').
Proof.
  intros Hsame. split; [by apply ucs_search_sim|]. split; [by apply astar_search_sim|].
  split; intros F e F' Hpop e' He' Heq;
    destruct (heappop_lex _ _ _ _ Hpop e' He'); lia.
Qed.

Lemma ident_up_addr_same_order : same_order ident_up ident_addr.
Proof.
  intros i j. unfold ident_up, ident_addr.
  destruct (Z.ltb_spec (Z.of_nat i) (Z.of_nat j)),
           (Z.ltb_spec (140000 + 64 * Z.of_nat i) (140000 + 64 * Z.of_nat j)); lia.
Qed.

Lemma same_identity_order_same_result_witness :
  same_order ident_up ident_addr /\
  U.uniformcost_search ident_up (grid_env 3 3 []) (2, 1) 10000 (0, 0) =
    U.uniformcost_search ident_addr (grid_env 3 3 []) (2, 1) 10000 (0, 0) /\
  A.astar_search ident_up (grid_env 3 3 []) (2, 1) A.manhattan_distance 10000 (0, 0) =
    A.astar_search ident_addr (grid_env 3 3 []) (2, 1) A.manhattan_distance 10000 (0, 0) /\
  (forall F e F', U.heappop F = Some (e, F') ->
     forall e', e' ∈ F' -> heapq.priority e = heapq.priority e' ->
       heapq.ident_of e <= heapq.ident_of e') /\
  (forall F e F', A.heappop F = Some (e, F') ->
     forall e', e' ∈ F' -> heapq.priority e = heapq.priority e' ->
       heapq.ident_of e <= heapq.ident_of e').
Proof.
  split; [exact ident_up_addr_same_order|].
  apply (same_identity_order_same_result ident_up ident_addr (grid_env 3 3 []) (2, 1)
           A.manhattan_distance 10000 (0, 0)).
  exact ident_up_addr_same_order.
Defined.

(** C4, as stated, fails: nothing ties [id(node)] to insertion order.
    With identities that grow with allocation and with identities that
    shrink, the same call returns different paths and different counts
    of expansions, for the uniform-cost search on the open 3x3 grid and
    for A* on the open 2x2 grid. *)
Lemma identity_order_changes_result :
  U.uniformcost_search ident_up (grid_env 3 3 []) (2, 1) 10000 (0, 0) =
    Some (Some [(0, 0); (0, 1); (1, 1); (2, 1)],
          {| nodes_expanded := 7; path_length := Some 4; frontier_peak := 5 |}) /\
  U.uniformcost_search ident_down (grid_env 3 3 []) (2, 1) 10000 (0, 0) =
    Some (Some [(0, 0); (1, 0); (2, 0); (2, 1)],
          {| nodes_expanded := 6; path_length := Some 4; frontier_peak := 5 |}) /\
  A.astar_search ident_up (grid_env 2 2 []) (1, 1) A.manhattan_distance 10000 (0, 0) =
    Some (Some [(0, 0); (0, 1); (1, 1)],
          {| nodes_expanded := 3; path_length := Some 3; frontier_peak := 2 |}) /\
  A.astar_search ident_down (grid_env 2 2 []) (1, 1) A.manhattan_distance 10000 (0, 0) =
    Some (Some [(0, 0); (1, 0); (1, 1)],
          {| nodes_expanded := 2; path_length := Some 3; frontier_peak := 2 |}) /\
  U.uniformcost_search ident_up (grid_env 3 3 []) (2, 1) 10000 (0, 0) <>
    U.uniformcost_search ident_down (grid_env 3 3 []) (2, 1) 10000 (0, 0) /\
  A.astar_search ident_up (grid_env 2 2 []) (1, 1) A.manhattan_distance 10000 (0, 0) <>
    A.astar_search ident_down (grid_env 2 2 []) (1, 1) A.manhattan_distance 10000 (0, 0).
Proof.
  split_and!; try (vm_compute; reflexivity); vm_compute; discriminate.
Qed.

(** ** The properties on concrete grids *)

Lemma grid_cardinal rows cols obstacles : cardinal (grid_env rows cols obstacles).
Proof. intros []; reflexivity. Qed.

Lemma returned_path_valid_witness :
  _is_wall (grid_env 2 2 []) 0 0 = false /\
  (U.uniformcost_search ident_up (grid_env 2 2 []) (1, 1) 10000 (0, 0) =
     Some (Some [(0, 0); (0, 1); (1, 1)],
           {| nodes_expanded := 3; path_length := Some 3; frontier_peak := 2 |}) \/
   A.astar_search ident_up (grid_env 2 2 []) (1, 1) A.manhattan_distance 10000 (0, 0) =
     Some (Some [(0, 0); (0, 1); (1, 1)],
           {| nodes_expanded := 3; path_length := Some 3; frontier_peak := 2 |})) /\
  head [(0, 0); (0, 1); (1, 1)] = Some (0, 0) /\
  last [(0, 0); (0, 1); (1, 1)] = Some (1, 1) /\
  (forall (i : nat) a b,
     [(0, 0); (0, 1); (1, 1)] !! i = Some a ->
     [(0, 0); (0, 1); (1, 1)] !! Datatypes.S i = Some b ->
     exists act, act ∈ ACTIONS /\
       b = (fst a + fst (MOVE_DELTAS (grid_env 2 2 []) act),
            snd a + snd (MOVE_DELTAS (grid_env 2 2 []) act))) /\
  (forall a, a ∈ [(0, 0); (0, 1); (1, 1)] ->
     _is_wall (grid_env 2 2 []) (fst a) (snd a) = false).
Proof.
  assert (U.uniformcost_search ident_up (grid_env 2 2 []) (1, 1) 10000 (0, 0) =
            Some (Some [(0, 0); (0, 1); (1, 1)],
                  {| nodes_expanded := 3; path_length := Some 3; frontier_peak := 2 |}))
    as H by (vm_compute; reflexivity).
  split; [reflexivity|]. split; [by left|].
  apply (returned_path_valid ident_up (grid_env 2 2 []) (1, 1) A.manhattan_distance
           10000 (0, 0) _
           {| nodes_expanded := 3; path_length := Some 3; frontier_peak := 2 |});
    [reflexivity|by left].
Defined.

Lemma ucs_finalizes_optimally_witness :
  U.uniformcost_search ident_up (grid_env 2 2 []) (1, 1) 10000 (0, 0) =
    Some (Some [(0, 0); (0, 1); (1, 1)],
          {| nodes_expanded := 3; path_length := Some 3; frontier_peak := 2 |}) /\
  exists node st,
    U.run ident_up (grid_env 2 2 []) (1, 1) 10000 (0, 0) = Some (Found node, st) /\
    [(0, 0); (0, 1); (1, 1)] = U.path node /\
    StronglySorted Z.le (U.explored st).*2 /\
    NoDup (U.explored st).*1 /\
    3 = Z.of_nat (length (U.explored st)) /\
    (forall q c, (q, c) ∈ U.explored st ->
       reach (grid_env 2 2 []) (0, 0) c q /\
       forall k, reach (grid_env 2 2 []) (0, 0) k q -> c <= k) /\
    route (grid_env 2 2 []) (0, 0) [(0, 0); (0, 1); (1, 1)] (1, 1) /\
    (forall l, route (grid_env 2 2 []) (0, 0) l (1, 1) ->
       (length [(0, 0); (0, 1); (1, 1)] <= length l)%nat).
Proof.
  assert (U.uniformcost_search ident_up (grid_env 2 2 []) (1, 1) 10000 (0, 0) =
            Some (Some [(0, 0); (0, 1); (1, 1)],
                  {| nodes_expanded := 3; path_length := Some 3; frontier_peak := 2 |}))
    as H by (vm_compute; reflexivity).
  split; [exact H|].
  exact (ucs_finalizes_optimally ident_up (grid_env 2 2 []) (1, 1) 10000 (0, 0) _ _ H).
Defined.

Lemma ucs_astar_equal_length_witness :
  cardinal (grid_env 3 3 []) /\
  U.uniformcost_search ident_up (grid_env 3 3 []) (2, 1) 10000 (0, 0) =
    Some (Some [(0, 0); (0, 1); (1, 1); (2, 1)],
          {| nodes_expanded := 7; path_length := Some 4; frontier_peak := 5 |}) /\
  A.astar_search ident_down (grid_env 3 3 []) (2, 1) A.manhattan_distance 10000 (0, 0) =
    Some (Some [(0, 0); (1, 0); (2, 0); (2, 1)],
          {| nodes_expanded := 3; path_length := Some 4; frontier_peak := 3 |}) /\
  length [(0, 0); (0, 1); (1, 1); (2, 1)] = length [(0, 0); (1, 0); (2, 0); (2, 1)].
Proof.
  assert (U.uniformcost_search ident_up (grid_env 3 3 []) (2, 1) 10000 (0, 0) =
            Some (Some [(0, 0); (0, 1); (1, 1); (2, 1)],
                  {| nodes_expanded := 7; path_length := Some 4; frontier_peak := 5 |}))
    as Hu by (vm_compute; reflexivity).
  assert (A.astar_search ident_down (grid_env 3 3 []) (2, 1) A.manhattan_distance
            10000 (0, 0) =
            Some (Some [(0, 0); (1, 0); (2, 0); (2, 1)],
                  {| nodes_expanded := 3; path_length := Some 4; frontier_peak := 3 |}))
    as Ha by (vm_compute; reflexivity).
  split; [apply grid_cardinal|]. split; [exact Hu|]. split; [exact Ha|].
  exact (ucs_astar_equal_length ident_up ident_down (grid_env 3 3 []) (2, 1)
           10000 10000 (0, 0) _ _ _ _ (grid_cardinal 3 3 []) Hu Ha).
Defined.

Lemma astar_expands_no_more_witness :
  exists out_u st_u out_a st_a,
    cardinal (grid_env 3 3 []) /\
    U.run ident_up (grid_env 3 3 []) (2, 1) 10000 (0, 0) = Some (out_u, st_u) /\
    A.run ident_down (grid_env 3 3 []) (2, 1) A.manhattan_distance 10000 (0, 0)
      = Some (out_a, st_a) /\
    out_u <> Aborted /\
    out_a <> Aborted /\
    nodes_expanded (snd (A.result (out_a, st_a))) <=
    nodes_expanded (snd (U.result (out_u, st_u))).
Proof.
  eexists _, _, _, _.
  split; [apply grid_cardinal|].
  split; [vm_compute; reflexivity|]. split; [vm_compute; reflexivity|].
  split; [discriminate|]. split; [discriminate|].
  apply (astar_expands_no_more ident_up ident_down (grid_env 3 3 []) (2, 1)
           10000 10000 (0, 0));
    [apply grid_cardinal|vm_compute; reflexivity|vm_compute; reflexivity
    |discriminate|discriminate].
Defined.

(** The two cells of the 2x1 grid are all that its corner reaches. *)
Lemma column_reach k q :
  reach (grid_env 2 1 []) (0, 0) k q -> q ∈ [(0, 0); (1, 0)].
Proof.
  induction 1 as [|k p act _ _ Hwall]; [left|].
  destruct (move (grid_env 2 1 []) p act) as [r c].
  unfold wall_at in Hwall. simpl in Hwall.
  apply orb_false_iff in Hwall as [Hin _]. apply negb_false_iff in Hin.
  rewrite !andb_true_iff in Hin. destruct Hin as [[[H1 H2] H3] H4].
  apply Z.leb_le in H1, H3. apply Z.ltb_lt in H2, H4.
  assert (c = 0) as -> by lia.
  assert (r = 0 \/ r = 1) as [-> | ->] by lia; [left|right; left].
Qed.

Lemma column_reachable q :
  q ∈ [(0, 0); (1, 0)] <-> reachable (grid_env 2 1 []) (0, 0) q.
Proof.
  split.
  - intros Hq. apply elem_of_cons in Hq as [->|Hq].
    + exists 0. constructor.
    + apply list_elem_of_singleton in Hq as ->. exists (0 + 1).
      apply (reach_move (grid_env 2 1 []) (0, 0) 0 (0, 0) S); [constructor|reflexivity].
  - intros [k Hk]. by eapply column_reach.
Qed.



(** The scenarios of the specification, run on the model: the open 5x5
    grid from corner to corner, and a goal walled off in the corner of a
    3x3 grid. *)
Example open_grid_5x5 :
  U.uniformcost_search ident_up (grid_env 5 5 []) (4, 4) 10000 (0, 0) =
    Some (Some [(0, 0); (0, 1); (0, 2); (0, 3); (0, 4); (1, 4); (2, 4); (3, 4); (4, 4)],
          {| nodes_expanded := 24; path_length := Some 9; frontier_peak := 9 |}) /\
  A.astar_search ident_up (grid_env 5 5 []) (4, 4) A.manhattan_distance 10000 (0, 0) =
    Some (Some [(0, 0); (0, 1); (0, 2); (0, 3); (0, 4); (1, 4); (2, 4); (3, 4); (4, 4)],
          {| nodes_expanded := 24; path_length := Some 9; frontier_peak := 9 |}).
Proof. split; vm_compute; reflexivity. Qed.

Example walled_off_goal :
  U.uniformcost_search ident_up (grid_env 3 3 [(1, 2); (2, 1)]) (2, 2) 10000 (0, 0) =
    Some (None, {| nodes_expanded := 6; path_length := None; frontier_peak := 4 |}) /\
  A.astar_search ident_up (grid_env 3 3 [(1, 2); (2, 1)]) (2, 2)
    A.manhattan_distance 10000 (0, 0) =
    Some (None, {| nodes_expanded := 6; path_length := None; frontier_peak := 4 |}).
Proof. split; vm_compute; reflexivity. Qed.

(** * Further properties of the two searches *)

(** ** The Manhattan distance *)

(** X1.  [manhattan_distance] is a metric on cells: it is symmetric, it
    is zero exactly on equal cells, and it obeys the triangle
    inequality. *)
Theorem manhattan_metric (p q r : Position) :
  A.manhattan_distance p q = A.manhattan_distance q p /\
  (A.manhattan_distance p q = 0 <-> p = q) /\
  A.manhattan_distance p r <= A.manhattan_distance p q + A.manhattan_distance q r.
Proof.
  destruct p as [p1 p2], q as [q1 q2], r as [r1 r2].
  unfold A.manhattan_distance. simpl. split; [lia|]. split; [|lia].
  split; [intros H; f_equal; lia|intros [= -> ->]; lia].
Qed.

Lemma manhattan_move env p q act :
  cardinal env ->
  A.manhattan_distance p (move env q act) <= A.manhattan_distance p q + 1.
Proof.
  intros Hc. specialize (Hc act). destruct p as [p1 p2], q as [q1 q2].
  unfold A.manhattan_distance, move.
  destruct (MOVE_DELTAS env act) as [dr dc]. simpl in *. lia.
Qed.

(** X2.  With cardinal moves the Manhattan distance is admissible: it
    never exceeds the number of moves of a route between the two
    cells. *)
Theorem manhattan_admissible env p q k :
  cardinal env ->
  reach env p k q ->
  A.manhattan_distance p q <= k /\ A.manhattan_distance q p <= k.
Proof.
  intros Hc Hr.
  assert (A.manhattan_distance p q <= k) as H.
  { induction Hr as [|k q act Hr IH Hwall].
    - unfold A.manhattan_distance. lia.
    - pose proof (manhattan_move env p q act Hc). lia. }
  split; [done|]. by rewrite (proj1 (manhattan_metric q p p)).
Qed.

Lemma manhattan_admissible_witness :
  cardinal (grid_env 2 2 []) /\
  reach (grid_env 2 2 []) (0, 0) (0 + 1 + 1) (1, 1) /\
  A.manhattan_distance (0, 0) (1, 1) <= 0 + 1 + 1 /\
  A.manhattan_distance (1, 1) (0, 0) <= 0 + 1 + 1.
Proof.
  assert (reach (grid_env 2 2 []) (0, 0) (0 + 1 + 1) (1, 1)) as Hr.
  { apply (reach_move (grid_env 2 2 []) (0, 0) (0 + 1) (0, 1) S); [|reflexivity].
    apply (reach_move (grid_env 2 2 []) (0, 0) 0 (0, 0) E); [constructor|reflexivity]. }
  split; [apply grid_cardinal|]. split; [exact Hr|].
  exact (manhattan_admissible (grid_env 2 2 []) (0, 0) (1, 1) (0 + 1 + 1)
           (grid_cardinal 2 2 []) Hr).
Defined.

(** ** Counters *)

Lemma ucs_counts_post ident env goal max_expansions start fuel out st :
  while_loop (U.iteration ident env goal max_expansions) fuel (U.initial ident start)
    = Some (out, st) ->
  1 <= U.peak st <= 3 * U.expanded st + 1 /\
  0 <= U.expanded st /\
  match out with
  | Found node => U.g node <= U.expanded st
  | _ => True
  end.
Proof.
  apply (while_loop_post (U.iteration ident env goal max_expansions)
           (fun st =>
              1 <= U.peak st <= 3 * U.expanded st + 1 /\
              0 <= U.expanded st /\
              Z.of_nat (length (U.frontier st)) <= 3 * U.expanded st + 1 /\
              Forall (fun e => U.g (heapq.node_of e) <= U.expanded st) (U.frontier st))
           (fun out st =>
              1 <= U.peak st <= 3 * U.expanded st + 1 /\
              0 <= U.expanded st /\
              match out with
              | Found node => U.g node <= U.expanded st
              | _ => True
              end)).
  - intros s (Hp & Hx & _) _. done.
  - intros s s' (Hp & Hx & Hlen & Hg) Hit.
    pose proof (ucs_iteration_cases ident env goal max_expansions s) as H.
    rewrite Hit in H.
    destruct H as (e & fr & Hpop & _ & [[_ ->]|(_ & _ & fr' & k & Hfold & ->)]);
      pose proof (heappop_length _ _ _ _ Hpop) as Hl;
      rewrite (heappop_perm _ _ _ _ Hpop) in Hg; apply Forall_cons in Hg as [Hge Hg];
      simpl.
    + split; [done|]. split; [done|]. split; [lia|done].
    + apply (ucs_visit_fold ident env start) in Hfold
        as (added & -> & Hadd & Hch & _).
      rewrite length_app. simpl in Hadd.
      split; [lia|]. split; [lia|]. split; [lia|].
      apply Forall_app. split.
      * eapply Forall_impl; [exact Hg|]. simpl. intros; lia.
      * eapply Forall_impl; [exact Hch|]. simpl.
        intros e' (act & _ & _ & Hg' & _). lia.
  - intros s n s' (Hp & Hx & Hlen & Hg) Hit.
    pose proof (ucs_iteration_cases ident env goal max_expansions s) as H.
    rewrite Hit in H. destruct H as (e & fr & Hpop & -> & _ & ->). simpl.
    rewrite (heappop_perm _ _ _ _ Hpop) in Hg. apply Forall_cons in Hg as [Hge Hg].
    done.
  - intros s s' (Hp & Hx & Hlen & Hg) Hit.
    pose proof (ucs_iteration_cases ident env goal max_expansions s) as H.
    rewrite Hit in H. destruct H as (e & fr & Hpop & _ & _ & _ & ->). simpl.
    split; [lia|]. split; [lia|done].
  - unfold U.initial, heapq.heappush. simpl.
    split; [lia|]. split; [lia|]. split; [lia|]. by repeat constructor.
Qed.

Lemma astar_counts_post ident env goal heuristic max_expansions start fuel out st :
  while_loop (A.iteration ident env goal heuristic max_expansions) fuel
    (A.initial ident goal heuristic start) = Some (out, st) ->
  1 <= A.peak st <= 3 * A.expanded st + 1 /\
  0 <= A.expanded st /\
  match out with
  | Found node => A.g node <= A.expanded st
  | _ => True
  end.
Proof.
  apply (while_loop_post (A.iteration ident env goal heuristic max_expansions)
           (fun st =>
              1 <= A.peak st <= 3 * A.expanded st + 1 /\
              0 <= A.expanded st /\
              Z.of_nat (length (A.frontier st)) <= 3 * A.expanded st + 1 /\
              Forall (fun e => A.g (heapq.node_of e) <= A.expanded st) (A.frontier st))
           (fun out st =>
              1 <= A.peak st <= 3 * A.expanded st + 1 /\
              0 <= A.expanded st /\
              match out with
              | Found node => A.g node <= A.expanded st
              | _ => True
              end)).
  - intros s (Hp & Hx & _) _. done.
  - intros s s' (Hp & Hx & Hlen & Hg) Hit.
    pose proof (astar_iteration_cases ident env goal heuristic max_expansions s) as H.
    rewrite Hit in H.
    destruct H as (e & fr & Hpop & _ & [[_ ->]|(_ & _ & fr' & k & Hfold & ->)]);
      pose proof (heappop_length _ _ _ _ Hpop) as Hl;
      rewrite (heappop_perm _ _ _ _ Hpop) in Hg; apply Forall_cons in Hg as [Hge Hg];
      simpl.
    + split; [done|]. split; [done|]. split; [lia|done].
    + apply (astar_visit_fold ident env goal heuristic start) in Hfold
        as (added & -> & Hadd & Hch & _).
      rewrite length_app. simpl in Hadd.
      split; [lia|]. split; [lia|]. split; [lia|].
      apply Forall_app. split.
      * eapply Forall_impl; [exact Hg|]. simpl. intros; lia.
      * eapply Forall_impl; [exact Hch|]. simpl.
        intros e' (act & _ & _ & Hg' & _). lia.
  - intros s n s' (Hp & Hx & Hlen & Hg) Hit.
    pose proof (astar_iteration_cases ident env goal heuristic max_expansions s) as H.
    rewrite Hit in H. destruct H as (e & fr & Hpop & -> & _ & ->). simpl.
    rewrite (heappop_perm _ _ _ _ Hpop) in Hg. apply Forall_cons in Hg as [Hge Hg].
    done.
  - intros s s' (Hp & Hx & Hlen & Hg) Hit.
    pose proof (astar_iteration_cases ident env goal heuristic max_expansions s) as H.
    rewrite Hit in H. destruct H as (e & fr & Hpop & _ & _ & _ & ->). simpl.
    split; [lia|]. split; [lia|done].
  - unfold A.initial, heapq.heappush. simpl.
    split; [lia|]. split; [lia|]. split; [lia|]. by repeat constructor.
Qed.

(** X3.  The peak frontier size either search reports is at least 1 and
    at most three times the reported expansions plus one: the frontier
    starts with one entry and an expansion pops one entry and pushes four
    at most. *)
Theorem frontier_peak_bounds ident env goal heuristic max_expansions start p s :
  U.uniformcost_search ident env goal max_expansions start = Some (p, s) \/
  A.astar_search ident env goal heuristic max_expansions start = Some (p, s) ->
  0 <= nodes_expanded s /\
  1 <= frontier_peak s <= 3 * nodes_expanded s + 1.
Proof.
  intros [H|H].
  - apply ucs_search_run in H as (out & st & Hrun & Hres).
    apply ucs_counts_post in Hrun as (Hp & Hx & _).
    unfold U.result in Hres. simpl in Hres.
    destruct out; injection Hres as <- <-; simpl; lia.
  - apply astar_search_run in H as (out & st & Hrun & Hres).
    apply astar_counts_post in Hrun as (Hp & Hx & _).
    unfold A.result in Hres. simpl in Hres.
    destruct out; injection Hres as <- <-; simpl; lia.
Qed.

Lemma frontier_peak_bounds_witness :
  (U.uniformcost_search ident_up (grid_env 3 3 []) (2, 1) 10000 (0, 0) =
     Some (Some [(0, 0); (0, 1); (1, 1); (2, 1)],
           {| nodes_expanded := 7; path_length := Some 4; frontier_peak := 5 |}) \/
   A.astar_search ident_up (grid_env 3 3 []) (2, 1) A.manhattan_distance 10000 (0, 0) =
     Some (Some [(0, 0); (0, 1); (1, 1); (2, 1)],
           {| nodes_expanded := 7; path_length := Some 4; frontier_peak := 5 |})) /\
  0 <= 7 /\ 1 <= 5 <= 3 * 7 + 1.
Proof.
  assert (U.uniformcost_search ident_up (grid_env 3 3 []) (2, 1) 10000 (0, 0) =
            Some (Some [(0, 0); (0, 1); (1, 1); (2, 1)],
                  {| nodes_expanded := 7; path_length := Some 4; frontier_peak := 5 |}))
    as H by (vm_compute; reflexivity).
  split; [by left|].
  exact (frontier_peak_bounds ident_up (grid_env 3 3 []) (2, 1) A.manhattan_distance
           10000 (0, 0) _ _ (or_introl H)).
Defined.

(** X4.  A returned path has at least one cell and at most one cell more
    than the reported expansions, and the reported [path_length] is its
    number of cells: every cell before the last was expanded first. *)
Theorem path_length_within_expansions
    ident env goal heuristic max_expansions start p s :
  U.uniformcost_search ident env goal max_expansions start = Some (Some p, s) \/
  A.astar_search ident env goal heuristic max_expansions start = Some (Some p, s) ->
  path_length s = Some (Z.of_nat (length p)) /\
  1 <= Z.of_nat (length p) <= nodes_expanded s + 1.
Proof.
  intros [H|H].
  - apply ucs_search_run in H as (out & st & Hrun & Hres).
    apply ucs_result_found in Hres as (node & -> & -> & Hn & Hl).
    pose proof (ucs_counts_post _ _ _ _ _ _ _ _ Hrun) as (_ & _ & Hg).
    apply ucs_loop_post in Hrun as (F & e & _ & _ & _ & Hwf & _).
    pose proof (ucs_path_length _ _ _ Hwf).
    pose proof (reach_nonneg _ _ _ _ (ucs_wf_reach _ _ _ Hwf)).
    split; [done|]. lia.
  - apply astar_search_run in H as (out & st & Hrun & Hres).
    apply astar_result_found in Hres as (node & -> & -> & Hn & Hl).
    pose proof (astar_counts_post _ _ _ _ _ _ _ _ _ Hrun) as (_ & _ & Hg).
    apply astar_found_wf in Hrun as [Hwf _].
    pose proof (astar_path_length _ _ _ _ _ Hwf).
    pose proof (reach_nonneg _ _ _ _ (astar_wf_reach _ _ _ _ _ Hwf)).
    split; [done|]. lia.
Qed.

Lemma path_length_within_expansions_witness :
  (U.uniformcost_search ident_up (grid_env 3 3 []) (2, 1) 10000 (0, 0) =
     Some (Some [(0, 0); (0, 1); (1, 1); (2, 1)],
           {| nodes_expanded := 7; path_length := Some 4; frontier_peak := 5 |}) \/
   A.astar_search ident_up (grid_env 3 3 []) (2, 1) A.manhattan_distance 10000 (0, 0) =
     Some (Some [(0, 0); (0, 1); (1, 1); (2, 1)],
           {| nodes_expanded := 7; path_length := Some 4; frontier_peak := 5 |})) /\
  Some 4 = Some (Z.of_nat (length [(0, 0); (0, 1); (1, 1); (2, 1)])) /\
  1 <= Z.of_nat (length [(0, 0); (0, 1); (1, 1); (2, 1)]) <= 7 + 1.
Proof.
  assert (U.uniformcost_search ident_up (grid_env 3 3 []) (2, 1) 10000 (0, 0) =
            Some (Some [(0, 0); (0, 1); (1, 1); (2, 1)],
                  {| nodes_expanded := 7; path_length := Some 4; frontier_peak := 5 |}))
    as H by (vm_compute; reflexivity).
  split; [by left|].
  exact (path_length_within_expansions ident_up (grid_env 3 3 []) (2, 1)
           A.manhattan_distance 10000 (0, 0) _ _ (or_introl H)).
Defined.

(** ** Returned paths are simple *)

Section RouteSplice.
Variable env : Env.
Variable start : Position.

Lemma route_snoc_inv l y q v :
  route env start ((l ++ [q]) ++ [y]) v ->
  route env start (l ++ [q]) q /\
  v = y /\ exists act, y = move env q act /\ wall_at env y = false.
Proof.
  intros (Hhd & Hlast & Hstep).
  rewrite last_snoc in Hlast. injection Hlast as <-.
  assert (length (l ++ [q]) = Datatypes.S (length l)) as Hlen.
  { rewrite length_app. simpl. lia. }
  split; [|split; [done|]].
  - split; [|split].
    + rewrite lookup_app_l in Hhd by lia. done.
    + apply last_snoc.
    + intros i a b Ha Hb. apply (Hstep i a b).
      * rewrite lookup_app_l; [done|]. by apply lookup_lt_Some in Ha.
      * rewrite lookup_app_l; [done|]. by apply lookup_lt_Some in Hb.
  - apply (Hstep (length l) q y).
    + rewrite lookup_app_l by lia. rewrite lookup_app_r by lia.
      by rewrite Nat.sub_diag.
    + rewrite lookup_app_r by lia. rewrite Hlen, Nat.sub_diag. done.
Qed.

(** The cell at index [i] of a route is [i] moves from the start. *)
Lemma route_prefix_reach l v (i : nat) x :
  route env start l v -> l !! i = Some x -> reach env start (Z.of_nat i) x.
Proof.
  revert v. induction l as [|y l IH] using rev_ind; intros v Hr Hi; [done|].
  destruct (decide (i = length l)) as [->|Hne].
  - rewrite lookup_app_r in Hi by lia. rewrite Nat.sub_diag in Hi.
    injection Hi as <-. pose proof (route_reach _ _ _ _ Hr) as H.
    destruct Hr as (_ & Hlast & _). rewrite last_snoc in Hlast. injection Hlast as <-.
    rewrite length_app in H. simpl in H.
    by replace (Z.of_nat (length l + 1) - 1) with (Z.of_nat (length l)) in H by lia.
  - assert (i < length l)%nat as Hlt.
    { apply lookup_lt_Some in Hi. rewrite length_app in Hi. simpl in Hi. lia. }
    rewrite lookup_app_l in Hi by done.
    destruct l as [|q l _] using rev_ind; [simpl in Hlt; lia|].
    apply route_snoc_inv in Hr as (Hr & _). by eapply IH.
Qed.

(** A cell of a route reached some other way in [k] moves gives a way to
    the end of the route in [k] moves plus the rest of the route. *)
Lemma route_splice l v (i : nat) x k :
  route env start l v -> l !! i = Some x -> reach env start k x ->
  reach env start (k + (Z.of_nat (length l) - 1 - Z.of_nat i)) v.
Proof.
  revert v. induction l as [|y l IH] using rev_ind; intros v Hr Hi Hk; [done|].
  rewrite length_app. simpl.
  destruct (decide (i = length l)) as [->|Hne].
  - rewrite lookup_app_r in Hi by lia. rewrite Nat.sub_diag in Hi.
    injection Hi as <-.
    destruct Hr as (_ & Hlast & _). rewrite last_snoc in Hlast. injection Hlast as <-.
    by replace (k + (Z.of_nat (length l + 1) - 1 - Z.of_nat (length l))) with k by lia.
  - assert (i < length l)%nat as Hlt.
    { apply lookup_lt_Some in Hi. rewrite length_app in Hi. simpl in Hi. lia. }
    rewrite lookup_app_l in Hi by done.
    destruct l as [|q l _] using rev_ind; [simpl in Hlt; lia|].
    apply route_snoc_inv in Hr as (Hr & -> & act & -> & Hwall).
    specialize (IH _ Hr Hi Hk).
    replace (k + (Z.of_nat (length (l ++ [q]) + 1) - 1 - Z.of_nat i))
      with (k + (Z.of_nat (length (l ++ [q])) - 1 - Z.of_nat i) + 1) by lia.
    by constructor.
Qed.

(** A route that no way to its end undercuts visits no cell twice. *)
Lemma shortest_route_NoDup l v :
  route env start l v ->
  (forall k, reach env start k v -> Z.of_nat (length l) - 1 <= k) ->
  NoDup l.
Proof.
  intros Hr Hopt. apply NoDup_alt. intros i j x Hi Hj.
  assert (forall i j : nat, l !! i = Some x -> l !! j = Some x -> ~ (i < j)%nat) as Hno.
  { clear i j Hi Hj. intros i j Hi Hj Hlt.
    pose proof (route_prefix_reach _ _ _ _ Hr Hi) as Hreach.
    pose proof (route_splice _ _ _ _ _ Hr Hj Hreach) as Hcut.
    specialize (Hopt _ Hcut). lia. }
  pose proof (Hno i j Hi Hj). pose proof (Hno j i Hj Hi). lia.
Qed.
End RouteSplice.

(** X5.  With cardinal moves, a path returned by the uniform-cost search
    or by A* with the Manhattan distance visits no cell twice. *)
Theorem returned_path_simple ident env goal max_expansions start p s :
  cardinal env ->
  U.uniformcost_search ident env goal max_expansions start = Some (Some p, s) \/
  A.astar_search ident env goal A.manhattan_distance max_expansions start
    = Some (Some p, s) ->
  NoDup p.
Proof.
  intros Hcard [H|H].
  - apply ucs_search_run in H as (out & st & Hrun & Hres).
    apply ucs_result_found in Hres as (node & -> & -> & _).
    destruct (ucs_found_facts _ _ _ _ _ _ _ Hrun) as (Hwf & Hgoal & Hopt & _).
    apply (shortest_route_NoDup env start _ goal).
    + rewrite <- Hgoal. by apply ucs_path_route.
    + intros k Hk. specialize (Hopt _ Hk).
      pose proof (ucs_path_length _ _ _ Hwf). lia.
  - apply astar_search_run in H as (out & st & Hrun & Hres).
    apply astar_result_found in Hres as (node & -> & -> & _).
    destruct (astar_found_facts _ _ _ _ _ _ _ _ (manhattan_consistent _ _ Hcard) Hrun)
      as (Hwf & Hgoal & Hopt & _).
    apply (shortest_route_NoDup env start _ goal).
    + rewrite <- Hgoal. by eapply astar_path_route.
    + intros k Hk. specialize (Hopt _ Hk).
      pose proof (astar_path_length _ _ _ _ _ Hwf). lia.
Qed.

Lemma returned_path_simple_witness :
  cardinal (grid_env 3 3 []) /\
  (U.uniformcost_search ident_up (grid_env 3 3 []) (2, 1) 10000 (0, 0) =
     Some (Some [(0, 0); (0, 1); (1, 1); (2, 1)],
           {| nodes_expanded := 7; path_length := Some 4; frontier_peak := 5 |}) \/
   A.astar_search ident_up (grid_env 3 3 []) (2, 1) A.manhattan_distance 10000 (0, 0) =
     Some (Some [(0, 0); (0, 1); (1, 1); (2, 1)],
           {| nodes_expanded := 7; path_length := Some 4; frontier_peak := 5 |})) /\
  NoDup [(0, 0); (0, 1); (1, 1); (2, 1)].
Proof.
  assert (U.uniformcost_search ident_up (grid_env 3 3 []) (2, 1) 10000 (0, 0) =
            Some (Some [(0, 0); (0, 1); (1, 1); (2, 1)],
                  {| nodes_expanded := 7; path_length := Some 4; frontier_peak := 5 |}))
    as H by (vm_compute; reflexivity).
  split; [apply grid_cardinal|]. split; [by left|].
  exact (returned_path_simple ident_up (grid_env 3 3 []) (2, 1) 10000 (0, 0) _ _
           (grid_cardinal 3 3 []) (or_introl H)).
Defined.

(** X6.  Neither search expands a cell twice: with cardinal moves, the
    reported expansions of the uniform-cost search and of A* with the
    Manhattan distance are at most the number of cells in any list that
    holds every cell reachable from the start. *)
Theorem expansions_within_reachable ident env goal max_expansions start cells p s :
  cardinal env ->
  (forall q, reachable env start q -> q ∈ cells) ->
  U.uniformcost_search ident env goal max_expansions start = Some (p, s) \/
  A.astar_search ident env goal A.manhattan_distance max_expansions start = Some (p, s) ->
  nodes_expanded s <= Z.of_nat (length cells).
Proof.
  intros Hcard Hcells [H|H].
  - apply ucs_search_run in H as (out & st & Hrun & Hres).
    assert (exists fin : Dict,
              U.expanded st = Z.of_nat (length fin) /\ NoDup fin.*1 /\
              forall q, q ∈ fin.*1 -> reachable env start q) as (fin & Hx & Hnd & Hall).
    { destruct out as [node| |].
      - destruct (ucs_found_facts _ _ _ _ _ _ _ Hrun) as (_ & _ & _ & _ & HI & Hc).
        exists (U.explored st). split; [done|]. split; [by destruct HI|].
        intros q Hq. apply elem_of_keys in Hq as [c Hq].
        exists c. by apply (inv_optimal _ _ _ _ _ _ _ _ HI).
      - destruct (ucs_exhausted_facts _ _ _ _ _ _ Hrun) as (Hall & Hnd & _ & Hc).
        exists (U.explored st). split; [done|]. split; [done|]. intros q. apply Hall.
      - destruct (ucs_aborted_facts _ _ _ _ _ _ Hrun) as (Hall & Hnd & Hc).
        by exists (U.explored st). }
    assert (nodes_expanded s = U.expanded st) as ->.
    { unfold U.result in Hres. simpl in Hres. by destruct out; injection Hres as <- <-. }
    rewrite Hx. apply inj_le. rewrite <- (length_fmap fst fin).
    apply keys_length_le; [done|]. auto.
  - pose proof (manhattan_consistent _ goal Hcard) as Hcons.
    apply astar_search_run in H as (out & st & Hrun & Hres).
    assert (exists fin : Dict,
              A.expanded st = Z.of_nat (length fin) /\ NoDup fin.*1 /\
              forall q, q ∈ fin.*1 -> reachable env start q) as (fin & Hx & Hnd & Hall).
    { destruct out as [node| |].
      - destruct (astar_found_facts _ _ _ _ _ _ _ _ Hcons Hrun)
          as (_ & _ & _ & fin & Hc & Hnd & _ & Hfin).
        exists fin. split; [done|]. split; [done|].
        intros q Hq. apply elem_of_keys in Hq as [c Hq].
        exists c. by apply Hfin.
      - destruct (astar_exhausted_facts _ _ _ _ _ _ _ Hcons Hrun)
          as (fin & Hall & Hnd & _ & Hc).
        exists fin. split; [done|]. split; [done|]. intros q. apply Hall.
      - destruct (astar_aborted_facts _ _ _ _ _ _ _ Hcons Hrun) as (fin & Hall & Hnd & Hc).
        by exists fin. }
    assert (nodes_expanded s = A.expanded st) as ->.
    { unfold A.result in Hres. simpl in Hres. by destruct out; injection Hres as <- <-. }
    rewrite Hx. apply inj_le. rewrite <- (length_fmap fst fin).
    apply keys_length_le; [done|]. auto.
Qed.

Lemma expansions_within_reachable_witness :
  cardinal (grid_env 2 1 []) /\
  (forall q, reachable (grid_env 2 1 []) (0, 0) q -> q ∈ [(0, 0); (1, 0)]) /\
  (U.uniformcost_search ident_up (grid_env 2 1 []) (5, 5) 10000 (0, 0) =
     Some (None, {| nodes_expanded := 2; path_length := None; frontier_peak := 1 |}) \/
   A.astar_search ident_up (grid_env 2 1 []) (5, 5) A.manhattan_distance 10000 (0, 0) =
     Some (None, {| nodes_expanded := 2; path_length := None; frontier_peak := 1 |})) /\
  2 <= Z.of_nat (length [(0, 0); (1, 0)]).
Proof.
  assert (U.uniformcost_search ident_up (grid_env 2 1 []) (5, 5) 10000 (0, 0) =
            Some (None, {| nodes_expanded := 2; path_length := None; frontier_peak := 1 |}))
    as H by (vm_compute; reflexivity).
  assert (forall q, reachable (grid_env 2 1 []) (0, 0) q -> q ∈ [(0, 0); (1, 0)]) as Hc.
  { intros q. apply column_reachable. }
  split; [apply grid_cardinal|]. split; [exact Hc|]. split; [by left|].
  exact (expansions_within_reachable ident_up (grid_env 2 1 []) (5, 5) 10000 (0, 0)
           [(0, 0); (1, 0)] _ _ (grid_cardinal 2 1 []) Hc (or_introl H)).
Defined.

(** ** The uniform-cost search is A* without a heuristic *)

Section MatchingFacts.
Context {Node1 State1 Node2 State2 : Type}.
Variable lt1 : Node1 -> Node1 -> bool.
Variable lt2 : Node2 -> Node2 -> bool.
Variable rel : @heapq.Entry Node1 -> @heapq.Entry Node2 -> Prop.
Hypothesis rel_lt : forall a1 a2 b1 b2,
  rel a1 a2 -> rel b1 b2 -> heapq.entry_lt lt1 a1 b1 = heapq.entry_lt lt2 a2 b2.

Lemma extract_min_match x1 x2 l1 l2 :
  rel x1 x2 -> Forall2 rel l1 l2 ->
  rel (heapq.extract_min lt1 x1 l1).1 (heapq.extract_min lt2 x2 l2).1 /\
  Forall2 rel (heapq.extract_min lt1 x1 l1).2 (heapq.extract_min lt2 x2 l2).2.
Proof using rel_lt.
  intros Hx Hl. revert x1 x2 Hx.
  induction Hl as [|y1 y2 l1 l2 Hy Hl IH]; intros x1 x2 Hx; simpl; [by split|].
  destruct (IH _ _ Hy) as [Hm Hr].
  destruct (heapq.extract_min lt1 y1 l1) as [m1 r1].
  destruct (heapq.extract_min lt2 y2 l2) as [m2 r2]. simpl in *.
  rewrite (rel_lt m1 m2 x1 x2 Hm Hx).
  destruct (heapq.entry_lt lt2 m2 x2); simpl; split; auto.
Qed.

Lemma heappop_match F1 F2 :
  Forall2 rel F1 F2 ->
  match heapq.heappop lt1 F1, heapq.heappop lt2 F2 with
  | Some (e1, r1), Some (e2, r2) => rel e1 e2 /\ Forall2 rel r1 r2
  | None, None => True
  | _, _ => False
  end.
Proof using rel_lt.
  intros [|x1 x2 l1 l2 Hx Hl]; simpl; [done|].
  pose proof (extract_min_match _ _ _ _ Hx Hl) as H.
  by destruct (heapq.extract_min lt1 x1 l1), (heapq.extract_min lt2 x2 l2).
Qed.

Lemma while_loop_match (same_node : Node1 -> Node2 -> Prop)
    (R Q : State1 -> State2 -> Prop)
    (it1 : State1 -> option (Step Node1 State1))
    (it2 : State2 -> option (Step Node2 State2)) :
  (forall s1 s2, R s1 s2 -> Q s1 s2) ->
  (forall s1 s2, R s1 s2 -> step_match same_node R Q (it1 s1) (it2 s2)) ->
  forall fuel s1 s2, R s1 s2 ->
    run_match same_node Q (while_loop it1 fuel s1) (while_loop it2 fuel s2).
Proof.
  intros HRQ Hstep. induction fuel as [|fuel IH]; intros s1 s2 HR; simpl; [done|].
  pose proof (Hstep _ _ HR) as H. unfold step_match in H.
  destruct (it1 s1) as [[t1|n1 t1|t1]|], (it2 s2) as [[t2|n2 t2|t2]|]; try done.
  - by apply IH.
  - simpl. by apply HRQ.
Qed.
End MatchingFacts.

Lemma forget_position n : U.position (forget n) = A.position n.
Proof. by destruct n. Qed.

Lemma forget_g n : U.g (forget n) = A.g n.
Proof. by destruct n. Qed.

Lemma forget_path n : U.path (forget n) = A.path n.
Proof.
  revert n. fix IH 1. intros [p [q|] a c hh ff]; simpl; [|done].
  by rewrite IH.
Qed.

Lemma entry_lt_match a1 a2 b1 b2 :
  entry_match a1 a2 -> entry_match b1 b2 ->
  heapq.entry_lt U.node_lt a1 b1 = heapq.entry_lt A.node_lt a2 b2.
Proof.
  intros (Hp & Hi & Hn & Hf) (Hp' & Hi' & Hn' & Hf').
  unfold heapq.entry_lt, U.node_lt, A.node_lt.
  by rewrite Hp, Hp', Hi, Hi', Hn, Hn', !forget_g, Hf, Hf'.
Qed.

Section ZeroHeuristic.
Variable ident : nat -> Z.
Variable env : Env.
Variable goal : Position.
Variable max_expansions : Z.
Variable start : Position.

Local Abbreviation visitU := (U.visit ident env).
Local Abbreviation visitA := (A.visit ident env goal zero_heuristic).

Lemma visit_match (explored : Dict) (seen : gset Position) nu na fu fa k act :
  nu = forget na ->
  seen = list_to_set explored.*1 ->
  (forall v, wall_at env (move env (A.position na) act) = false ->
     dict_get explored (move env (A.position na) act) = Some v -> v <= A.g na + 1) ->
  Forall2 entry_match fu fa ->
  Forall2 entry_match (visitU explored nu (fu, k) act).1 (visitA seen na (fa, k) act).1 /\
  (visitU explored nu (fu, k) act).2 = (visitA seen na (fa, k) act).2.
Proof.
  intros -> -> Hrec HF. rewrite ucs_visit_eq, astar_visit_eq. simpl.
  rewrite forget_position, forget_g.
  destruct (wall_at env (move env (A.position na) act)) eqn:Hwall; [done|].
  assert (Forall2 entry_match
            (heapq.heappush fu
               (A.g na + 1, ident k,
                U.mkNode (move env (A.position na) act) (Some (forget na)) (Some act)
                  (A.g na + 1)))
            (heapq.heappush fa
               (A.f (A.Node_init (move env (A.position na) act) (Some na) (Some act)
                       (A.g na + 1) (zero_heuristic (move env (A.position na) act) goal)),
                ident k,
                A.Node_init (move env (A.position na) act) (Some na) (Some act)
                  (A.g na + 1) (zero_heuristic (move env (A.position na) act) goal))))
    as Hpush.
  { unfold heapq.heappush. apply Forall2_app; [done|].
    constructor; [|constructor].
    unfold entry_match, heapq.priority, heapq.ident_of, heapq.node_of, zero_heuristic.
    simpl. split_and!; try done; lia. }
  destruct (dict_get explored (move env (A.position na) act)) as [v|] eqn:Hget.
  - specialize (Hrec v eq_refl eq_refl).
    destruct (Z.ltb_spec (A.g na + 1) v); [lia|].
    apply dict_get_Some in Hget.
    rewrite decide_True; [done|].
    apply elem_of_list_to_set, list_elem_of_fmap. by eexists (_, _).
  - apply dict_get_None in Hget.
    rewrite decide_False; [done|]. by rewrite elem_of_list_to_set.
Qed.

Lemma fold_match (explored : Dict) (seen : gset Position) nu na acts fu fa k :
  nu = forget na ->
  seen = list_to_set explored.*1 ->
  (forall act v, wall_at env (move env (A.position na) act) = false ->
     dict_get explored (move env (A.position na) act) = Some v -> v <= A.g na + 1) ->
  Forall2 entry_match fu fa ->
  Forall2 entry_match (fold_left (visitU explored nu) acts (fu, k)).1
                      (fold_left (visitA seen na) acts (fa, k)).1 /\
  (fold_left (visitU explored nu) acts (fu, k)).2 =
  (fold_left (visitA seen na) acts (fa, k)).2.
Proof.
  intros Hn Hs Hrec. revert fu fa k.
  induction acts as [|a acts IH]; intros fu fa k HF; simpl; [done|].
  destruct (visit_match explored seen nu na fu fa k a Hn Hs (Hrec a) HF) as [H1 H2].
  destruct (visitU explored nu (fu, k) a) as [fu' k1].
  destruct (visitA seen na (fa, k) a) as [fa' k2].
  simpl in *. subst k2. by apply IH.
Qed.

Lemma iteration_match su sa :
  ucs_inv env start goal su /\ ucs_closed env start su /\ state_match su sa ->
  step_match (fun nu na => nu = forget na)
    (fun su sa => ucs_inv env start goal su /\ ucs_closed env start su /\
                  state_match su sa)
    state_match
    (U.iteration ident env goal max_expansions su)
    (A.iteration ident env goal zero_heuristic max_expansions sa).
Proof.
  intros (Hinv & HC & HF & He & Hp & Hx & Ha).
  pose proof (ucs_inv_continue ident env goal max_expansions start su) as Hnext.
  pose proof (ucs_not_stale env goal start su) as Hfresh.
  unfold U.iteration in *. unfold A.iteration.
  pose proof (heappop_match U.node_lt A.node_lt entry_match entry_lt_match _ _ HF) as Hpop.
  destruct (heapq.heappop U.node_lt (U.frontier su)) as [[[[cu iu] nu] fu]|] eqn:Hpu,
           (heapq.heappop A.node_lt (A.frontier sa)) as [[[[ca ia] na] fa]|];
    try done.
  destruct Hpop as [(_ & _ & Hn & _) Hfr]. simpl in Hn. subst nu.
  rewrite forget_position, forget_g in *.
  rewrite <- Hp, <- Hx, <- Ha.
  destruct (decide (A.position na = goal)); [by repeat split|].
  specialize (Hfresh _ _ Hinv eq_refl). simpl in Hfresh.
  rewrite forget_position, forget_g in Hfresh.
  destruct (match dict_get (U.explored su) (A.position na) with
            | Some v => v <=? A.g na
            | None => false
            end) eqn:Hstale.
  { rewrite decide_True.
    - destruct (Hnext _ (conj Hinv HC) eq_refl) as [Hinv' HC'].
      simpl. split; [done|]. split; [done|]. by repeat split.
    - destruct (dict_get (U.explored su) (A.position na)) as [v|] eqn:Hget; [|done].
      apply dict_get_Some in Hget. rewrite He.
      apply elem_of_list_to_set, list_elem_of_fmap. by eexists (_, _). }
  specialize (Hfresh eq_refl).
  rewrite decide_False by (by rewrite He, elem_of_list_to_set).
  rewrite (dict_set_fresh _ _ _ Hfresh) in *.
  assert (A.explored sa ∪ {[A.position na]} =
          list_to_set (U.explored su ++ [(A.position na, A.g na)]).*1) as He'.
  { by apply astar_explored_snoc. }
  destruct (U.expanded su + 1 >? max_expansions); [by repeat split|].
  assert (forall act v,
            wall_at env (move env (A.position na) act) = false ->
            dict_get (U.explored su ++ [(A.position na, A.g na)])
              (move env (A.position na) act) = Some v -> v <= A.g na + 1) as Hrec.
  { intros act v Hwall Hget. apply dict_get_Some in Hget.
    destruct Hinv as (HI & _ & _).
    assert ((cu, iu, forget na) ∈ U.frontier su) as Hin.
    { apply (heappop_elem_of _ _ _ _ Hpu). by left. }
    destruct (inv_entries _ _ _ _ _ _ _ _ HI _ Hin) as [Hreach _].
    simpl in Hreach. rewrite forget_position, forget_g in Hreach.
    pose proof (Inv_finalize U.node_lt _ _ _ _ _ _ (zero_consistent env)
                  _ _ _ _ HI HC Hpu) as HI'.
    simpl in HI'. rewrite forget_position, forget_g in HI'.
    specialize (HI' Hfresh n).
    destruct (inv_optimal _ _ _ _ _ _ _ _ HI' _ _ Hget) as [_ Hopt].
    apply Hopt. by constructor. }
  destruct (fold_match (U.explored su ++ [(A.position na, A.g na)])
              (A.explored sa ∪ {[A.position na]}) (forget na) na ACTIONS fu fa
              (U.allocated su) eq_refl He' Hrec Hfr) as [H1 H2].
  destruct (fold_left (visitU _ (forget na)) ACTIONS (fu, U.allocated su))
    as [fu' ku] eqn:Hfu.
  destruct (fold_left (visitA _ na) ACTIONS (fa, U.allocated su)) as [fa' ka].
  simpl in *. subst ka.
  assert (state_match
            (U.mkState fu' (U.explored su ++ [(A.position na, A.g na)])
               (Z.max (U.peak su) (Z.of_nat (length fu'))) (U.expanded su + 1) ku)
            (A.mkState fa' (A.explored sa ∪ {[A.position na]})
               (Z.max (U.peak su) (Z.of_nat (length fa'))) (U.expanded su + 1) ku))
    as Hm.
  { repeat split; simpl; auto. by rewrite (Forall2_length _ _ _ H1). }
  destruct (Hnext _ (conj Hinv HC) eq_refl) as [Hinv' HC']. done.
Qed.

Lemma zero_heuristic_run :
  run_match (fun nu na => nu = forget na) state_match
    (U.run ident env goal max_expansions start)
    (A.run ident env goal zero_heuristic max_expansions start).
Proof.
  unfold U.run, A.run.
  replace (A.budget max_expansions (A.initial ident goal zero_heuristic start))
    with (U.budget max_expansions (U.initial ident start)) by done.
  apply (while_loop_match (fun nu na => nu = forget na)
           (fun su sa => ucs_inv env start goal su /\ ucs_closed env start su /\
                         state_match su sa) state_match).
  - by intros s1 s2 (_ & _ & ?).
  - apply iteration_match.
  - destruct (ucs_initial_inv ident env goal start) as [HI HC].
    split; [done|]. split; [done|].
    unfold U.initial, A.initial, heapq.heappush. repeat split; simpl.
    constructor; [|constructor]. by repeat split.
Qed.
End ZeroHeuristic.

(** With one assignment of identities to nodes, [astar_search] given
    the heuristic that is 0 everywhere returns what [uniformcost_search]
    returns: the cost tests of the uniform-cost search on its explored
    map decide as the membership tests of A* do. *)
Lemma zero_heuristic_same_identities ident env goal max_expansions start :
  A.astar_search ident env goal zero_heuristic max_expansions start =
  U.uniformcost_search ident env goal max_expansions start.
Proof.
  pose proof (zero_heuristic_run ident env goal max_expansions start) as H.
  unfold A.astar_search, U.uniformcost_search, run_match in *.
  destruct (U.run ident env goal max_expansions start) as [[[nu| |] su]|],
           (A.run ident env goal zero_heuristic max_expansions start)
    as [[[na| |] sa]|]; try done.
  - destruct H as (-> & _ & _ & Hp & Hx & _). simpl.
    unfold A.result, U.result. simpl. by rewrite forget_path, Hp, Hx.
  - destruct H as (_ & _ & Hp & Hx & _). simpl.
    unfold A.result, U.result. simpl. by rewrite Hp, Hx.
  - destruct H as (_ & _ & Hp & Hx & _). simpl.
    unfold A.result, U.result. simpl. by rewrite Hp, Hx.
Qed.

(** X7.  [astar_search] given the heuristic that is 0 everywhere returns
    what [uniformcost_search] returns for the same start, goal,
    environment and cap, the same path and the same statistics, provided
    the nodes of the two calls get their identities [id(node)] in the
    same relative order.  The identities are no argument of either
    function, and the two calls may be given different ones. *)
Theorem astar_zero_heuristic_is_ucs id_astar id_ucs env goal max_expansions start :
  same_order id_astar id_ucs ->
  A.astar_search id_astar env goal zero_heuristic max_expansions start =
  U.uniformcost_search id_ucs env goal max_expansions start.
Proof.
  intros Hsame. rewrite zero_heuristic_same_identities.
  by apply ucs_search_sim.
Qed.

Lemma astar_zero_heuristic_is_ucs_witness :
  same_order ident_up ident_addr /\
  A.astar_search ident_up (grid_env 3 3 []) (2, 1) zero_heuristic 10000 (0, 0) =
  U.uniformcost_search ident_addr (grid_env 3 3 []) (2, 1) 10000 (0, 0).
Proof.
  split; [exact ident_up_addr_same_order|].
  apply (astar_zero_heuristic_is_ucs ident_up ident_addr (grid_env 3 3 []) (2, 1)
           10000 (0, 0)).
  exact ident_up_addr_same_order.
Defined.

(** Without the same order of identities the two calls can differ: the
    open 3x3 grid, identities shrinking in one call and growing in the
    other. *)
Lemma zero_heuristic_other_identities :
  A.astar_search ident_down (grid_env 3 3 []) (2, 1) zero_heuristic 10000 (0, 0) =
    Some (Some [(0, 0); (1, 0); (2, 0); (2, 1)],
          {| nodes_expanded := 6; path_length := Some 4; frontier_peak := 5 |}) /\
  U.uniformcost_search ident_up (grid_env 3 3 []) (2, 1) 10000 (0, 0) =
    Some (Some [(0, 0); (0, 1); (1, 1); (2, 1)],
          {| nodes_expanded := 7; path_length := Some 4; frontier_peak := 5 |}).
Proof. split; vm_compute; reflexivity. Qed.

(** ** The comparison of the two searches *)

Module C := compare_search.

(** Two runs that do not stop on the cap end the same way, at the same
    cost, A* after no more expansions. *)
Lemma runs_agree ident_u ident_a env goal max_u max_a start out_u st_u out_a st_a :
  cardinal env ->
  U.run ident_u env goal max_u start = Some (out_u, st_u) ->
  A.run ident_a env goal A.manhattan_distance max_a start = Some (out_a, st_a) ->
  out_u <> Aborted ->
  out_a <> Aborted ->
  A.expanded st_a <= U.expanded st_u /\
  match out_u, out_a with
  | Found nu, Found na => length (U.path nu) = length (A.path na) /\ U.path nu <> []
  | Exhausted, Exhausted => True
  | _, _ => False
  end.
Proof.
  intros Hcard Hu Ha Hnu Hna.
  pose proof (manhattan_consistent _ goal Hcard) as Hcons.
  destruct out_u as [nu| |]; [| |done]; destruct out_a as [na| |]; try done.
  - destruct (ucs_found_facts _ _ _ _ _ _ _ Hu)
      as (Hwf_u & Hgoal_u & Hopt_u & Hbelow & _ & ->).
    destruct (astar_found_facts _ _ _ _ _ _ _ _ Hcons Ha)
      as (Hwf_a & Hgoal_a & Hopt_a & fin & -> & Hnd & Hng & Hfin).
    pose proof (ucs_wf_reach _ _ _ Hwf_u) as Hru. rewrite Hgoal_u in Hru.
    pose proof (astar_wf_reach _ _ _ _ _ Hwf_a) as Hra. rewrite Hgoal_a in Hra.
    pose proof (Hopt_a _ Hru). pose proof (Hopt_u _ Hra).
    pose proof (ucs_path_length _ _ _ Hwf_u) as Hlu.
    pose proof (astar_path_length _ _ _ _ _ Hwf_a) as Hla.
    split; [|split; [lia|]].
    + apply inj_le.
      rewrite <- (length_fmap fst fin), <- (length_fmap fst (U.explored st_u)).
      apply keys_length_le; [done|].
      intros q Hq. pose proof Hq as Hq'. apply elem_of_keys in Hq as [c Hc].
      destruct (Hfin _ _ Hc) as [Hreach Hf].
      apply (Hbelow c q Hreach).
      assert (A.manhattan_distance goal goal = 0) as Hz.
      { unfold A.manhattan_distance. lia. }
      assert (A.manhattan_distance q goal <> 0) as Hnz.
      { intros Heq. apply manhattan_zero in Heq. congruence. }
      pose proof (manhattan_nonneg q goal). lia.
    + intros Hnil. rewrite Hnil in Hlu. simpl in Hlu.
      pose proof (reach_nonneg _ _ _ _ Hru). lia.
  - destruct (ucs_found_facts _ _ _ _ _ _ _ Hu) as (Hwf_u & Hgoal_u & _).
    destruct (astar_exhausted_facts _ _ _ _ _ _ _ Hcons Ha) as (fin & Hall & _ & Hng & _).
    destruct Hng. apply Hall. exists (U.g nu). rewrite <- Hgoal_u.
    by apply ucs_wf_reach.
  - destruct (ucs_exhausted_facts _ _ _ _ _ _ Hu) as (Hall & _ & Hng & _).
    destruct (astar_found_facts _ _ _ _ _ _ _ _ Hcons Ha) as (Hwf_a & Hgoal_a & _).
    destruct Hng. apply Hall. exists (A.g na). rewrite <- Hgoal_a.
    by eapply astar_wf_reach.
  - destruct (ucs_exhausted_facts _ _ _ _ _ _ Hu) as (Hall_u & _ & _ & ->).
    destruct (astar_exhausted_facts _ _ _ _ _ _ _ Hcons Ha)
      as (fin & Hall_a & Hnd & _ & ->).
    split; [|done]. apply inj_le.
    rewrite <- (length_fmap fst fin), <- (length_fmap fst (U.explored st_u)).
    apply keys_length_le; [done|].
    intros q Hq. by apply Hall_u, Hall_a.
Qed.

(** The dictionaries of one phase agree on the path length, and A* has
    the smaller count, when neither count is beyond the cap. *)
Lemma phases_agree ident_u ident_a env goal max_expansions start ru ra :
  cardinal env ->
  0 <= max_expansions ->
  U.uniformcost_search ident_u env goal max_expansions start = Some ru ->
  A.astar_search ident_a env goal A.manhattan_distance max_expansions start = Some ra ->
  nodes_expanded (C.phase ru) <= max_expansions ->
  nodes_expanded (C.phase ra) <= max_expansions ->
  path_length (C.phase ru) = path_length (C.phase ra) /\
  nodes_expanded (C.phase ra) <= nodes_expanded (C.phase ru).
Proof.
  intros Hcard Hmax Hu Ha Hcu Hca. destruct ru as [pu su], ra as [pa sa].
  apply ucs_search_run in Hu as (out_u & st_u & Hrun_u & Hres_u).
  apply astar_search_run in Ha as (out_a & st_a & Hrun_a & Hres_a).
  pose proof (ucs_cap_post _ _ _ _ _ _ _ _ Hrun_u) as (_ & Habort_u & _).
  pose proof (astar_cap_post _ _ _ _ _ _ _ _ _ Hrun_a) as (_ & Habort_a & _).
  unfold U.result in Hres_u. unfold A.result in Hres_a. simpl in *.
  assert (out_u <> Aborted) as Hnu.
  { intros ->. specialize (Habort_u eq_refl). injection Hres_u as <- <-.
    simpl in Hcu. lia. }
  assert (out_a <> Aborted) as Hna.
  { intros ->. specialize (Habort_a eq_refl). injection Hres_a as <- <-.
    simpl in Hca. lia. }
  destruct (runs_agree _ _ _ _ _ _ _ _ _ _ _ Hcard Hrun_u Hrun_a Hnu Hna) as [Hle Hout].
  destruct out_u as [nu| |], out_a as [na| |]; try done;
    injection Hres_u as <- <-; injection Hres_a as <- <-;
    unfold C.phase; simpl; (split; [|done]); [|done].
  destruct Hout as [Hlen Hne].
  destruct (U.path nu) as [|cu pu] eqn:Hpu; [done|].
  destruct (A.path na) as [|ca pa] eqn:Hpa; [simpl in Hlen; lia|].
  simpl in *. by rewrite Hlen.
Qed.

(** What one trial records for the two searches. *)
Lemma trial_agrees ident env robot pickup dropoff trial_id trial :
  cardinal env ->
  C.run_comparison_trial ident env robot pickup dropoff trial_id = Some trial ->
  Forall (fun d => nodes_expanded d <= C.DEFAULT_MAX_EXPANSIONS)
    [C.phase1 (C.ucs trial); C.phase2 (C.ucs trial);
     C.phase1 (C.astar trial); C.phase2 (C.astar trial)] ->
  path_length (C.phase1 (C.ucs trial)) = path_length (C.phase1 (C.astar trial)) /\
  path_length (C.phase2 (C.ucs trial)) = path_length (C.phase2 (C.astar trial)) /\
  nodes_expanded (C.phase1 (C.astar trial)) <= nodes_expanded (C.phase1 (C.ucs trial)) /\
  nodes_expanded (C.phase2 (C.astar trial)) <= nodes_expanded (C.phase2 (C.ucs trial)).
Proof.
  intros Hcard Hrun Hcap. unfold C.run_comparison_trial in Hrun.
  destruct (U.uniformcost_search (ident 0%nat) env pickup _ robot) as [u1|] eqn:Hu1;
    [|done].
  destruct (A.astar_search (ident 1%nat) env pickup _ _ robot) as [a1|] eqn:Ha1;
    [|done].
  destruct (U.uniformcost_search (ident 2%nat) env dropoff _ pickup) as [u2|] eqn:Hu2;
    [|done].
  destruct (A.astar_search (ident 3%nat) env dropoff _ _ pickup) as [a2|] eqn:Ha2;
    [|done].
  simpl in Hrun. injection Hrun as <-. simpl in *.
  apply Forall_cons in Hcap as [H1 Hcap]. apply Forall_cons in Hcap as [H2 Hcap].
  apply Forall_cons in Hcap as [H3 Hcap]. apply Forall_cons in Hcap as [H4 _].
  assert (0 <= C.DEFAULT_MAX_EXPANSIONS) as Hpos by (unfold C.DEFAULT_MAX_EXPANSIONS; lia).
  destruct (phases_agree _ _ _ _ _ _ _ _ Hcard Hpos Hu1 Ha1 H1 H3) as [? ?].
  destruct (phases_agree _ _ _ _ _ _ _ _ Hcard Hpos Hu2 Ha2 H2 H4) as [? ?].
  done.
Qed.

(** X8.  On an environment with cardinal moves, when none of the four
    searches of a trial reports more expansions than the default cap,
    [run_comparison_trial] records the same path length for the
    uniform-cost search and for A* in each phase (a number for both or
    [None] for both), and for A* a count of expansions that is not
    larger. *)
Theorem trial_phases_agree ident env robot pickup dropoff trial_id trial :
  cardinal env ->
  C.run_comparison_trial ident env robot pickup dropoff trial_id = Some trial ->
  Forall (fun d => nodes_expanded d <= C.DEFAULT_MAX_EXPANSIONS)
    [C.phase1 (C.ucs trial); C.phase2 (C.ucs trial);
     C.phase1 (C.astar trial); C.phase2 (C.astar trial)] ->
  path_length (C.phase1 (C.ucs trial)) = path_length (C.phase1 (C.astar trial)) /\
  path_length (C.phase2 (C.ucs trial)) = path_length (C.phase2 (C.astar trial)) /\
  nodes_expanded (C.phase1 (C.astar trial)) <= nodes_expanded (C.phase1 (C.ucs trial)) /\
  nodes_expanded (C.phase2 (C.astar trial)) <= nodes_expanded (C.phase2 (C.ucs trial)).
Proof. apply trial_agrees. Qed.

Lemma trial_phases_agree_witness :
  exists trial,
    cardinal (grid_env 3 3 []) /\
    C.run_comparison_trial (fun _ => ident_up) (grid_env 3 3 []) (0, 0) (2, 1) (0, 2) 0
      = Some trial /\
    Forall (fun d => nodes_expanded d <= C.DEFAULT_MAX_EXPANSIONS)
      [C.phase1 (C.ucs trial); C.phase2 (C.ucs trial);
       C.phase1 (C.astar trial); C.phase2 (C.astar trial)] /\
    path_length (C.phase1 (C.ucs trial)) = path_length (C.phase1 (C.astar trial)) /\
    path_length (C.phase2 (C.ucs trial)) = path_length (C.phase2 (C.astar trial)) /\
    nodes_expanded (C.phase1 (C.astar trial)) <= nodes_expanded (C.phase1 (C.ucs trial)) /\
    nodes_expanded (C.phase2 (C.astar trial)) <= nodes_expanded (C.phase2 (C.ucs trial)).
Proof.
  eexists.
  split; [apply grid_cardinal|].
  split; [vm_compute; reflexivity|].
  split; [repeat constructor; by vm_compute|].
  apply (trial_phases_agree (fun _ => ident_up) (grid_env 3 3 []) (0, 0) (2, 1) (0, 2) 0);
    [apply grid_cardinal|vm_compute; reflexivity|repeat constructor; by vm_compute].
Defined.

Lemma nodes_of_length method trials :
  length (C.nodes_of method trials) = (2 * length trials)%nat.
Proof.
  unfold C.nodes_of. induction trials as [|t trials IH]; simpl; [done|].
  rewrite IH. lia.
Qed.

Lemma mean_None data : C.mean data = None <-> data = [].
Proof.
  destruct data as [|x data]; [done|]. unfold C.mean.
  by destruct (_ =? _).
Qed.

Lemma mean_is_Some data : data <> [] -> is_Some (C.mean data).
Proof.
  intros Hne. destruct (C.mean data) eqn:Hm; [by eexists|].
  by apply mean_None in Hm.
Qed.

Lemma nodes_of_nonempty method trials :
  trials <> [] -> C.nodes_of method trials <> [].
Proof. by destruct trials. Qed.

Lemma aggregate_results_inv trials s :
  C.aggregate_results trials = Some s ->
  trials <> [] /\
  C.mean (C.nodes_of C.ucs trials) = Some (C.mean_nodes_expanded (C.ucs_summary s)) /\
  C.mean (C.nodes_of C.astar trials) = Some (C.mean_nodes_expanded (C.astar_summary s)) /\
  C.mean_path_length (C.ucs_summary s) = C.mean (C.path_lens_of C.ucs trials) /\
  C.mean_path_length (C.astar_summary s) = C.mean (C.path_lens_of C.astar trials) /\
  C.num_trials s = Z.of_nat (length trials) /\
  C.total_phases s = Z.of_nat (length (C.nodes_of C.ucs trials)).
Proof.
  unfold C.aggregate_results.
  destruct (C.mean (C.nodes_of C.ucs trials)) as [mu|] eqn:Hmu; [|done].
  assert (trials <> []) as Hne.
  { intros ->. done. }
  destruct (C.mean (C.nodes_of C.astar trials)) as [ma|] eqn:Hma.
  2:{ apply mean_None in Hma. by apply nodes_of_nonempty in Hma. }
  destruct (C.path_lens_of C.ucs trials) as [|x lu] eqn:Hlu,
           (C.path_lens_of C.astar trials) as [|y la] eqn:Hla; cbn [mbind option_bind].
  - intros [= <-]. by simpl.
  - destruct (mean_is_Some (y :: la)) as [m Hm]; [done|]. rewrite Hm.
    intros [= <-]. by simpl.
  - destruct (mean_is_Some (x :: lu)) as [m Hm]; [done|]. rewrite Hm.
    intros [= <-]. by simpl.
  - destruct (mean_is_Some (x :: lu)) as [m Hm]; [done|]. rewrite Hm.
    destruct (mean_is_Some (y :: la)) as [m' Hm']; [done|]. rewrite Hm'.
    intros [= <-]. by simpl.
Qed.

Lemma aggregate_results_is_Some trials :
  trials <> [] -> is_Some (C.aggregate_results trials).
Proof.
  intros Hne. unfold C.aggregate_results.
  destruct (mean_is_Some (C.nodes_of C.ucs trials)) as [mu ->];
    [by apply nodes_of_nonempty|].
  destruct (mean_is_Some (C.nodes_of C.astar trials)) as [ma ->];
    [by apply nodes_of_nonempty|].
  destruct (C.path_lens_of C.ucs trials) as [|x lu],
           (C.path_lens_of C.astar trials) as [|y la]; cbn [mbind option_bind].
  - by eexists.
  - destruct (mean_is_Some (y :: la)) as [m ->]; [done|]. by eexists.
  - destruct (mean_is_Some (x :: lu)) as [m ->]; [done|]. by eexists.
  - destruct (mean_is_Some (x :: lu)) as [m ->]; [done|].
    destruct (mean_is_Some (y :: la)) as [m' ->]; [done|]. by eexists.
Qed.

(** X9.  [aggregate_results] fails with the [StatisticsError] of
    [statistics.mean] exactly on an empty list of trials.  Otherwise it
    reports as many trials as the list holds and twice as many phases,
    and the mean path length of the uniform-cost search is [None]
    exactly when no phase of any trial recorded a path length for it. *)
Theorem aggregate_results_counts trials :
  (C.aggregate_results trials = None <-> trials = []) /\
  forall s, C.aggregate_results trials = Some s ->
    C.num_trials s = Z.of_nat (length trials) /\
    C.total_phases s = 2 * C.num_trials s /\
    (C.mean_path_length (C.ucs_summary s) = None <->
     Forall (fun trial => path_length (C.phase1 (C.ucs trial)) = None /\
                          path_length (C.phase2 (C.ucs trial)) = None) trials).
Proof.
  split.
  - split; [|by intros ->].
    intros Hnone. destruct trials as [|t trials]; [done|]. exfalso.
    destruct (aggregate_results_is_Some (t :: trials)) as [s Hs]; [done|].
    congruence.
  - intros s Hs.
    apply aggregate_results_inv in Hs as (_ & _ & _ & Hlu & _ & Hn & Ht).
    split; [done|]. split; [rewrite Ht, Hn, nodes_of_length; lia|].
    rewrite Hlu, mean_None. unfold C.path_lens_of. clear Hlu Hn Ht.
    induction trials as [|t trials IH]; simpl; [split; [constructor|done]|].
    rewrite Forall_cons, <- IH.
    destruct (path_length (C.phase1 (C.ucs t))), (path_length (C.phase2 (C.ucs t)));
      simpl; split; try done; try (by intros [[? ?] ?]); tauto.
Qed.

Lemma foldr_add_le (l k : list Z) :
  Forall2 Z.le l k -> foldr Z.add 0 l <= foldr Z.add 0 k.
Proof. induction 1; simpl; lia. Qed.

(** X10.  When every trial comes from [run_comparison_trial] on an
    environment with cardinal moves and none of its searches reports
    more expansions than the default cap, the summary of
    [aggregate_results] holds the same [mean_path_length] for the two
    searches, taken of the same list of path lengths; and its two
    [mean_nodes_expanded] are [statistics.mean] of two lists of equal
    length, the count of A* at each place not larger than that of the
    uniform-cost search, so that the total of A* is not larger.  How the
    two means compare once they are rounded to floats is not stated. *)
Theorem summary_agrees trials s :
  Forall (fun trial =>
            exists ident env robot pickup dropoff trial_id,
              cardinal env /\
              C.run_comparison_trial ident env robot pickup dropoff trial_id
                = Some trial /\
              Forall (fun d => nodes_expanded d <= C.DEFAULT_MAX_EXPANSIONS)
                [C.phase1 (C.ucs trial); C.phase2 (C.ucs trial);
                 C.phase1 (C.astar trial); C.phase2 (C.astar trial)]) trials ->
  C.aggregate_results trials = Some s ->
  C.mean_path_length (C.ucs_summary s) = C.mean_path_length (C.astar_summary s) /\
  C.path_lens_of C.ucs trials = C.path_lens_of C.astar trials /\
  C.mean (C.nodes_of C.ucs trials) = Some (C.mean_nodes_expanded (C.ucs_summary s)) /\
  C.mean (C.nodes_of C.astar trials) = Some (C.mean_nodes_expanded (C.astar_summary s)) /\
  Forall2 Z.le (C.nodes_of C.astar trials) (C.nodes_of C.ucs trials) /\
  foldr Z.add 0 (C.nodes_of C.astar trials) <= foldr Z.add 0 (C.nodes_of C.ucs trials).
Proof.
  intros Hall Hs.
  assert (C.path_lens_of C.ucs trials = C.path_lens_of C.astar trials /\
          Forall2 Z.le (C.nodes_of C.astar trials) (C.nodes_of C.ucs trials))
    as [Hlens Hnodes].
  { clear Hs. unfold C.path_lens_of, C.nodes_of.
    induction Hall as [|t trials Ht Hall IH]; simpl; [by split|].
    destruct Ht as (ident & env & robot & pickup & dropoff & id & Hcard & Hrun & Hcap).
    destruct (trial_agrees _ _ _ _ _ _ _ Hcard Hrun Hcap) as (-> & -> & H1 & H2).
    destruct IH as [-> IH2]. split; [done|].
    constructor; [exact H1|]. constructor; [exact H2|exact IH2]. }
  apply aggregate_results_inv in Hs as (Hne & Hmu & Hma & -> & -> & _ & _).
  split; [by rewrite Hlens|]. split; [done|]. split; [done|]. split; [done|].
  split; [done|]. by apply foldr_add_le.
Qed.

Lemma summary_agrees_witness :
  exists trials s,
    Forall (fun trial =>
              exists ident env robot pickup dropoff trial_id,
                cardinal env /\
                C.run_comparison_trial ident env robot pickup dropoff trial_id
                  = Some trial /\
                Forall (fun d => nodes_expanded d <= C.DEFAULT_MAX_EXPANSIONS)
                  [C.phase1 (C.ucs trial); C.phase2 (C.ucs trial);
                   C.phase1 (C.astar trial); C.phase2 (C.astar trial)]) trials /\
    C.aggregate_results trials = Some s /\
    C.mean_path_length (C.ucs_summary s) = C.mean_path_length (C.astar_summary s) /\
    C.path_lens_of C.ucs trials = C.path_lens_of C.astar trials /\
    C.mean (C.nodes_of C.ucs trials) = Some (C.mean_nodes_expanded (C.ucs_summary s)) /\
    C.mean (C.nodes_of C.astar trials) =
      Some (C.mean_nodes_expanded (C.astar_summary s)) /\
    Forall2 Z.le (C.nodes_of C.astar trials) (C.nodes_of C.ucs trials) /\
    foldr Z.add 0 (C.nodes_of C.astar trials) <= foldr Z.add 0 (C.nodes_of C.ucs trials).
Proof.
  eexists [_], _.
  assert (forall trial,
            C.run_comparison_trial (fun _ => ident_down) (grid_env 3 3 [])
              (0, 0) (2, 1) (0, 2) 0 = Some trial ->
            Forall (fun d => nodes_expanded d <= C.DEFAULT_MAX_EXPANSIONS)
              [C.phase1 (C.ucs trial); C.phase2 (C.ucs trial);
               C.phase1 (C.astar trial); C.phase2 (C.astar trial)] ->
            exists ident env robot pickup dropoff trial_id,
              cardinal env /\
              C.run_comparison_trial ident env robot pickup dropoff trial_id
                = Some trial /\
              Forall (fun d => nodes_expanded d <= C.DEFAULT_MAX_EXPANSIONS)
                [C.phase1 (C.ucs trial); C.phase2 (C.ucs trial);
                 C.phase1 (C.astar trial); C.phase2 (C.astar trial)]) as Hmk.
  { intros trial Hrun Hcap.
    exists (fun _ => ident_down), (grid_env 3 3 []), (0, 0), (2, 1), (0, 2), 0.
    split; [apply grid_cardinal|]. by split. }
  split.
  { constructor; [|constructor].
    apply Hmk; [vm_compute; reflexivity|repeat constructor; by vm_compute]. }
  lazymatch goal with
  | |- C.aggregate_results ?t = _ /\ _ =>
      split; [vm_compute; reflexivity|];
      apply (summary_agrees t); [|vm_compute; reflexivity]
  end.
  constructor; [|constructor].
  apply Hmk; [vm_compute; reflexivity|repeat constructor; by vm_compute].
Defined.

(** * The agents *)

Module R := warehouse_agent_reflex.
Module G := warehouse_agent_greedy.

Lemma choice_elem_of {X : Type} draw (first : X) rest : choice draw first rest ∈ first :: rest.
Proof.
  unfold choice. apply list_elem_of_In, nth_In.
  pose proof (Nat.mod_upper_bound draw (Datatypes.S (length rest))). simpl. lia.
Qed.

Lemma elem_of_ACTIONS act : act ∈ ACTIONS.
Proof. unfold ACTIONS. destruct act; repeat constructor. Qed.

(** ** The reflex agent *)

Lemma reflex_valid_move act pos env :
  R._is_valid_move act pos env = true <-> wall_at env (move env pos act) = false.
Proof.
  unfold R._is_valid_move, wall_at, move. destruct pos as [r c].
  destruct (MOVE_DELTAS env act) as [dr dc]. simpl. apply negb_true_iff.
Qed.

Lemma reflex_random_valid_move draw pos env :
  match R._random_valid_move draw pos env with
  | Go act => wall_at env (move env pos act) = false
  | WAIT => forall act, wall_at env (move env pos act) = true
  | _ => False
  end.
Proof.
  unfold R._random_valid_move.
  destruct (filter _ ACTIONS) as [|a rest] eqn:Hf.
  - intros act. destruct (wall_at env (move env pos act)) eqn:Hw; [done|].
    assert (act ∈ filter (fun act => R._is_valid_move act pos env = true) ACTIONS) as Hin.
    { apply list_elem_of_filter. split; [by apply reflex_valid_move|apply elem_of_ACTIONS]. }
    rewrite Hf in Hin. inversion Hin.
  - pose proof (choice_elem_of draw a rest) as Hin. rewrite <- Hf in Hin.
    apply list_elem_of_filter in Hin as [Hv _]. by apply reflex_valid_move.
Qed.

Ltac by_random_move :=
  match goal with
  | |- context [R._random_valid_move ?d ?p ?e] =>
      let H := fresh in
      pose proof (reflex_random_valid_move d p e) as H;
      by destruct (R._random_valid_move d p e)
  end.

(** X11.  What [ReflexAgent.select_action] returns: a move only into a
    cell that is not a wall; ["WAIT"] only when all four moves lead into
    walls; ["PICK"] only on the pickup cell without an item and ["DROP"]
    only on the dropoff cell with one, and in those two situations
    nothing else. *)
Theorem reflex_select_action_sound draw obs env :
  match R.select_action draw obs env with
  | Go act => wall_at env (move env (robot_pos obs) act) = false
  | WAIT => forall act, wall_at env (move env (robot_pos obs) act) = true
  | PICK => has_item obs = false /\ pickup_pos obs = Some (robot_pos obs)
  | DROP => has_item obs = true /\ dropoff_pos obs = Some (robot_pos obs)
  end /\
  (has_item obs = false -> pickup_pos obs = Some (robot_pos obs) ->
   R.select_action draw obs env = PICK) /\
  (has_item obs = true -> dropoff_pos obs = Some (robot_pos obs) ->
   R.select_action draw obs env = DROP).
Proof.
  unfold R.select_action.
  destruct obs as [pos item pickup dropoff]. simpl.
  destruct item; simpl.
  - destruct (bool_decide_reflect (dropoff = Some pos)) as [Hd|Hd].
    { split; [done|]. split; [done|]. done. }
    split; [|split; [done|congruence]].
    destruct dropoff as [[tr tc]|]; [|by_random_move].
    destruct pos as [r c].
    destruct (R._is_valid_move _ (r, c) env) eqn:Hpref; [by apply reflex_valid_move|].
    destruct (filter _ ACTIONS) as [|a rest] eqn:Hf; [by_random_move|].
    pose proof (choice_elem_of draw a rest) as Hin. rewrite <- Hf in Hin.
    apply list_elem_of_filter in Hin as [[Hv _] _]. by apply reflex_valid_move.
  - destruct (bool_decide_reflect (pickup = Some pos)) as [Hd|Hd].
    { split; [done|]. split; [done|]. done. }
    split; [|split; [congruence|done]].
    destruct pickup as [[tr tc]|]; [|by_random_move].
    destruct pos as [r c].
    destruct (R._is_valid_move _ (r, c) env) eqn:Hpref; [by apply reflex_valid_move|].
    destruct (filter _ ACTIONS) as [|a rest] eqn:Hf; [by_random_move|].
    pose proof (choice_elem_of draw a rest) as Hin. rewrite <- Hf in Hin.
    apply list_elem_of_filter in Hin as [[Hv _] _]. by apply reflex_valid_move.
Qed.

Lemma reflex_toward_target draw env r c tr tc :
  (forall act, MOVE_DELTAS env act = cardinal_deltas act) ->
  (r, c) <> (tr, tc) ->
  (exists act, wall_at env (move env (r, c) act) = false /\
     A.manhattan_distance (move env (r, c) act) (tr, tc) <
     A.manhattan_distance (r, c) (tr, tc)) ->
  exists a,
    (let preferred :=
       if Z.abs (tc - c) <=? Z.abs (tr - r)
       then (if tr - r <? 0 then N else S)
       else (if 0 <? tc - c then E else W) in
     if R._is_valid_move preferred (r, c) env then Go preferred
     else
       match
         filter (fun act =>
                   R._is_valid_move act (r, c) env = true /\
                   let '(dr2, dc2) := MOVE_DELTAS env act in
                   Z.abs (r + dr2 - tr) + Z.abs (c + dc2 - tc) <
                   Z.abs (r - tr) + Z.abs (c - tc)) ACTIONS
       with
       | first :: rest => Go (choice draw first rest)
       | [] => R._random_valid_move draw (r, c) env
       end) = Go a /\
    wall_at env (move env (r, c) a) = false /\
    A.manhattan_distance (move env (r, c) a) (tr, tc) =
    A.manhattan_distance (r, c) (tr, tc) - 1.
Proof.
  intros Hdeltas Hne (b & Hvb & Hdb). cbv zeta.
  assert (forall act,
            A.manhattan_distance (move env (r, c) act) (tr, tc) =
            let '(dr2, dc2) := MOVE_DELTAS env act in
            Z.abs (r + dr2 - tr) + Z.abs (c + dc2 - tc)) as Hdist.
  { intros act. unfold move, A.manhattan_distance.
    by destruct (MOVE_DELTAS env act). }
  assert (A.manhattan_distance (r, c) (tr, tc) = Z.abs (r - tr) + Z.abs (c - tc))
    as Hd0 by done.
  assert (r <> tr \/ c <> tc) as Hne'.
  { destruct (decide (r = tr)), (decide (c = tc)); subst; tauto. }
  destruct (R._is_valid_move _ (r, c) env) eqn:Hpref.
  - eexists. split; [done|]. split; [by apply reflex_valid_move|].
    rewrite Hdist, Hd0.
    destruct (Z.leb_spec (Z.abs (tc - c)) (Z.abs (tr - r)));
      [destruct (Z.ltb_spec (tr - r) 0)|destruct (Z.ltb_spec 0 (tc - c))];
      rewrite Hdeltas; simpl; lia.
  - destruct (filter _ ACTIONS) as [|a rest] eqn:Hf.
    + assert (b ∈ filter (fun act =>
                R._is_valid_move act (r, c) env = true /\
                let '(dr2, dc2) := MOVE_DELTAS env act in
                Z.abs (r + dr2 - tr) + Z.abs (c + dc2 - tc) <
                Z.abs (r - tr) + Z.abs (c - tc)) ACTIONS) as Hin.
      { apply list_elem_of_filter. split; [|apply elem_of_ACTIONS].
        split; [by apply reflex_valid_move|].
        rewrite Hdist, Hd0 in Hdb. by destruct (MOVE_DELTAS env b). }
      rewrite Hf in Hin. inversion Hin.
    + pose proof (choice_elem_of draw a rest) as Hin. rewrite <- Hf in Hin.
      apply list_elem_of_filter in Hin as [[Hv Hlt] _].
      eexists. split; [done|]. split; [by apply reflex_valid_move|].
      rewrite Hdist, Hd0. rewrite Hdeltas in *.
      destruct (choice draw a rest); simpl in *; lia.
Qed.

(** X12.  With the deltas north (-1, 0), east (0, 1), south (1, 0) and
    west (0, -1): whenever some move that is not blocked brings the
    robot closer to its target (the dropoff cell when carrying, the
    pickup cell otherwise), [ReflexAgent.select_action] returns a move
    that is not blocked and lowers the Manhattan distance to the target
    by one. *)
Theorem reflex_moves_closer draw obs env t :
  (forall act, MOVE_DELTAS env act = cardinal_deltas act) ->
  (if has_item obs then dropoff_pos obs else pickup_pos obs) = Some t ->
  (exists act, wall_at env (move env (robot_pos obs) act) = false /\
     A.manhattan_distance (move env (robot_pos obs) act) t <
     A.manhattan_distance (robot_pos obs) t) ->
  exists a,
    R.select_action draw obs env = Go a /\
    wall_at env (move env (robot_pos obs) a) = false /\
    A.manhattan_distance (move env (robot_pos obs) a) t =
    A.manhattan_distance (robot_pos obs) t - 1.
Proof.
  intros Hdeltas Ht Hex. unfold R.select_action.
  destruct obs as [[r c] item pickup dropoff], t as [tr tc]. simpl in *.
  assert ((r, c) <> (tr, tc)) as Hne.
  { intros [= -> ->]. destruct Hex as (b & _ & Hlt).
    unfold A.manhattan_distance, move in Hlt.
    destruct (MOVE_DELTAS env b). simpl in Hlt. lia. }
  destruct item; subst; simpl.
  - rewrite bool_decide_false by congruence.
    by apply reflex_toward_target.
  - rewrite bool_decide_false by congruence.
    destruct (bool_decide (dropoff = Some (r, c))); by apply reflex_toward_target.
Qed.

Lemma reflex_moves_closer_witness :
  (forall act, MOVE_DELTAS (grid_env 3 3 [(1, 0)]) act = cardinal_deltas act) /\
  (if has_item {| robot_pos := (0, 0); has_item := false;
                  pickup_pos := Some (2, 1); dropoff_pos := None |}
   then None else Some (2, 1)) = Some (2, 1) /\
  (exists act, wall_at (grid_env 3 3 [(1, 0)]) (move (grid_env 3 3 [(1, 0)]) (0, 0) act)
               = false /\
     A.manhattan_distance (move (grid_env 3 3 [(1, 0)]) (0, 0) act) (2, 1) <
     A.manhattan_distance (0, 0) (2, 1)) /\
  exists a,
    R.select_action 0 {| robot_pos := (0, 0); has_item := false;
                         pickup_pos := Some (2, 1); dropoff_pos := None |}
      (grid_env 3 3 [(1, 0)]) = Go a /\
    wall_at (grid_env 3 3 [(1, 0)]) (move (grid_env 3 3 [(1, 0)]) (0, 0) a) = false /\
    A.manhattan_distance (move (grid_env 3 3 [(1, 0)]) (0, 0) a) (2, 1) =
    A.manhattan_distance (0, 0) (2, 1) - 1.
Proof.
  assert (exists act,
            wall_at (grid_env 3 3 [(1, 0)]) (move (grid_env 3 3 [(1, 0)]) (0, 0) act)
              = false /\
            A.manhattan_distance (move (grid_env 3 3 [(1, 0)]) (0, 0) act) (2, 1) <
            A.manhattan_distance (0, 0) (2, 1)) as Hex.
  { exists E. split; [reflexivity|]. by vm_compute. }
  split; [done|]. split; [done|]. split; [exact Hex|].
  exact (reflex_moves_closer 0
           {| robot_pos := (0, 0); has_item := false;
              pickup_pos := Some (2, 1); dropoff_pos := None |}
           (grid_env 3 3 [(1, 0)]) (2, 1) (fun _ => eq_refl) eq_refl Hex).
Defined.

(** ** The greedy agent *)

Section GreedyFacts.
Variable env : Env.
Variable pos : Position.

Local Abbreviation valid act := (wall_at env (move env pos act) = false).

Lemma greedy_random_valid_move draw :
  match G._random_valid_move draw pos env with
  | Go act => valid act
  | WAIT => forall act, wall_at env (move env pos act) = true
  | _ => False
  end.
Proof.
  unfold G._random_valid_move.
  assert (forall act,
            (let '(dr, dc) := MOVE_DELTAS env act in
             _is_wall env (pos.1 + dr) (pos.2 + dc) = false) <-> valid act) as Hv.
  { intros act. unfold wall_at, move. destruct pos as [r c].
    by destruct (MOVE_DELTAS env act). }
  destruct (filter _ ACTIONS) as [|a rest] eqn:Hf.
  - intros act. destruct (wall_at env (move env pos act)) eqn:Hw; [done|].
    assert (act ∈ filter (fun act =>
              let '(dr, dc) := MOVE_DELTAS env act in
              _is_wall env (pos.1 + dr) (pos.2 + dc) = false) ACTIONS) as Hin.
    { apply list_elem_of_filter. split; [by apply Hv|apply elem_of_ACTIONS]. }
    rewrite Hf in Hin. inversion Hin.
  - pose proof (choice_elem_of draw a rest) as Hin. rewrite <- Hf in Hin.
    apply list_elem_of_filter in Hin as [Hin _]. by apply Hv.
Qed.

Variable target : Position.

Local Abbreviation dist act := (A.manhattan_distance (move env pos act) target).
Local Abbreviation curr := (A.manhattan_distance pos target).

Lemma scan_step_eq best best_d act :
  G.scan_step env pos target (best, best_d) act =
  if wall_at env (move env pos act) then (best, best_d)
  else if dist act <? best_d then ([act], dist act)
       else if (dist act =? best_d) && negb (bool_decide (best = []))
            then (best ++ [act], best_d)
            else (best, best_d).
Proof.
  unfold G.scan_step, wall_at, move, A.manhattan_distance.
  destruct pos as [r c], (MOVE_DELTAS env act) as [dr dc]. reflexivity.
Qed.

(** What the loop has collected after each pass: the moves seen so far
    that are not blocked and come closest, if any comes closer than the
    robot is. *)
Lemma scan_fold acts (seen : Action -> Prop) best best_d :
  best_d <= curr ->
  (best = [] -> best_d = curr) ->
  (best <> [] -> best_d < curr) ->
  (forall a, a ∈ best -> valid a /\ dist a = best_d) ->
  (forall b, seen b -> valid b -> best_d <= dist b) ->
  let r := fold_left (G.scan_step env pos target) acts (best, best_d) in
  r.2 <= curr /\
  (r.1 = [] -> r.2 = curr) /\
  (r.1 <> [] -> r.2 < curr) /\
  (forall a, a ∈ r.1 -> valid a /\ dist a = r.2) /\
  (forall b, seen b \/ b ∈ acts -> valid b -> r.2 <= dist b).
Proof.
  revert seen best best_d.
  induction acts as [|act acts IH]; intros seen best best_d H1 H2 H3 H4 H5;
    cbv zeta; cbn [fold_left].
  { simpl. split_and!; try done. intros b [Hb|Hb]; [by apply H5|inversion Hb]. }
  rewrite scan_step_eq.
  assert (forall (r : list Action * Z),
            (r.2 <= curr /\ (r.1 = [] -> r.2 = curr) /\ (r.1 <> [] -> r.2 < curr) /\
             (forall a, a ∈ r.1 -> valid a /\ dist a = r.2) /\
             (forall b, (seen b \/ b = act) \/ b ∈ acts -> valid b -> r.2 <= dist b)) ->
            r.2 <= curr /\ (r.1 = [] -> r.2 = curr) /\ (r.1 <> [] -> r.2 < curr) /\
            (forall a, a ∈ r.1 -> valid a /\ dist a = r.2) /\
            (forall b, seen b \/ b ∈ act :: acts -> valid b -> r.2 <= dist b)) as Hwrap.
  { intros r (? & ? & ? & ? & Hcov). split_and!; try done.
    intros b [Hb|Hb]; [apply Hcov; tauto|].
    apply elem_of_cons in Hb as [->|Hb]; apply Hcov; tauto. }
  apply Hwrap. clear Hwrap.
  destruct (wall_at env (move env pos act)) eqn:Hwall.
  { apply IH; try done. intros b [Hb| ->] Hv; [by apply H5|congruence]. }
  destruct (Z.ltb_spec (dist act) best_d) as [Hlt|Hge].
  { apply IH; try done; try lia.
    - intros a Ha. apply list_elem_of_singleton in Ha as ->. done.
    - intros b [Hb| ->] Hv; [|lia]. specialize (H5 b Hb Hv). lia. }
  destruct (Z.eqb_spec (dist act) best_d) as [Heq|Hneq]; simpl.
  - destruct (bool_decide_reflect (best = [])) as [Hnil|Hnil]; simpl.
    + apply IH; try done. intros b [Hb| ->] Hv; [by apply H5|lia].
    + apply IH; try done.
      * intros Happ. by apply app_eq_nil in Happ as [? _].
      * intros _. by apply H3.
      * intros a Ha. apply elem_of_app in Ha as [Ha|Ha]; [by apply H4|].
        apply list_elem_of_singleton in Ha as ->. done.
      * intros b [Hb| ->] Hv; [by apply H5|lia].
  - apply IH; try done. intros b [Hb| ->] Hv; [by apply H5|lia].
Qed.

Lemma scan_spec :
  (forall a, a ∈ G.scan env pos target ->
     valid a /\ dist a < curr /\ forall b, valid b -> dist a <= dist b) /\
  (G.scan env pos target = [] -> forall b, valid b -> curr <= dist b).
Proof.
  unfold G.scan.
  destruct (scan_fold ACTIONS (fun _ => False) [] curr) as (H1 & H2 & H3 & H4 & H5).
  { lia. }
  { done. }
  { done. }
  { intros a Ha. inversion Ha. }
  { done. }
  change (Z.abs (pos.1 - target.1) + Z.abs (pos.2 - target.2)) with curr.
  set (r := fold_left (G.scan_step env pos target) ACTIONS ([], curr)) in *.
  split.
  - intros a Ha. destruct (H4 a Ha) as [Hv Hd]. split; [done|].
    split; [|intros b Hb; rewrite Hd; apply H5; [right; apply elem_of_ACTIONS|done]].
    rewrite Hd. apply H3. intros Hnil. rewrite Hnil in Ha. inversion Ha.
  - intros Hnil b Hb. rewrite <- (H2 Hnil).
    apply H5; [right; apply elem_of_ACTIONS|done].
Qed.
End GreedyFacts.

Lemma greedy_toward draw env pos target :
  match G.toward draw env pos target with
  | Go a =>
      wall_at env (move env pos a) = false /\
      forall t, target = Some t ->
        (exists b, wall_at env (move env pos b) = false /\
           A.manhattan_distance (move env pos b) t < A.manhattan_distance pos t) ->
        A.manhattan_distance (move env pos a) t < A.manhattan_distance pos t /\
        forall b, wall_at env (move env pos b) = false ->
          A.manhattan_distance (move env pos a) t <=
          A.manhattan_distance (move env pos b) t
  | WAIT => forall act, wall_at env (move env pos act) = true
  | _ => False
  end.
Proof.
  unfold G.toward. destruct target as [t|].
  - destruct (scan_spec env pos t) as [Hbest Hnone].
    destruct (G.scan env pos t) as [|a rest] eqn:Hscan.
    + pose proof (greedy_random_valid_move env pos draw) as H.
      destruct (G._random_valid_move draw pos env); try done.
      split; [done|]. intros t' [= <-] (b & Hvb & Hlt).
      specialize (Hnone eq_refl b Hvb). lia.
    + pose proof (choice_elem_of draw a rest) as Hin.
      destruct (Hbest _ Hin) as (Hv & Hlt & Hmin).
      split; [done|]. by intros t' [= <-] _.
  - pose proof (greedy_random_valid_move env pos draw) as H.
    destruct (G._random_valid_move draw pos env); try done.
Qed.

Ltac by_toward :=
  match goal with
  | |- context [G.toward ?d ?e ?p ?t] =>
      let H := fresh in
      pose proof (greedy_toward d e p t) as H;
      destruct (G.toward d e p t); try done; by destruct H
  end.

(** X13.  What [GreedyManhattanAgent.select_action] returns: a move only
    into a cell that is not a wall; ["WAIT"] only when all four moves
    lead into walls; ["PICK"] exactly on the pickup cell without an item
    and ["DROP"] exactly on the dropoff cell with one. *)
Theorem greedy_select_action_sound draw obs env agent :
  match fst (G.select_action draw obs env agent) with
  | Go act => wall_at env (move env (robot_pos obs) act) = false
  | WAIT => forall act, wall_at env (move env (robot_pos obs) act) = true
  | PICK => has_item obs = false /\ pickup_pos obs = Some (robot_pos obs)
  | DROP => has_item obs = true /\ dropoff_pos obs = Some (robot_pos obs)
  end /\
  (has_item obs = false /\ pickup_pos obs = Some (robot_pos obs) <->
   fst (G.select_action draw obs env agent) = PICK) /\
  (has_item obs = true /\ dropoff_pos obs = Some (robot_pos obs) <->
   fst (G.select_action draw obs env agent) = DROP).
Proof.
  assert (forall c : Command,
            match c with
            | Go act => wall_at env (move env (robot_pos obs) act) = false
            | WAIT => forall act, wall_at env (move env (robot_pos obs) act) = true
            | _ => False
            end ->
            (has_item obs = false /\ pickup_pos obs = Some (robot_pos obs) -> False) ->
            (has_item obs = true /\ dropoff_pos obs = Some (robot_pos obs) -> False) ->
            match c with
            | Go act => wall_at env (move env (robot_pos obs) act) = false
            | WAIT => forall act, wall_at env (move env (robot_pos obs) act) = true
            | PICK => has_item obs = false /\ pickup_pos obs = Some (robot_pos obs)
            | DROP => has_item obs = true /\ dropoff_pos obs = Some (robot_pos obs)
            end /\
            (has_item obs = false /\ pickup_pos obs = Some (robot_pos obs) <-> c = PICK) /\
            (has_item obs = true /\ dropoff_pos obs = Some (robot_pos obs) <-> c = DROP))
    as Hmove.
  { intros c Hc Hp Hd. destruct c; try done; (split; [done|]); split; split; try done;
      intros; exfalso; tauto. }
  unfold G.select_action.
  destruct (has_item obs) eqn:Hitem; simpl.
  - destruct (bool_decide_reflect (dropoff_pos obs = Some (robot_pos obs))) as [Hd|Hd];
      simpl.
    { split; [done|]. split; split; try done. by intros [? _]. }
    destruct (0 <? G.escape_counter agent); [|destruct (bool_decide _)]; simpl;
      (apply Hmove; [by_toward|by intros [? _]|by intros [_ ?]]).
  - destruct (bool_decide_reflect (pickup_pos obs = Some (robot_pos obs))) as [Hd|Hd];
      simpl.
    { split; [done|]. split; split; try done. by intros [? _]. }
    destruct (bool_decide (dropoff_pos obs = Some (robot_pos obs)));
      [|destruct (0 <? G.escape_counter agent); [|destruct (bool_decide _)]]; simpl;
      (apply Hmove; [by_toward|by intros [_ ?]|by intros [? _]]).
Qed.

(** X14.  Whenever some move that is not blocked brings the robot closer
    to its target (the dropoff cell when carrying, the pickup cell
    otherwise), [GreedyManhattanAgent.select_action] returns a move that
    is not blocked, comes closer to the target, and comes at least as
    close as any other move that is not blocked, whatever the state of
    its loop detector. *)
Theorem greedy_moves_closest draw obs env agent t :
  (if has_item obs then dropoff_pos obs else pickup_pos obs) = Some t ->
  (exists b, wall_at env (move env (robot_pos obs) b) = false /\
     A.manhattan_distance (move env (robot_pos obs) b) t <
     A.manhattan_distance (robot_pos obs) t) ->
  exists a,
    fst (G.select_action draw obs env agent) = Go a /\
    wall_at env (move env (robot_pos obs) a) = false /\
    A.manhattan_distance (move env (robot_pos obs) a) t <
    A.manhattan_distance (robot_pos obs) t /\
    forall b, wall_at env (move env (robot_pos obs) b) = false ->
      A.manhattan_distance (move env (robot_pos obs) a) t <=
      A.manhattan_distance (move env (robot_pos obs) b) t.
Proof.
  intros Ht Hex.
  assert (robot_pos obs <> t) as Hne.
  { intros <-. destruct Hex as (b & _ & Hlt).
    pose proof (manhattan_nonneg (move env (robot_pos obs) b) (robot_pos obs)).
    assert (A.manhattan_distance (robot_pos obs) (robot_pos obs) = 0)
      by (unfold A.manhattan_distance; lia).
    lia. }
  assert (forall c,
            match c with
            | Go a =>
                wall_at env (move env (robot_pos obs) a) = false /\
                forall t', Some t = Some t' ->
                  (exists b, wall_at env (move env (robot_pos obs) b) = false /\
                     A.manhattan_distance (move env (robot_pos obs) b) t' <
                     A.manhattan_distance (robot_pos obs) t') ->
                  A.manhattan_distance (move env (robot_pos obs) a) t' <
                  A.manhattan_distance (robot_pos obs) t' /\
                  forall b, wall_at env (move env (robot_pos obs) b) = false ->
                    A.manhattan_distance (move env (robot_pos obs) a) t' <=
                    A.manhattan_distance (move env (robot_pos obs) b) t'
            | WAIT => forall act, wall_at env (move env (robot_pos obs) act) = true
            | _ => False
            end ->
            exists a, c = Go a /\
              wall_at env (move env (robot_pos obs) a) = false /\
              A.manhattan_distance (move env (robot_pos obs) a) t <
              A.manhattan_distance (robot_pos obs) t /\
              forall b, wall_at env (move env (robot_pos obs) b) = false ->
                A.manhattan_distance (move env (robot_pos obs) a) t <=
                A.manhattan_distance (move env (robot_pos obs) b) t) as Hgo.
  { intros [a| | |] Hc; try done.
    - destruct Hc as [Hv Hc]. destruct (Hc t eq_refl Hex) as [Hlt Hmin]. by exists a.
    - destruct Hex as (b & Hvb & _). rewrite Hc in Hvb. done. }
  unfold G.select_action.
  destruct (has_item obs) eqn:Hitem; simpl.
  - rewrite Ht. rewrite bool_decide_false by congruence. simpl.
    destruct (0 <? G.escape_counter agent); [|destruct (bool_decide _)]; simpl;
      apply Hgo; apply (greedy_toward draw env (robot_pos obs) (Some t)).
  - rewrite Ht. rewrite bool_decide_false by congruence. simpl.
    destruct (bool_decide (dropoff_pos obs = Some (robot_pos obs)));
      [|destruct (0 <? G.escape_counter agent); [|destruct (bool_decide _)]]; simpl;
      apply Hgo; apply (greedy_toward draw env (robot_pos obs) (Some t)).
Qed.

Lemma greedy_moves_closest_witness :
  (if has_item {| robot_pos := (0, 0); has_item := false;
                  pickup_pos := Some (2, 1); dropoff_pos := None |}
   then None else Some (2, 1)) = Some (2, 1) /\
  (exists b, wall_at (grid_env 3 3 [(1, 0)]) (move (grid_env 3 3 [(1, 0)]) (0, 0) b)
             = false /\
     A.manhattan_distance (move (grid_env 3 3 [(1, 0)]) (0, 0) b) (2, 1) <
     A.manhattan_distance (0, 0) (2, 1)) /\
  exists a,
    fst (G.select_action 0 {| robot_pos := (0, 0); has_item := false;
                              pickup_pos := Some (2, 1); dropoff_pos := None |}
           (grid_env 3 3 [(1, 0)]) (G.init 10 3)) = Go a /\
    wall_at (grid_env 3 3 [(1, 0)]) (move (grid_env 3 3 [(1, 0)]) (0, 0) a) = false /\
    A.manhattan_distance (move (grid_env 3 3 [(1, 0)]) (0, 0) a) (2, 1) <
    A.manhattan_distance (0, 0) (2, 1) /\
    forall b, wall_at (grid_env 3 3 [(1, 0)]) (move (grid_env 3 3 [(1, 0)]) (0, 0) b)
              = false ->
      A.manhattan_distance (move (grid_env 3 3 [(1, 0)]) (0, 0) a) (2, 1) <=
      A.manhattan_distance (move (grid_env 3 3 [(1, 0)]) (0, 0) b) (2, 1).
Proof.
  assert (exists b,
            wall_at (grid_env 3 3 [(1, 0)]) (move (grid_env 3 3 [(1, 0)]) (0, 0) b)
              = false /\
            A.manhattan_distance (move (grid_env 3 3 [(1, 0)]) (0, 0) b) (2, 1) <
            A.manhattan_distance (0, 0) (2, 1)) as Hex.
  { exists E. split; [reflexivity|]. by vm_compute. }
  split; [done|]. split; [exact Hex|].
  exact (greedy_moves_closest 0
           {| robot_pos := (0, 0); has_item := false;
              pickup_pos := Some (2, 1); dropoff_pos := None |}
           (grid_env 3 3 [(1, 0)]) (G.init 10 3) (2, 1) eq_refl Hex).
Defined.



(** A bounded deque keeps the newest entry when it keeps any. *)
Lemma deque_append_last maxlen d x :
  (0 < maxlen)%nat -> last (G.deque_append maxlen d x) = Some x.
Proof.
  intros Hpos. unfold G.deque_append.
  rewrite last_lookup, length_drop, lookup_drop, length_app. simpl.
  replace (length d + 1 - maxlen + pred (length d + 1 - (length d + 1 - maxlen)))%nat
    with (length d) by lia.
  rewrite lookup_app_r by lia. by rewrite Nat.sub_diag.
Qed.



(** ** Rack layouts *)

Module L := rack_layout.
Module GA := genetic_algorithm.

Lemma flat_map_length_le {X Y : Type} (f : X -> list Y) (k : nat) (l : list X) :
  (forall x, (length (f x) <= k)%nat) ->
  (length (flat_map f l) <= k * length l)%nat.
Proof.
  intros Hf. induction l as [|x l IH]; simpl; [lia|].
  rewrite length_app. specialize (Hf x). lia.
Qed.

Lemma neighbors_inv self r :
  r ∈ L.neighbors self ->
  exists i x y dx dy,
    L.positions self !! i = Some (x, y) /\
    (dx, dy) ∈ L.STEPS /\
    0 <= x + dx < L.grid_size self /\
    0 <= y + dy < L.grid_size self /\
    ((x + dx, y + dy) ∉ L.positions self) /\
    r = {| L.positions := <[i := (x + dx, y + dy)]> (L.positions self);
           L.grid_size := L.grid_size self;
           L.depot := L.depot self |}.
Proof.
  unfold L.neighbors. intros Hin.
  apply list_elem_of_In, in_flat_map in Hin as ([i [x y]] & Hi & Hin).
  apply list_elem_of_In, elem_of_lookup_imap in Hi as (i' & p & Heq & Hlook).
  inversion Heq; subst i' p; clear Heq.
  apply in_flat_map in Hin as ([dx dy] & Hd & Hin). cbv zeta in Hin.
  destruct ((0 <=? x + dx) && (x + dx <? L.grid_size self) &&
            (0 <=? y + dy) && (y + dy <? L.grid_size self)) eqn:Hb;
    simpl in Hin; [|done].
  destruct (bool_decide ((x + dx, y + dy) ∈ L.positions self)) eqn:Hocc;
    simpl in Hin; [done|].
  destruct Hin as [<-|[]].
  apply bool_decide_eq_false in Hocc.
  repeat (apply andb_true_iff in Hb as [Hb ?]).
  exists i, x, y, dx, dy. split_and!; try done; try lia.
  by apply list_elem_of_In.
Qed.

Lemma STEPS_unit dx dy : (dx, dy) ∈ L.STEPS -> Z.abs dx + Z.abs dy = 1.
Proof.
  unfold L.STEPS. intros H.
  repeat (apply elem_of_cons in H as [H|H]; [inversion H; subst; reflexivity|]).
  by apply elem_of_nil in H.
Qed.

(** X16.  Every layout [RackLayout.neighbors] returns is the given
    layout with one rack moved to a cell at Manhattan distance 1 that
    lies on the grid and held no rack; grid size and depot are kept. *)
Theorem neighbors_sound self r :
  r ∈ L.neighbors self ->
  L.grid_size r = L.grid_size self /\
  L.depot r = L.depot self /\
  exists i p q,
    L.positions self !! i = Some p /\
    L.positions r = <[i := q]> (L.positions self) /\
    L.manhattan p q = 1 /\
    0 <= fst q < L.grid_size self /\
    0 <= snd q < L.grid_size self /\
    (q ∉ L.positions self).
Proof.
  intros Hin.
  apply neighbors_inv in Hin as (i & x & y & dx & dy & Hi & Hd & Hx & Hy & Hocc & ->).
  simpl. split_and!; try done.
  exists i, (x, y), (x + dx, y + dy). split_and!; try done; simpl; try lia.
  apply STEPS_unit in Hd. unfold L.manhattan. simpl. lia.
Qed.

Lemma neighbors_sound_witness :
  {| L.positions := [(0, 1); (1, 1)]; L.grid_size := 3; L.depot := (2, 2) |}
    ∈ L.neighbors {| L.positions := [(0, 0); (1, 1)]; L.grid_size := 3;
                     L.depot := (2, 2) |} /\
  L.grid_size {| L.positions := [(0, 1); (1, 1)]; L.grid_size := 3;
                 L.depot := (2, 2) |} = 3 /\
  L.depot {| L.positions := [(0, 1); (1, 1)]; L.grid_size := 3;
             L.depot := (2, 2) |} = (2, 2) /\
  exists i p q,
    [(0, 0); (1, 1)] !! i = Some p /\
    [(0, 1); (1, 1)] = <[i := q]> [(0, 0); (1, 1)] /\
    L.manhattan p q = 1 /\
    0 <= fst q < 3 /\
    0 <= snd q < 3 /\
    (q ∉ [(0, 0); (1, 1)]).
Proof.
  assert ({| L.positions := [(0, 1); (1, 1)]; L.grid_size := 3; L.depot := (2, 2) |}
            ∈ L.neighbors {| L.positions := [(0, 0); (1, 1)]; L.grid_size := 3;
                             L.depot := (2, 2) |}) as Hin.
  { vm_compute. apply list_elem_of_further, list_elem_of_here. }
  split; [exact Hin|].
  exact (neighbors_sound _ _ Hin).
Defined.

Lemma insert_NoDup_fresh {X : Type} (l : list X) i q :
  NoDup l -> q ∉ l -> NoDup (<[i := q]> l).
Proof.
  intros Hnd. revert i. induction Hnd as [|x l Hx Hnd IH]; intros i Hq.
  - constructor.
  - apply not_elem_of_cons in Hq as [Hne Hq]. destruct i as [|i]; simpl.
    + by constructor.
    + constructor; [|by apply IH].
      intros Hin. apply list_elem_of_lookup in Hin as [j Hj].
      destruct (decide (i = j)) as [->|Hij].
      * assert (j < length l)%nat as Hlt.
        { apply lookup_lt_Some in Hj. by rewrite length_insert in Hj. }
        rewrite list_lookup_insert_eq in Hj by done. congruence.
      * rewrite list_lookup_insert_ne in Hj by done.
        apply Hx. by eapply list_elem_of_lookup_2.
Qed.

Lemma insert_Forall {X : Type} (P : X -> Prop) (l : list X) i q :
  Forall P l -> P q -> Forall P (<[i := q]> l).
Proof.
  intros Hl Hq. apply Forall_forall. intros x Hin.
  apply list_elem_of_lookup in Hin as [j Hj].
  destruct (decide (i = j)) as [->|Hij].
  - assert (j < length l)%nat as Hlt.
    { apply lookup_lt_Some in Hj. by rewrite length_insert in Hj. }
    rewrite list_lookup_insert_eq in Hj by done. congruence.
  - rewrite list_lookup_insert_ne in Hj by done.
    rewrite Forall_forall in Hl. apply Hl. by eapply list_elem_of_lookup_2.
Qed.

(** X17.  [RackLayout.neighbors] keeps a layout well formed: from racks
    on pairwise distinct cells of the grid, every neighbour again has
    the same number of racks, on pairwise distinct cells of the grid. *)
Theorem neighbors_keep_layout self r :
  NoDup (L.positions self) ->
  Forall (fun p => 0 <= fst p < L.grid_size self /\ 0 <= snd p < L.grid_size self)
    (L.positions self) ->
  r ∈ L.neighbors self ->
  length (L.positions r) = length (L.positions self) /\
  NoDup (L.positions r) /\
  Forall (fun p => 0 <= fst p < L.grid_size r /\ 0 <= snd p < L.grid_size r)
    (L.positions r).
Proof.
  intros Hnd Hall Hin.
  apply neighbors_inv in Hin as (i & x & y & dx & dy & Hi & Hd & Hx & Hy & Hocc & ->).
  simpl. split_and!.
  - by rewrite length_insert.
  - by apply insert_NoDup_fresh.
  - by apply insert_Forall.
Qed.

Lemma neighbors_keep_layout_witness :
  NoDup [(0, 0); (1, 1)] /\
  Forall (fun p : Position => 0 <= fst p < 3 /\ 0 <= snd p < 3) [(0, 0); (1, 1)] /\
  {| L.positions := [(0, 1); (1, 1)]; L.grid_size := 3; L.depot := (2, 2) |}
    ∈ L.neighbors {| L.positions := [(0, 0); (1, 1)]; L.grid_size := 3;
                     L.depot := (2, 2) |} /\
  length [(0, 1); (1, 1)] = length [(0, 0); (1, 1)] /\
  NoDup [(0, 1); (1, 1)] /\
  Forall (fun p : Position => 0 <= fst p < 3 /\ 0 <= snd p < 3) [(0, 1); (1, 1)].
Proof.
  assert (NoDup [(0, 0); (1, 1)]) as Hnd.
  { apply (bool_decide_unpack _). by vm_compute. }
  assert (Forall (fun p : Position => 0 <= fst p < 3 /\ 0 <= snd p < 3)
            [(0, 0); (1, 1)]) as Hall.
  { repeat constructor; simpl; lia. }
  assert ({| L.positions := [(0, 1); (1, 1)]; L.grid_size := 3; L.depot := (2, 2) |}
            ∈ L.neighbors {| L.positions := [(0, 0); (1, 1)]; L.grid_size := 3;
                             L.depot := (2, 2) |}) as Hin.
  { vm_compute. apply list_elem_of_further, list_elem_of_here. }
  split; [exact Hnd|]. split; [exact Hall|]. split; [exact Hin|].
  exact (neighbors_keep_layout
           {| L.positions := [(0, 0); (1, 1)]; L.grid_size := 3; L.depot := (2, 2) |}
           _ Hnd Hall Hin).
Defined.

(** X18.  [RackLayout.neighbors] leaves out no legal move: moving any
    rack by one step along a row or a column to a free cell of the grid
    gives a layout of the returned list. *)
Theorem neighbors_complete self i p q :
  L.positions self !! i = Some p ->
  L.manhattan p q = 1 ->
  0 <= fst q < L.grid_size self ->
  0 <= snd q < L.grid_size self ->
  (q ∉ L.positions self) ->
  {| L.positions := <[i := q]> (L.positions self);
     L.grid_size := L.grid_size self;
     L.depot := L.depot self |} ∈ L.neighbors self.
Proof.
  intros Hi Hm Hx Hy Hocc. destruct p as [x y], q as [qx qy]. simpl in *.
  unfold L.neighbors. apply list_elem_of_In, in_flat_map.
  exists (i, (x, y)). split.
  { apply list_elem_of_In, elem_of_lookup_imap. by exists i, (x, y). }
  apply in_flat_map. exists (qx - x, qy - y). split.
  { unfold L.manhattan in Hm. simpl in Hm. unfold L.STEPS.
    assert ((qx - x = -1 /\ qy - y = 0) \/ (qx - x = 1 /\ qy - y = 0) \/
            (qx - x = 0 /\ qy - y = -1) \/ (qx - x = 0 /\ qy - y = 1))
      as [[-> ->]|[[-> ->]|[[-> ->]|[-> ->]]]] by lia; simpl; tauto. }
  cbv zeta. replace (x + (qx - x)) with qx by lia.
  replace (y + (qy - y)) with qy by lia.
  assert ((0 <=? qx) && (qx <? L.grid_size self) &&
          (0 <=? qy) && (qy <? L.grid_size self) = true) as ->.
  { repeat (apply andb_true_iff; split); lia. }
  simpl. rewrite bool_decide_eq_false_2 by done. by left.
Qed.

Lemma neighbors_complete_witness :
  [(0, 0); (1, 1)] !! 0%nat = Some (0, 0) /\
  L.manhattan (0, 0) (0, 1) = 1 /\
  0 <= fst (0, 1) < 3 /\
  0 <= snd (0, 1) < 3 /\
  ((0, 1) ∉ [(0, 0); (1, 1)]) /\
  {| L.positions := <[0%nat := (0, 1)]> [(0, 0); (1, 1)];
     L.grid_size := 3;
     L.depot := (2, 2) |}
    ∈ L.neighbors {| L.positions := [(0, 0); (1, 1)]; L.grid_size := 3;
                     L.depot := (2, 2) |}.
Proof.
  assert ((0, 1) ∉ [(0, 0); (1, 1)]) as Hocc.
  { apply (bool_decide_unpack _). by vm_compute. }
  split; [reflexivity|]. split; [reflexivity|].
  split; [simpl; lia|]. split; [simpl; lia|]. split; [exact Hocc|].
  apply (neighbors_complete
           {| L.positions := [(0, 0); (1, 1)]; L.grid_size := 3; L.depot := (2, 2) |}
           0%nat (0, 0) (0, 1)); [reflexivity|reflexivity|simpl; lia|simpl; lia|exact Hocc].
Defined.

(** X19.  [RackLayout.neighbors] returns at most four layouts for each
    rack. *)
Theorem neighbors_count self :
  (length (L.neighbors self) <= 4 * length (L.positions self))%nat.
Proof.
  unfold L.neighbors.
  etransitivity; [apply (flat_map_length_le _ 4)|by rewrite length_imap].
  intros [i [x y]].
  etransitivity; [apply (flat_map_length_le _ 1)|simpl; lia].
  intros [dx dy]. cbv zeta.
  destruct (negb _); [simpl; lia|]. destruct (bool_decide _); simpl; lia.
Qed.

Lemma elem_of_all_cells self c :
  c ∈ L.all_cells self ->
  0 <= fst c < L.grid_size self /\ 0 <= snd c < L.grid_size self.
Proof.
  unfold L.all_cells. intros Hin.
  apply list_elem_of_In, in_flat_map in Hin as (x & Hx & Hin).
  apply list_elem_of_In, list_elem_of_fmap in Hin as (y & -> & Hy).
  apply list_elem_of_In, elem_of_seqZ in Hx. apply elem_of_seqZ in Hy.
  simpl. lia.
Qed.

(** X20.  [RackLayout.mutate] on a layout with at least one rack, all on
    pairwise distinct cells, returns a layout (it does not raise) with
    the same grid, depot and number of racks, again on pairwise distinct
    cells: either the same positions, or one rack put on a cell of the
    grid that held no rack and is not the depot. *)
Theorem mutate_keeps_layout draw_i draw_c self :
  L.positions self <> [] ->
  NoDup (L.positions self) ->
  exists r,
    L.mutate draw_i draw_c self = Some r /\
    L.grid_size r = L.grid_size self /\
    L.depot r = L.depot self /\
    length (L.positions r) = length (L.positions self) /\
    NoDup (L.positions r) /\
    (L.positions r = L.positions self \/
     exists i q,
       (i < length (L.positions self))%nat /\
       L.positions r = <[i := q]> (L.positions self) /\
       (q ∉ L.positions self) /\
       q <> L.depot self /\
       0 <= fst q < L.grid_size self /\
       0 <= snd q < L.grid_size self).
Proof.
  intros Hne Hnd. unfold L.mutate. cbv zeta.
  destruct (filter _ (L.all_cells self)) as [|c cs] eqn:Hch.
  { eexists. split; [reflexivity|]. simpl. split_and!; auto. }
  destruct (L.positions self) as [|p0 ps] eqn:Hpos; [done|].
  rewrite <- Hpos in *.
  pose proof (choice_elem_of draw_c c cs) as Hin.
  rewrite <- Hch in Hin. apply list_elem_of_filter in Hin as [[Hocc Hdep] Hcell].
  apply not_elem_of_list_to_set in Hocc.
  apply elem_of_all_cells in Hcell as [Hx Hy].
  eexists. split; [reflexivity|]. simpl. split_and!; auto.
  - by rewrite length_insert.
  - by apply insert_NoDup_fresh.
  - right. eexists _, _. split_and!; try done; try lia.
    apply Nat.mod_upper_bound. rewrite Hpos. simpl. lia.
Qed.

Lemma mutate_keeps_layout_witness :
  [(0, 0); (1, 1)] <> ([] : list Position) /\
  NoDup [((0, 0) : Position); (1, 1)] /\
  exists r,
    L.mutate 3 5 {| L.positions := [(0, 0); (1, 1)]; L.grid_size := 3;
                    L.depot := (2, 2) |} = Some r /\
    L.grid_size r = 3 /\
    L.depot r = (2, 2) /\
    length (L.positions r) = length [((0, 0) : Position); (1, 1)] /\
    NoDup (L.positions r) /\
    (L.positions r = [(0, 0); (1, 1)] \/
     exists i q,
       (i < 2)%nat /\
       L.positions r = <[i := q]> [(0, 0); (1, 1)] /\
       (q ∉ [((0, 0) : Position); (1, 1)]) /\
       q <> (2, 2) /\
       0 <= fst q < 3 /\
       0 <= snd q < 3).
Proof.
  assert (NoDup [((0, 0) : Position); (1, 1)]) as Hnd.
  { apply (bool_decide_unpack _). by vm_compute. }
  split; [done|]. split; [exact Hnd|].
  exact (mutate_keeps_layout 3 5
           {| L.positions := [(0, 0); (1, 1)]; L.grid_size := 3; L.depot := (2, 2) |}
           ltac:(done) Hnd).
Defined.

(** ** Crossover *)

Lemma crossover_kept draws p1 p2 :
  length (take (length (L.positions p1) / 2) (L.positions p1) ++
          filter (fun p => p ∉ take (length (L.positions p1) / 2) (L.positions p1))
            (L.positions p2))
  = length (L.positions p1) ->
  GA.crossover draws p1 p2 =
  Some {| L.positions :=
            take (length (L.positions p1) / 2) (L.positions p1) ++
            filter (fun p => p ∉ take (length (L.positions p1) / 2) (L.positions p1))
              (L.positions p2);
          L.grid_size := L.grid_size p1;
          L.depot := L.depot p1 |}.
Proof.
  intros Hlen. unfold GA.crossover. cbv zeta.
  by rewrite bool_decide_eq_false_2 by (by intros Hne; apply Hne).
Qed.

(** X21.  When the first half of the first parent and the racks of the
    second parent outside it make as many racks as the first parent has,
    so that [crossover] does not fall back on random positions, and the
    racks of each parent are on pairwise distinct cells, [crossover]
    returns a child with the grid and depot of the first parent and as
    many racks, on pairwise distinct cells, that begins with the first
    half of the first parent and takes every rack from one of the
    parents. *)
Theorem crossover_unique draws p1 p2 :
  NoDup (L.positions p1) ->
  NoDup (L.positions p2) ->
  length (take (length (L.positions p1) / 2) (L.positions p1) ++
          filter (fun p => p ∉ take (length (L.positions p1) / 2) (L.positions p1))
            (L.positions p2))
  = length (L.positions p1) ->
  exists child,
    GA.crossover draws p1 p2 = Some child /\
    L.grid_size child = L.grid_size p1 /\
    L.depot child = L.depot p1 /\
    length (L.positions child) = length (L.positions p1) /\
    NoDup (L.positions child) /\
    take (length (L.positions p1) / 2) (L.positions child) =
      take (length (L.positions p1) / 2) (L.positions p1) /\
    forall q, q ∈ L.positions child -> q ∈ L.positions p1 \/ q ∈ L.positions p2.
Proof.
  intros Hnd1 Hnd2 Hlen. eexists. split; [by apply crossover_kept|].
  cbn [L.positions L.grid_size L.depot].
  set (cut := (length (L.positions p1) / 2)%nat) in *.
  split; [done|]. split; [done|]. split; [done|]. split_and!.
  - apply NoDup_app. split_and!.
    + rewrite <- (take_drop cut (L.positions p1)) in Hnd1.
      by apply NoDup_app in Hnd1 as [? _].
    + intros x Hx Hf. by apply list_elem_of_filter in Hf as [Hf _].
    + by apply NoDup_filter.
  - rewrite take_app_le.
    + rewrite take_take. f_equal. lia.
    + rewrite length_take. unfold cut.
      pose proof (Nat.Div0.mul_div_le (length (L.positions p1)) 2). lia.
  - intros q Hq. apply elem_of_app in Hq as [Hq|Hq].
    + left. by eapply subseteq_take.
    + right. by apply list_elem_of_filter in Hq as [_ ?].
Qed.

Lemma crossover_unique_witness :
  NoDup [((0, 0) : Position); (1, 1)] /\
  NoDup [((0, 0) : Position); (2, 0)] /\
  exists child,
    GA.crossover [] {| L.positions := [(0, 0); (1, 1)]; L.grid_size := 3;
                       L.depot := (2, 2) |}
      {| L.positions := [(0, 0); (2, 0)]; L.grid_size := 3; L.depot := (2, 2) |}
      = Some child /\
    L.positions child = [(0, 0); (2, 0)] /\
    L.grid_size child = 3 /\
    L.depot child = (2, 2) /\
    NoDup (L.positions child) /\
    forall q, q ∈ L.positions child ->
      q ∈ [((0, 0) : Position); (1, 1)] \/ q ∈ [((0, 0) : Position); (2, 0)].
Proof.
  assert (NoDup [((0, 0) : Position); (1, 1)]) as Hnd1.
  { apply (bool_decide_unpack _). by vm_compute. }
  assert (NoDup [((0, 0) : Position); (2, 0)]) as Hnd2.
  { apply (bool_decide_unpack _). by vm_compute. }
  split; [exact Hnd1|]. split; [exact Hnd2|].
  destruct (crossover_unique []
              {| L.positions := [(0, 0); (1, 1)]; L.grid_size := 3; L.depot := (2, 2) |}
              {| L.positions := [(0, 0); (2, 0)]; L.grid_size := 3; L.depot := (2, 2) |}
              Hnd1 Hnd2 eq_refl)
    as (child & Hc & Hg & Hd & _ & Hnd & _ & Hin).
  exists child. split; [exact Hc|].
  assert (GA.crossover [] {| L.positions := [(0, 0); (1, 1)]; L.grid_size := 3;
                             L.depot := (2, 2) |}
            {| L.positions := [(0, 0); (2, 0)]; L.grid_size := 3; L.depot := (2, 2) |}
          = Some {| L.positions := [(0, 0); (2, 0)]; L.grid_size := 3;
                    L.depot := (2, 2) |}) as Hval by (vm_compute; reflexivity).
  rewrite Hval in Hc. injection Hc as <-.
  split; [reflexivity|]. split; [exact Hg|]. split; [exact Hd|].
  split; [exact Hnd|exact Hin].
Defined.

Lemma filter_none {X : Type} (P : X -> Prop) `{!forall x, Decision (P x)} (l : list X) :
  Forall (fun x => ~ P x) l -> filter P l = [].
Proof.
  induction 1 as [|x l Hx _ IH]; [done|].
  rewrite filter_cons. by destruct (decide (P x)).
Qed.

Lemma filter_all {X : Type} (P : X -> Prop) `{!forall x, Decision (P x)} (l : list X) :
  Forall P l -> filter P l = l.
Proof.
  induction 1 as [|x l Hx _ IH]; [done|].
  rewrite filter_cons. destruct (decide (P x)); [by rewrite IH|done].
Qed.

Lemma filter_not_in_take (l : list Position) cut :
  NoDup l -> filter (fun p => p ∉ take cut l) l = drop cut l.
Proof.
  intros Hnd. rewrite <- (take_drop cut l) in Hnd.
  apply NoDup_app in Hnd as (_ & Hdisj & _).
  assert (filter (fun p => p ∉ take cut l) (take cut l ++ drop cut l) = drop cut l)
    as Heq.
  { rewrite filter_app, filter_none, filter_all; [done| |].
    - apply Forall_forall. intros x Hx Hin. by apply (Hdisj x).
    - apply Forall_forall. intros x Hx Hn. by apply Hn. }
  by rewrite take_drop in Heq.
Qed.

(** X22.  When the second parent holds the racks of the first in some
    order, and these are on pairwise distinct cells, [crossover] does
    not fall back: it returns a child that holds the same racks again,
    the first half in the first parent's order and the others in the
    second parent's. *)
Theorem crossover_permutation draws p1 p2 :
  NoDup (L.positions p1) ->
  L.positions p2 ≡ₚ L.positions p1 ->
  exists child,
    GA.crossover draws p1 p2 = Some child /\
    (L.positions child ≡ₚ L.positions p1) /\
    L.positions child =
      take (length (L.positions p1) / 2) (L.positions p1) ++
      filter (fun p => p ∉ take (length (L.positions p1) / 2) (L.positions p1))
        (L.positions p2).
Proof.
  intros Hnd Hperm.
  set (cut := (length (L.positions p1) / 2)%nat).
  assert (take cut (L.positions p1) ++
          filter (fun p => p ∉ take cut (L.positions p1)) (L.positions p2)
          ≡ₚ L.positions p1) as Hchild.
  { rewrite Hperm, filter_not_in_take by done. by rewrite take_drop. }
  eexists. split; [apply crossover_kept; fold cut; by rewrite Hchild|].
  cbn [L.positions]. by split.
Qed.

Lemma crossover_permutation_witness :
  NoDup [((0, 0) : Position); (1, 1); (2, 0)] /\
  ([((2, 0) : Position); (0, 0); (1, 1)] ≡ₚ [(0, 0); (1, 1); (2, 0)]) /\
  exists child,
    GA.crossover [] {| L.positions := [(0, 0); (1, 1); (2, 0)]; L.grid_size := 3;
                       L.depot := (2, 2) |}
      {| L.positions := [(2, 0); (0, 0); (1, 1)]; L.grid_size := 3;
         L.depot := (2, 2) |} = Some child /\
    (L.positions child ≡ₚ [(0, 0); (1, 1); (2, 0)]) /\
    L.positions child =
      take (length [((0, 0) : Position); (1, 1); (2, 0)] / 2) [(0, 0); (1, 1); (2, 0)] ++
      filter (fun p => p ∉ take (length [((0, 0) : Position); (1, 1); (2, 0)] / 2)
                             [((0, 0) : Position); (1, 1); (2, 0)])
        [(2, 0); (0, 0); (1, 1)].
Proof.
  assert (NoDup [((0, 0) : Position); (1, 1); (2, 0)]) as Hnd.
  { apply (bool_decide_unpack _). by vm_compute. }
  assert ([((2, 0) : Position); (0, 0); (1, 1)] ≡ₚ [(0, 0); (1, 1); (2, 0)]) as Hperm.
  { change [((2, 0) : Position); (0, 0); (1, 1)]
      with ([((2, 0) : Position)] ++ [(0, 0); (1, 1)]).
    change [((0, 0) : Position); (1, 1); (2, 0)]
      with ([((0, 0) : Position); (1, 1)] ++ [(2, 0)]).
    apply Permutation_app_comm. }
  split; [exact Hnd|]. split; [exact Hperm|].
  exact (crossover_permutation []
           {| L.positions := [(0, 0); (1, 1); (2, 0)]; L.grid_size := 3;
              L.depot := (2, 2) |}
           {| L.positions := [(2, 0); (0, 0); (1, 1)]; L.grid_size := 3;
              L.depot := (2, 2) |}
           Hnd Hperm).
Defined.

(** * The calls with the bound on nested calls *)

Lemma ucs_found_path_length ident env goal max_expansions start node st :
  U.run ident env goal max_expansions start = Some (Found node, st) ->
  (length (U.path node) <= Z.to_nat max_expansions + 1)%nat.
Proof.
  intros Hrun.
  pose proof (ucs_counts_post _ _ _ _ _ _ _ _ Hrun) as (_ & _ & Hg).
  destruct (ucs_cap_exact _ _ _ _ _ _ _ _ Hrun) as [_ Hcap].
  specialize (Hcap ltac:(discriminate)).
  apply ucs_loop_post in Hrun as (F & e & _ & _ & _ & Hwf & _).
  pose proof (ucs_path_length _ _ _ Hwf). lia.
Qed.

Lemma astar_found_path_length ident env goal heuristic max_expansions start node st :
  A.run ident env goal heuristic max_expansions start = Some (Found node, st) ->
  (length (A.path node) <= Z.to_nat max_expansions + 1)%nat.
Proof.
  intros Hrun.
  pose proof (astar_counts_post _ _ _ _ _ _ _ _ _ Hrun) as (_ & _ & Hg).
  destruct (astar_cap_exact _ _ _ _ _ _ _ _ _ Hrun) as [_ Hcap].
  specialize (Hcap ltac:(discriminate)).
  apply astar_found_wf in Hrun as [Hwf _].
  pose proof (astar_path_length _ _ _ _ _ Hwf). lia.
Qed.

(** X23.  Each call of [uniformcost_search] and of [astar_search] ends,
    for every start, goal, environment, cap and number of frames left:
    the loop is over within [4 * max_expansions + 2] passes, and the call
    returns what the loop found, a path or "not found", unless the path
    has more cells than frames are left for [Node.path], when it raises
    [RecursionError].  A returned path has at most [max_expansions + 1]
    cells, so a call with that many frames left always returns. *)
Theorem searches_end frames ident env goal heuristic max_expansions start :
  (exists r,
     U.uniformcost_search ident env goal max_expansions start = Some r /\
     U.uniformcost_search_within ident env goal max_expansions frames start =
       Some (match fst r with
             | Some p =>
                 if decide (length p <= frames)%nat then Returns r else RecursionError
             | None => Returns r
             end) /\
     (forall fuel, (4 * Z.to_nat max_expansions + 1 < fuel)%nat ->
        U.result_within frames <$>
          while_loop (U.iteration ident env goal max_expansions) fuel
            (U.initial ident start)
        = U.uniformcost_search_within ident env goal max_expansions frames start) /\
     (forall p, fst r = Some p -> (length p <= Z.to_nat max_expansions + 1)%nat)) /\
  (exists r,
     A.astar_search ident env goal heuristic max_expansions start = Some r /\
     A.astar_search_within ident env goal heuristic max_expansions frames start =
       Some (match fst r with
             | Some p =>
                 if decide (length p <= frames)%nat then Returns r else RecursionError
             | None => Returns r
             end) /\
     (forall fuel, (4 * Z.to_nat max_expansions + 1 < fuel)%nat ->
        A.result_within frames <$>
          while_loop (A.iteration ident env goal heuristic max_expansions) fuel
            (A.initial ident goal heuristic start)
        = A.astar_search_within ident env goal heuristic max_expansions frames start) /\
     (forall p, fst r = Some p -> (length p <= Z.to_nat max_expansions + 1)%nat)).
Proof.
  split.
  - destruct (ucs_run_is_Some ident env goal max_expansions start) as [[out st] Hrun].
    exists (U.result (out, st)).
    unfold U.uniformcost_search, U.uniformcost_search_within. rewrite Hrun.
    cbn [fmap option_fmap option_map]. split; [done|].
    split; [by rewrite ucs_result_within|]. split.
    + intros fuel Hfuel. pose proof Hrun as Hloop. unfold U.run in Hloop.
      rewrite (while_loop_fuel_mono _ _ fuel _ _ Hloop); [done|].
      unfold U.budget, U.initial, heapq.heappush. simpl. rewrite Z.sub_0_r. lia.
    + intros p Hp. unfold U.result in Hp. destruct out as [node| |]; simpl in Hp;
        [|done..]. injection Hp as <-. by eapply ucs_found_path_length.
  - destruct (astar_run_is_Some ident env goal heuristic max_expansions start)
      as [[out st] Hrun].
    exists (A.result (out, st)).
    unfold A.astar_search, A.astar_search_within. rewrite Hrun.
    cbn [fmap option_fmap option_map]. split; [done|].
    split; [by rewrite astar_result_within|]. split.
    + intros fuel Hfuel. pose proof Hrun as Hloop. unfold A.run in Hloop.
      rewrite (while_loop_fuel_mono _ _ fuel _ _ Hloop); [done|].
      unfold A.budget, A.initial, heapq.heappush. simpl. rewrite Z.sub_0_r. lia.
    + intros p Hp. unfold A.result in Hp. destruct out as [node| |]; simpl in Hp;
        [|done..]. injection Hp as <-. by eapply astar_found_path_length.
Qed.

(** * Random layouts *)

Lemma sample_spec {X : Type} draws (population : list X) k :
  match L.sample draws population k with
  | Some chosen => length chosen = k /\ chosen ⊆+ population
  | None => (length population < k)%nat
  end.
Proof.
  revert draws population. induction k as [|k IH]; intros draws population.
  { simpl. split; [done|]. apply submseteq_nil_l. }
  destruct population as [|x population]; [simpl; lia|].
  cbn [L.sample].
  set (i := (hd O draws mod length (x :: population))%nat).
  assert (i < length (x :: population))%nat as Hi.
  { apply Nat.mod_upper_bound. simpl. lia. }
  destruct (lookup_lt_is_Some_2 _ _ Hi) as [y Hy].
  specialize (IH (tl draws) (delete i (x :: population))).
  destruct (L.sample (tl draws) (delete i (x :: population)) k) as [chosen|];
    cbn [mbind option_bind].
  - destruct IH as [Hlen Hsub]. split; [simpl; by rewrite Hlen|].
    rewrite (nth_lookup_Some _ _ _ _ Hy).
    rewrite (delete_Permutation (x :: population) i y Hy) at 1.
    by apply submseteq_skip.
  - rewrite length_delete in IH by (by eexists). lia.
Qed.

Lemma remove_first_perm x (l : list Position) :
  x ∈ l -> l ≡ₚ x :: L.remove_first x l.
Proof.
  induction l as [|y l IH]; [by intros ?%elem_of_nil|].
  intros Hin. simpl. destruct (decide (y = x)) as [->|Hne]; [done|].
  apply elem_of_cons in Hin as [->|Hin]; [done|].
  rewrite (IH Hin) at 1. apply Permutation_swap.
Qed.

Lemma pairs_NoDup (xs ys : list Z) :
  NoDup xs -> NoDup ys ->
  NoDup (flat_map (fun x => map (fun y => (x, y)) ys) xs).
Proof.
  intros Hxs Hys. induction Hxs as [|x xs Hx Hxs IH]; simpl; [constructor|].
  apply NoDup_app. split_and!.
  - assert (Inj (=) (=) (fun y : Z => (x, y))) by (by intros ?? [= ->]).
    by apply (NoDup_fmap_2 (fun y : Z => (x, y))).
  - intros [a b] Hin Hin'.
    apply list_elem_of_fmap in Hin as (y & [= -> ->] & _).
    apply list_elem_of_In, in_flat_map in Hin' as (x' & Hx' & Hin').
    apply list_elem_of_In, list_elem_of_fmap in Hin' as (y' & [= -> ->] & _).
    by apply list_elem_of_In in Hx'.
  - done.
Qed.

Lemma flat_map_length_eq {X Y : Type} (f : X -> list Y) (k : nat) (l : list X) :
  (forall x, length (f x) = k) -> length (flat_map f l) = (k * length l)%nat.
Proof.
  intros Hf. induction l as [|x l IH]; simpl; [lia|].
  rewrite length_app, Hf, IH. lia.
Qed.

Lemma all_cells_NoDup self : NoDup (L.all_cells self).
Proof. apply pairs_NoDup; apply NoDup_seqZ. Qed.

Lemma all_cells_length self :
  length (L.all_cells self) =
  (Z.to_nat (L.grid_size self) * Z.to_nat (L.grid_size self))%nat.
Proof.
  unfold L.all_cells.
  rewrite (flat_map_length_eq _ (Z.to_nat (L.grid_size self))).
  - by rewrite length_seqZ.
  - intros x. by rewrite length_map, length_seqZ.
Qed.

(** The cells [random_positions] samples from: no cell twice, all of
    them on the grid, none the depot, and at most one fewer than the
    grid has. *)
Lemma free_cells_spec self :
  let cells :=
    if bool_decide (L.depot self ∈ L.all_cells self)
    then L.remove_first (L.depot self) (L.all_cells self)
    else L.all_cells self in
  NoDup cells /\
  (forall p, p ∈ cells -> p ∈ L.all_cells self /\ p <> L.depot self) /\
  (length (L.all_cells self) <= length cells + 1)%nat /\
  (length cells <= length (L.all_cells self))%nat.
Proof.
  cbv zeta. pose proof (all_cells_NoDup self) as Hnd.
  destruct (bool_decide (L.depot self ∈ L.all_cells self)) eqn:Hin.
  - apply bool_decide_eq_true in Hin. pose proof (remove_first_perm _ _ Hin) as Hperm.
    rewrite Hperm in Hnd. apply NoDup_cons in Hnd as [Hout Hnd'].
    split; [done|]. split.
    + intros p Hp. split; [rewrite Hperm; by right|]. by intros ->.
    + apply Permutation_length in Hperm. simpl in Hperm. lia.
  - apply bool_decide_eq_false in Hin. split; [done|]. split; [|lia].
    intros p Hp. split; [done|]. by intros ->.
Qed.

(** X24.  [RackLayout.random_positions] raises [ValueError] exactly on a
    grid of fewer than 5 rows, which has fewer than 20 cells beside the
    depot; on a larger grid it returns 20 positions, pairwise distinct,
    all on the grid and none the depot. *)
Theorem random_positions_sound draws self :
  (L.random_positions draws self = None <-> L.grid_size self < 5) /\
  forall chosen, L.random_positions draws self = Some chosen ->
    length chosen = 20%nat /\
    NoDup chosen /\
    forall p, p ∈ chosen ->
      0 <= fst p < L.grid_size self /\
      0 <= snd p < L.grid_size self /\
      p <> L.depot self.
Proof.
  unfold L.random_positions. cbv zeta.
  destruct (free_cells_spec self) as (Hnd & Hcells & Hlow & Hhigh).
  pose proof (all_cells_length self) as Hlen.
  set (cells := if bool_decide (L.depot self ∈ L.all_cells self)
                then L.remove_first (L.depot self) (L.all_cells self)
                else L.all_cells self) in *.
  pose proof (sample_spec draws cells 20) as Hs.
  destruct (L.sample draws cells 20) as [chosen|].
  - destruct Hs as [Hk Hsub]. pose proof (submseteq_length _ _ Hsub) as Hle. split.
    + split; [done|]. intros Hsmall. exfalso.
      assert (Z.to_nat (L.grid_size self) <= 4)%nat as Hn by lia. nia.
    + intros ? [= <-]. split; [done|]. split.
      * apply submseteq_Permutation in Hsub as [rest Hperm].
        rewrite Hperm in Hnd. by apply NoDup_app in Hnd as [? _].
      * intros p Hp. apply (elem_of_submseteq _ _ _ Hp) in Hsub.
        destruct (Hcells p Hsub) as [Hcell Hne].
        apply elem_of_all_cells in Hcell. tauto.
  - split; [|done]. split; [intros _|done].
    destruct (Z.lt_ge_cases (L.grid_size self) 5) as [?|Hbig]; [done|exfalso].
    assert (5 <= Z.to_nat (L.grid_size self))%nat as Hn by lia. nia.
Qed.

(** * Long paths *)

Lemma reach_manhattan env p q k :
  cardinal env -> reach env p k q -> A.manhattan_distance p q <= k.
Proof.
  intros Hc Hr. induction Hr as [|k q act Hr IH Hwall].
  - unfold A.manhattan_distance. lia.
  - pose proof (manhattan_move env p q act Hc). lia.
Qed.

(** With the reachable cells within the cap, a search for a reachable
    goal ends on a goal node. *)
Lemma ucs_finds_reachable ident env goal max_expansions start cells :
  reachable env start goal ->
  (forall q, reachable env start q -> q ∈ cells) ->
  Z.of_nat (length cells) <= max_expansions ->
  exists node st,
    U.run ident env goal max_expansions start = Some (Found node, st) /\
    reach env start (U.g node) goal /\
    Z.of_nat (length (U.path node)) = U.g node + 1.
Proof.
  intros Hgoal Hcells Hcap.
  destruct (ucs_run_is_Some ident env goal max_expansions start) as [[out st] Hrun].
  destruct out as [node| |].
  - exists node, st. split; [done|].
    destruct (ucs_found_facts _ _ _ _ _ _ _ Hrun) as (Hwf & Hpos & _).
    split; [rewrite <- Hpos; by apply ucs_wf_reach|by eapply ucs_path_length].
  - destruct (ucs_exhausted_facts _ _ _ _ _ _ Hrun) as (Hall & _ & Hng & _).
    destruct Hng. by apply Hall.
  - destruct (ucs_aborted_facts _ _ _ _ _ _ Hrun) as (Hall & Hnd & Hx).
    destruct (ucs_cap_exact _ _ _ _ _ _ _ _ Hrun) as [Habort _].
    specialize (Habort eq_refl).
    assert (length (U.explored st).*1 <= length cells)%nat as Hle.
    { apply keys_length_le; [done|]. auto. }
    rewrite length_fmap in Hle. lia.
Qed.

Lemma astar_finds_reachable ident env goal max_expansions start cells :
  cardinal env ->
  reachable env start goal ->
  (forall q, reachable env start q -> q ∈ cells) ->
  Z.of_nat (length cells) <= max_expansions ->
  exists node st,
    A.run ident env goal A.manhattan_distance max_expansions start
      = Some (Found node, st) /\
    reach env start (A.g node) goal /\
    Z.of_nat (length (A.path node)) = A.g node + 1.
Proof.
  intros Hcard Hgoal Hcells Hcap.
  pose proof (manhattan_consistent _ goal Hcard) as Hcons.
  destruct (astar_run_is_Some ident env goal A.manhattan_distance max_expansions start)
    as [[out st] Hrun].
  destruct out as [node| |].
  - exists node, st. split; [done|].
    destruct (astar_found_facts _ _ _ _ _ _ _ _ Hcons Hrun) as (Hwf & Hpos & _).
    split; [rewrite <- Hpos; by eapply astar_wf_reach|by eapply astar_path_length].
  - destruct (astar_exhausted_facts _ _ _ _ _ _ _ Hcons Hrun)
      as (fin & Hall & _ & Hng & _).
    destruct Hng. by apply Hall.
  - destruct (astar_aborted_facts _ _ _ _ _ _ _ Hcons Hrun) as (fin & Hall & Hnd & Hx).
    destruct (astar_cap_exact _ _ _ _ _ _ _ _ _ Hrun) as [Habort _].
    specialize (Habort eq_refl).
    assert (length fin.*1 <= length cells)%nat as Hle.
    { apply keys_length_le; [done|]. auto. }
    rewrite length_fmap in Hle. lia.
Qed.

(** C9.  The loops of both searches end, but the call does not always
    return.  On an environment with cardinal moves, when the goal can be
    reached, the cap leaves room for every reachable cell, and the
    Manhattan distance from start to goal is no less than the number of
    frames left for [Node.path], both searches end their loop on the
    goal node and then raise [RecursionError] instead of returning the
    path: the path has one cell more than the distance, and [Node.path]
    needs a frame for each. *)
Theorem deep_path_raises frames ident env goal max_expansions start cells :
  cardinal env ->
  reachable env start goal ->
  (forall q, reachable env start q -> q ∈ cells) ->
  Z.of_nat (length cells) <= max_expansions ->
  Z.of_nat frames <= A.manhattan_distance start goal ->
  U.uniformcost_search_within ident env goal max_expansions frames start
    = Some RecursionError /\
  A.astar_search_within ident env goal A.manhattan_distance max_expansions frames start
    = Some RecursionError.
Proof.
  intros Hcard Hgoal Hcells Hcap Hframes. split.
  - destruct (ucs_finds_reachable ident _ _ _ _ _ Hgoal Hcells Hcap)
      as (node & st & Hrun & Hreach & Hlen).
    pose proof (reach_manhattan _ _ _ _ Hcard Hreach).
    unfold U.uniformcost_search_within. rewrite Hrun.
    cbn [fmap option_fmap option_map]. rewrite ucs_result_within.
    unfold U.result. cbn [fst]. by rewrite decide_False by lia.
  - destruct (astar_finds_reachable ident _ _ _ _ _ Hcard Hgoal Hcells Hcap)
      as (node & st & Hrun & Hreach & Hlen).
    pose proof (reach_manhattan _ _ _ _ Hcard Hreach).
    unfold A.astar_search_within. rewrite Hrun.
    cbn [fmap option_fmap option_map]. rewrite astar_result_within.
    unfold A.result. cbn [fst]. by rewrite decide_False by lia.
Qed.

(** The corridor of 1 x 1200 free cells. *)
Lemma corridor_reach c :
  0 <= c < 1200 -> reach (grid_env 1 1200 []) (0, 0) c (0, c).
Proof.
  intros [Hc Hlt]. revert Hlt. pattern c. apply natlike_ind; [|clear c Hc|done].
  - intros _. constructor.
  - intros c Hc IH Hlt. unfold Z.succ.
    change (0, c + 1) with (move (grid_env 1 1200 []) (0, c) E).
    constructor; [apply IH; lia|].
    unfold wall_at, move. simpl.
    apply orb_false_iff. split; [|done]. apply negb_false_iff.
    apply andb_true_iff. split; [|lia]. apply Z.leb_le. lia.
Qed.

Lemma corridor_cells q :
  reachable (grid_env 1 1200 []) (0, 0) q ->
  q ∈ (fun c => (0, c)) <$> seqZ 0 1200.
Proof.
  intros [k Hr]. apply list_elem_of_fmap.
  induction Hr as [|k p act _ _ Hwall].
  - exists 0. split; [done|]. apply elem_of_seqZ. lia.
  - destruct (move (grid_env 1 1200 []) p act) as [r c].
    unfold wall_at in Hwall. simpl in Hwall.
    apply orb_false_iff in Hwall as [Hin _]. apply negb_false_iff in Hin.
    rewrite !andb_true_iff in Hin. destruct Hin as [[[H1 H2] H3] H4].
    apply Z.leb_le in H1, H3. apply Z.ltb_lt in H2, H4.
    exists c. split; [f_equal; lia|]. apply elem_of_seqZ. lia.
Qed.

(** The failing input: the corridor searched from one end to the other
    under the default cap, with the 1000 frames of the interpreter's
    default limit all left to [Node.path]. *)
Lemma deep_path_raises_witness :
  cardinal (grid_env 1 1200 []) /\
  reachable (grid_env 1 1200 []) (0, 0) (0, 1199) /\
  (forall q, reachable (grid_env 1 1200 []) (0, 0) q ->
     q ∈ (fun c => (0, c)) <$> seqZ 0 1200) /\
  Z.of_nat (length ((fun c => ((0, c) : Position)) <$> seqZ 0 1200)) <= 10000 /\
  Z.of_nat (Z.to_nat 1000) <= A.manhattan_distance (0, 0) (0, 1199) /\
  U.uniformcost_search_within ident_up (grid_env 1 1200 []) (0, 1199) 10000
    (Z.to_nat 1000) (0, 0) = Some RecursionError /\
  A.astar_search_within ident_up (grid_env 1 1200 []) (0, 1199)
    A.manhattan_distance 10000 (Z.to_nat 1000) (0, 0) = Some RecursionError.
Proof.
  assert (reachable (grid_env 1 1200 []) (0, 0) (0, 1199)) as Hgoal.
  { exists 1199. apply corridor_reach. lia. }
  assert (Z.of_nat (length ((fun c => ((0, c) : Position)) <$> seqZ 0 1200)) <= 10000)
    as Hcap.
  { rewrite length_fmap, length_seqZ. lia. }
  assert (Z.of_nat (Z.to_nat 1000) <= A.manhattan_distance (0, 0) (0, 1199)) as Hframes.
  { unfold A.manhattan_distance. simpl. lia. }
  split; [apply grid_cardinal|]. split; [exact Hgoal|].
  split; [exact corridor_cells|]. split; [exact Hcap|]. split; [exact Hframes|].
  exact (deep_path_raises (Z.to_nat 1000) ident_up (grid_env 1 1200 []) (0, 1199) 10000
           (0, 0) _ (grid_cardinal 1 1200 []) Hgoal corridor_cells Hcap Hframes).
Defined.
